(** * npm-security-detector: a shallow embedding of the pipeline scripts

    The repository is a set of Node.js scripts: a sampler
    (sample_packages.js), a bounded-concurrency downloader
    (download-packages.js), a sequential Docker sandbox driver
    (dynamic_c2_scan_docker.js) and an Express server (server.js) with the
    obfuscation heuristic, the VirusTotal lookup and the risk score.

    Conventions of the embedding:
    - a JavaScript string is its sequence of UTF-16 code units ([list N]);
    - the host file system is a finite map from file names to contents;
    - whatever the outside world decides (the registry's answers, Docker,
      the clock, the order in which in-flight promises settle) is an
      explicit oracle argument, universally quantified in the theorems. *)

From Stdlib Require Import ZArith QArith Qround Lia Permutation String Ascii.
From stdpp Require Import gmap list.

Local Open Scope Z_scope.

(* ===================================================================== *)
(** ** JavaScript strings and arrays *)
(* ===================================================================== *)

Module JS.

(** UTF-16 code unit, and a string as the sequence of its code units. *)
Abbreviation char := N (only parsing).
Abbreviation jsstring := (list N) (only parsing).

(** A source-code string literal (ASCII only). *)
Definition lit (s : string) : jsstring :=
  N_of_ascii <$> list_ascii_of_string s.

Definition LF : char := 10%N.
Definition CR : char := 13%N.
Definition TAB : char := 9%N.

(** ECMAScript WhiteSpace and LineTerminator code points: what
    [String.prototype.trim] strips. *)
Definition is_ws (c : char) : bool :=
  ((9 <=? c) && (c <=? 13))%N
  || (c =? 32)%N || (c =? 160)%N || (c =? 5760)%N
  || ((8192 <=? c) && (c <=? 8202))%N
  || (c =? 8232)%N || (c =? 8233)%N || (c =? 8239)%N
  || (c =? 8287)%N || (c =? 12288)%N || (c =? 65279)%N.

Fixpoint trimStart (s : jsstring) : jsstring :=
  match s with
  | c :: s' => if is_ws c then trimStart s' else s
  | [] => []
  end.

Definition trimEnd (s : jsstring) : jsstring :=
  reverse (trimStart (reverse s)).

(** [s.trim()] *)
Definition trim (s : jsstring) : jsstring := trimEnd (trimStart s).

(** [Boolean(s)] for a string: non-empty. *)
Definition truthy (s : jsstring) : bool :=
  match s with [] => false | _ => true end.

(** [s.split(sep)] for a one-code-unit separator: always at least one
    piece; [n] separators give [n + 1] pieces. *)
Fixpoint split (sep : char) (s : jsstring) : list jsstring :=
  match s with
  | [] => [[]]
  | c :: s' =>
      if (c =? sep)%N then [] :: split sep s'
      else match split sep s' with
           | p :: ps => (c :: p) :: ps
           | [] => [[c]]
           end
  end.

(** Drop one trailing CR: the effect of the optional [\r] in [/\r?\n/]
    on the piece that precedes a matched [\n]. *)
Definition dropCR (s : jsstring) : jsstring :=
  match reverse s with
  | c :: r => if (c =? CR)%N then reverse r else s
  | [] => s
  end.

(** [s.split(/\r?\n/)]: split at every LF; a CR immediately before the
    LF belongs to the separator.  The last piece follows no LF and keeps
    its characters. *)
Fixpoint dropCRs (ps : list jsstring) : list jsstring :=
  match ps with
  | [] => []
  | [p] => [p]
  | p :: ps' => dropCR p :: dropCRs ps'
  end.

Definition splitLines (s : jsstring) : list jsstring :=
  dropCRs (split LF s).

(** [s.replace(/c/g, d)] for single code units. *)
Definition replaceAll (c d : char) (s : jsstring) : jsstring :=
  (fun x => if (x =? c)%N then d else x) <$> s.

(** [a.join(sep)] on strings. *)
Fixpoint join (sep : jsstring) (a : list jsstring) : jsstring :=
  match a with
  | [] => []
  | [x] => x
  | x :: a' => x ++ sep ++ join sep a'
  end.

(** Arrays whose slots may hold [undefined] ([None]). *)
Abbreviation array A := (list (option A)) (only parsing).

(** [a[i]]: reading past the end gives [undefined]. *)
Definition get {A} (a : array A) (i : nat) : option A :=
  match a !! i with Some v => v | None => None end.

(** [a[i] = v]: writing past the end grows the array, the slots in
    between reading as [undefined]. *)
Definition set {A} (a : array A) (i : nat) (v : option A) : array A :=
  if decide (i < length a)%nat then <[i:=v]> a
  else a ++ replicate (i - length a) None ++ [v].

(** [a.slice(0, k)] for an integer [k]: a negative [k] counts from the
    end. *)
Definition slice0 {A} (a : list A) (k : Z) : list A :=
  let len := Z.of_nat (length a) in
  if k <? 0 then take (Z.to_nat (Z.max (len + k) 0)) a
  else take (Z.to_nat (Z.min k len)) a.

(** [Array.from(new Set(a))]: first occurrences, in order. *)
Fixpoint dedup {A} `{EqDecision A} (seen : list A) (a : list A) : list A :=
  match a with
  | [] => []
  | x :: a' =>
      if decide (x ∈ seen) then dedup seen a'
      else x :: dedup (x :: seen) a'
  end.

(** One segment of the path in [normalizeString]: an empty segment and
    ["."] are passed over; [".."] takes the last segment kept away,
    unless there is none or it is [".."] itself, when it is kept for a
    relative path and dropped for an absolute one; any other segment is
    kept.  [res] holds the segments kept so far, the last one first. *)
Definition segment (allowAboveRoot : bool) (res : list jsstring)
    (seg : jsstring) : list jsstring :=
  if bool_decide (seg = []) || bool_decide (seg = lit ".") then res
  else if bool_decide (seg = lit "..") then
    match res with
    | top :: rest =>
        if bool_decide (top = lit "..")
        then (if allowAboveRoot then seg :: res else res)
        else rest
    | [] => if allowAboveRoot then [seg] else []
    end
  else seg :: res.

(** [path.normalize(path)] of Node's POSIX [path] module. *)
Definition normalize (path : jsstring) : jsstring :=
  match path with
  | [] => lit "."
  | c :: _ =>
      let isAbsolute := (c =? 47)%N in
      let trailingSeparator :=
        match last path with Some c' => (c' =? 47)%N | None => false end in
      let res :=
        join (lit "/")
          (reverse (foldl (segment (negb isAbsolute)) [] (split 47%N path))) in
      match res with
      | [] => if isAbsolute then lit "/"
              else if trailingSeparator then lit "./" else lit "."
      | _ => (if isAbsolute then lit "/" else [])
             ++ res ++ (if trailingSeparator then lit "/" else [])
      end
  end.

(** [path.join(a, b)]: the arguments that are not empty joined by ["/"],
    then normalised. *)
Definition path_join (a b : jsstring) : jsstring :=
  match a, b with
  | [], [] => lit "."
  | [], _ => normalize b
  | _, [] => normalize a
  | _, _ => normalize (a ++ lit "/" ++ b)
  end.

End JS.

(* ===================================================================== *)
(** ** Sampler (sample_packages.js) *)
(* ===================================================================== *)

Module Sampler.
Import JS.

(** 32-bit conversions of ECMAScript. *)
Definition toUint32 (z : Z) : Z := z mod 2 ^ 32.
Definition toInt32 (z : Z) : Z := (z + 2 ^ 31) mod 2 ^ 32 - 2 ^ 31.

(** [a << n], [a >>> n] and [a ^ b] on numbers holding integers. *)
Definition shl (a n : Z) : Z := toInt32 (Z.shiftl (toInt32 a) n).
Definition ushr (a n : Z) : Z := Z.shiftr (toUint32 a) n.
Definition xor (a b : Z) : Z := toInt32 (Z.lxor (toInt32 a) (toInt32 b)).

(** [makeRNG(seed)]: the closure's captured variable [s]. *)
Definition makeRNG (seed : Z) : Z := ushr seed 0.

(** One call of the closure: the three xorshift updates of [s]. *)
Definition step (s : Z) : Z :=
  let s := xor s (shl s 13) in
  let s := xor s (ushr s 17) in
  let s := xor s (shl s 5) in
  s.

(** The value the call returns, [(s >>> 0) / 0xffffffff], as an exact
    rational (the double division is not modelled; the theorems below
    use only that the index is at most [i + 1], and at most [i] unless
    [s >>> 0] is [0xffffffff], which holds of the rounded product too). *)
Definition value (s : Z) : Q := Qmake (ushr s 0) 4294967295.

Definition SEED : Z := 20250801.

(** [Math.floor(rng() * (i + 1))], given the state after the call. *)
Definition pick (s : Z) (i : nat) : nat :=
  Z.to_nat (Qfloor (value s * inject_Z (Z.of_nat i + 1))).

(** [[all[i], all[j]] = [all[j], all[i]]]: both reads, then the write
    to [i], then the write to [j]. *)
Definition swap {A} (all : array A) (i j : nat) : array A :=
  let x := get all j in
  let y := get all i in
  set (set all i x) j y.

(** [for (let i = all.length - 1; i > 0; i--)], entered with counter
    [i]. *)
Fixpoint loop {A} (i : nat) (s : Z) (all : array A) : array A :=
  match i with
  | O => all
  | S i' =>
      let s' := step s in
      let j := pick s' i in
      loop i' s' (swap all i j)
  end.

Definition shuffle {A} (all : array A) : array A :=
  loop (length all - 1) (makeRNG SEED) all.

(** The script from the list of names read from the input file to the
    array that is joined and written: [all.slice(0, sampleSize)] after
    the shuffle. *)
Definition sample {A} (names : list A) (sampleSize : Z) : array A :=
  slice0 (shuffle (Some <$> names)) sampleSize.

End Sampler.

(* ===================================================================== *)
(** ** Fetch pipeline (download-packages.js) *)
(* ===================================================================== *)

Module Fetch.
Import JS.

(** A [Date] by its time value; [None] is the Invalid Date, whose time
    value is NaN. *)
Abbreviation Date := (option Z) (only parsing).

(** [a <= b] on dates: both are converted to their time values, and a
    comparison with NaN is false. *)
Definition date_le (a b : option Z) : bool :=
  match a, b with
  | Some x, Some y => x <=? y
  | _, _ => false
  end.

(** [{ ver, time }] *)
Record VersionEntry := { ver : jsstring; time : Date }.

(** The comparator [(a, b) => a.time - b.time]; [Array.prototype.sort]
    reads a NaN result as [+0]. *)
Definition byTime (a b : VersionEntry) : Z :=
  match time a, time b with
  | Some x, Some y => x - y
  | _, _ => 0
  end.

(** [Array.prototype.sort] is stable (ECMAScript 2019), so for a consistent
    comparator its result is the one of any stable sort; here insertion,
    an element going in front of the first one it does not exceed. *)
Fixpoint insert {E} (cmp : E → E → Z) (x : E) (l : list E) : list E :=
  match l with
  | [] => [x]
  | y :: l' => if cmp x y <=? 0 then x :: y :: l' else y :: insert cmp x l'
  end.

Definition sort {E} (cmp : E → E → Z) (l : list E) : list E :=
  foldr (insert cmp) [] l.

(** The registry document of a package, as far as the script reads it:
    [Object.entries(meta.time || {})] in enumeration order, and for a
    version [v] the string [meta.versions[v].dist.tarball] when every link
    of that chain is there. *)
Record Meta := {
  meta_time : list (jsstring * jsstring);
  meta_tarball : gmap jsstring jsstring
}.

(** What a path of the disk holds. *)
Inductive Node := Dir | File (content : jsstring).

(** What [downloadFile] ends with. *)
Inductive Download :=
| DlFinished (bytes : jsstring)      (* status 200, piped, file closed *)
| DlStatus (status : jsstring)       (* [res.statusCode !== 200], as printed *)
| DlError (message : jsstring).      (* the request's error event *)

(** The outside world of one run. *)
Record Env := {
  encodeURIComponent : jsstring → jsstring;
  newDate : jsstring → Date;                       (* [new Date(t)] *)
  fetchJSON : jsstring → jsstring + Meta;          (* rejection message or document *)
  mkdir : jsstring → option jsstring;              (* [fsp.mkdir]: error message *)
  download : jsstring → nat → Download;            (* by url and attempt *)
  tar : jsstring → jsstring → gmap jsstring Node
        → option jsstring * gmap jsstring Node;
      (* [execAsync] of the command line made of [tgzPath] and
         [pkgOutBase], on the disk it finds: the message when the command
         failed, and the disk it leaves *)
  writeFile : jsstring → option jsstring
      (* [fsp.writeFile(path, ...)]: the message it rejects with for a
         cause other than a directory standing at [path] *)
}.

(** [process.argv]: output directory, cutoff and concurrency. *)
Record Config := {
  outDir : jsstring;
  cutoffDate : Date;
  CONCURRENCY : Z
}.

(** Requests sent and commands run, in order. *)
Inductive Action :=
| AFetch (url : jsstring)
| AMkdir (path : jsstring)
| ADownload (url dest : jsstring)
| ASleep (ms : Z)
| ATar (tgz dir : jsstring).

Record World := {
  disk : gmap jsstring Node;
  log : list Action
}.

(** Code that may throw [new Error(message)] and acts on the world. *)
Definition M (A : Type) : Type := World → (jsstring + A) * World.

Definition ret {A} (a : A) : M A := λ w, (inr a, w).
Definition throw {A} (message : jsstring) : M A := λ w, (inl message, w).
Definition bind {A B} (c : M A) (k : A → M B) : M B :=
  λ w, match c w with
       | (inr a, w') => k a w'
       | (inl e, w') => (inl e, w')
       end.
Definition emit (a : Action) : M unit :=
  λ w, (inr tt, {| disk := disk w; log := log w ++ [a] |}).
Definition write (path : jsstring) (n : option Node) : M unit :=
  λ w, (inr tt, {| disk := match n with
                           | Some n => <[path:=n]> (disk w)
                           | None => delete path (disk w)
                           end;
                   log := log w |}).

Notation "x <- c ;; k" := (bind c (λ x, k))
  (at level 63, c at next level, right associativity).
Notation "c ;;; k" := (bind c (λ _, k))
  (at level 63, right associativity).

(** [pkg.replace(/\//g, "+")] *)
Definition safeName (pkg : jsstring) : jsstring := replaceAll 47%N 43%N pkg.

(** [err.message || String(err)] on an [Error]. *)
Definition message_of (message : jsstring) : jsstring :=
  if truthy message then message else lit "Error".

(** Lines 94-98: the entries of the time map but [created] and
    [modified], as dates, those not after the cutoff kept. *)
Definition versionEntries (env : Env) (cfg : Config)
    (timeMap : list (jsstring * jsstring)) : list VersionEntry :=
  let named := filter (λ e, bool_decide (e.1 ≠ lit "created")
                            && bool_decide (e.1 ≠ lit "modified")) timeMap in
  let dated := (λ e, {| ver := e.1; time := newDate env e.2 |}) <$> named in
  filter (λ e, date_le (time e) (cutoffDate cfg)) dated.

(** Lines 105-106: sort by time, take the last. *)
Definition selectedOf (entries : list VersionEntry) : option jsstring :=
  ver <$> last (sort byTime entries).

(** [downloadFile(url, dest)]: the write stream creates [dest]; on status
    other than 200 nothing is piped into it; on a request error it is
    unlinked. *)
Definition downloadFile (env : Env) (url dest : jsstring) (attempt : nat)
    : M unit :=
  emit (ADownload url dest) ;;;
  match download env url attempt with
  | DlFinished bytes => write dest (Some (File bytes))
  | DlStatus status =>
      write dest (Some (File [])) ;;;
      throw (lit "HTTP " ++ status ++ lit " for " ++ url)
  | DlError message => write dest None ;;; throw message
  end.

Definition MAX_DL_TRIES : nat := 3.

(** [1000 * attempt], a number of milliseconds. *)
Definition backoff (attempt : nat) : Z := 1000 * Z.of_nat attempt.

(** Lines 123-135: the loop entered at [attempt] with [n] rounds left
    before [attempt <= MAX_DL_TRIES] fails. *)
Fixpoint downloadLoop (env : Env) (url dest : jsstring) (n attempt : nat)
    : M unit :=
  match n with
  | O => ret tt
  | S n' =>
      λ w, match downloadFile env url dest attempt w with
           | (inr _, w') => (inr tt, w')                     (* break *)
           | (inl e, w') =>
               if (attempt <? MAX_DL_TRIES)%nat
               then (emit (ASleep (backoff attempt)) ;;;
                     downloadLoop env url dest n' (S attempt)) w'
               else throw (lit "DOWNLOAD_FAILED: " ++ e) w'
           end
  end.

(** Lines 138-143: [execAsync(`tar -xzf "${tgzPath}" -C "${pkgOutBase}"`)].
    The command line goes through the shell, which expands what the two
    paths hold (the version key comes from the registry); what the
    command does to the disk is the oracle's. *)
Definition extract (env : Env) (tgzPath pkgOutBase : jsstring) : M unit :=
  emit (ATar tgzPath pkgOutBase) ;;;
  λ w, match tar env tgzPath pkgOutBase (disk w) with
       | (None, d) => (inr tt, {| disk := d; log := log w |})
       | (Some e, d) =>
           (inl (lit "EXTRACT_FAILED: " ++ e), {| disk := d; log := log w |})
       end.

(** Lines 113-143 of [processPackage]: make the package directory,
    download the archive, extract it; returns [pkgOutBase].  The script
    has made [outDir] before (lines 26-28) and the safe name holds no
    ["/"], so [mkdir] has this one directory to make. *)
Definition store (env : Env) (cfg : Config) (pkgName selected tarballUrl : jsstring)
    : M jsstring :=
  let pkgOutBase := path_join (outDir cfg) (safeName pkgName) in
  emit (AMkdir pkgOutBase) ;;;
  (λ w, match mkdir env pkgOutBase with
        | Some e => (inl e, w)
        | None => (inr tt, {| disk := <[pkgOutBase:=Dir]> (disk w);
                              log := log w |})
        end) ;;;
  let tgzPath :=
    path_join pkgOutBase
      (safeName pkgName ++ lit "-" ++ selected ++ lit ".tgz") in
  downloadLoop env tarballUrl tgzPath MAX_DL_TRIES 1 ;;;
  extract env tgzPath pkgOutBase ;;;
  ret pkgOutBase.

(** [https://registry.npmjs.org/${encodeURIComponent(pkgName)}] *)
Definition metaUrl (env : Env) (pkgName : jsstring) : jsstring :=
  lit "https://registry.npmjs.org/" ++ encodeURIComponent env pkgName.

(** The [try] block of [processPackage]: the selected version and the
    package directory, or the thrown message. *)
Definition processBody (env : Env) (cfg : Config) (pkgName : jsstring)
    : M (jsstring * jsstring) :=
  emit (AFetch (metaUrl env pkgName)) ;;;
  meta <- (λ w, (fetchJSON env (metaUrl env pkgName), w)) ;;
  let entries := versionEntries env cfg (meta_time meta) in
  match selectedOf entries with
  | None => throw (lit "NO_VERSION_BEFORE_CUTOFF")
  | Some selected =>
      match meta_tarball meta !! selected with
      | None => throw (lit "NO_TARBALL_FOR_SELECTED_VERSION")
      | Some tarballUrl =>
          if negb (truthy tarballUrl)
          then throw (lit "NO_TARBALL_FOR_SELECTED_VERSION")
          else
            dir <- store env cfg pkgName selected tarballUrl ;;
            ret (selected, dir)
      end
  end.

(** [{ ok: true, pkg, version, dir }] and [{ ok: false, pkg, error }]. *)
Inductive Result :=
| Success (pkg version dir : jsstring)
| Failure (pkg error : jsstring).

Definition ok (r : Result) : bool :=
  match r with Success _ _ _ => true | Failure _ _ => false end.

Definition pkg_of (r : Result) : jsstring :=
  match r with Success p _ _ => p | Failure p _ => p end.

(** [processPackage]: the [catch] turns whatever was thrown into a
    failure record, so the promise always fulfils. *)
Definition processPackage (env : Env) (cfg : Config) (pkgName : jsstring)
    (w : World) : Result * World :=
  match processBody env cfg pkgName w with
  | (inr (selected, dir), w') => (Success pkgName selected dir, w')
  | (inl e, w') => (Failure pkgName (message_of e), w')
  end.

(** What the promise [worker(item)] ends with. *)
Inductive Settled :=
| Fulfilled (r : Result)
| Rejected (message : jsstring).

(** A promise of [active]: the wrapper around [worker(item)], told from
    the others by the index at which it was created. *)
Record Job := { job_id : nat; job_item : jsstring }.

Instance Job_eq_dec : EqDecision Job.
Proof. solve_decision. Defined.

(** The variables of [runQueue], and the world the jobs act on. *)
Record Queue := {
  idx : nat;
  active : list Job;
  results : list Result;
  world : World
}.

Abbreviation Worker := (jsstring → World → Settled * World) (only parsing).

(** [enqueueNext]: returns without effect when the items are used up,
    else takes the next one and pushes its promise on [active]. *)
Definition enqueueNext (items : list jsstring) (q : Queue) : Queue :=
  match items !! idx q with
  | None => q
  | Some item =>
      {| idx := S (idx q);
         active := active q ++ [{| job_id := idx q; job_item := item |}];
         results := results q;
         world := world q |}
  end.

(** The wrapper [async () => { try { return await worker(item) } catch ... }]:
    a rejection of the worker becomes a failure record, so the wrapper's
    promise always fulfils. *)
Definition settle (worker : Worker) (p : Job) (w : World) : Result * World :=
  match worker (job_item p) w with
  | (Fulfilled r, w') => (r, w')
  | (Rejected e, w') => (Failure (job_item p) (message_of e), w')
  end.

(** The [finally] callback: [active.indexOf(p)], then [splice(i, 1)]. *)
Fixpoint remove (p : Job) (l : list Job) : list Job :=
  match l with
  | [] => []
  | x :: l' => if decide (x = p) then l' else x :: remove p l'
  end.

(** One pass of the [while] body past the emptiness test, when one
    promise settles before the loop resumes: [await Promise.race(active)],
    the push and [enqueueNext()].  Which in-flight promise settles first
    is the event loop's choice, here entry [choice mod active.length].
    The job's effects are applied at this moment.  As the wrapper never
    rejects, the [catch] around the race is not entered.  [pass] below is
    the pass in general, with the promises that settle together. *)
Definition turn (items : list jsstring) (worker : Worker) (choice : nat)
    (q : Queue) : Queue :=
  match active q !! (choice mod length (active q))%nat with
  | None => q
  | Some p =>
      let (r, w') := settle worker p (world q) in
      enqueueNext items
        {| idx := idx q;
           active := remove p (active q);
           results := results q ++ [r];
           world := w' |}
  end.

(** [while (idx < items.length || active.length > 0)] with its
    [if (active.length === 0) break], bounded by [fuel] passes, one
    promise settling in each. *)
Fixpoint while (fuel : nat) (items : list jsstring) (worker : Worker)
    (sched : list nat) (q : Queue) : option Queue :=
  match fuel with
  | O => None
  | S fuel' =>
      if bool_decide (idx q < length items)%nat
         || bool_decide (0 < length (active q))%nat
      then
        if bool_decide (length (active q) = 0)%nat then Some q
        else while fuel' items worker (tail sched)
               (turn items worker (hd 0%nat sched) q)
      else Some q
  end.

(** [Promise.allSettled(active)] after the loop and the pushes that
    follow it. *)
Definition drain (worker : Worker) (q : Queue) : Queue :=
  foldl (λ q p, let (r, w') := settle worker p (world q) in
                {| idx := idx q; active := active q;
                   results := results q ++ [r]; world := w' |})
        q (active q).

(** [runQueue(items, worker, concurrency)] when the promises settle one
    at a time. *)
Definition runQueue (fuel : nat) (items : list jsstring) (worker : Worker)
    (concurrency : Z) (sched : list nat) (w : World)
    : option (list Result * World) :=
  let q0 := {| idx := 0; active := []; results := []; world := w |} in
  let kick := Z.to_nat (Z.min concurrency (Z.of_nat (length items))) in
  let q1 := Nat.iter kick (enqueueNext items) q0 in
  match while fuel items worker sched q1 with
  | None => None
  | Some q2 => let q3 := drain worker q2 in Some (results q3, world q3)
  end.

(** The two ledgers written at the end of the run. *)
Record Ledgers := { success : list Result; failed : list Result }.

Definition successLine (s : Result) : jsstring :=
  match s with
  | Success pkg version dir => pkg ++ lit "@" ++ version ++ lit "    " ++ dir
  | Failure pkg _ => pkg ++ lit "@" ++ lit "undefined" ++ lit "    "
  end.

Definition failedLine (f : Result) : jsstring :=
  match f with
  | Failure pkg error => pkg ++ [TAB] ++ error
  | Success pkg _ _ => pkg ++ [TAB] ++ lit "undefined"
  end.

(** The script's final [async] function from the call of [runQueue] on
    (lines 222-243), when the promises settle one at a time and both
    ledgers can be written; [script] below is the function as a whole. *)
Definition main (env : Env) (cfg : Config) (lines : list jsstring)
    (fuel : nat) (sched : list nat) (w : World) : option (Ledgers * World) :=
  match runQueue fuel lines
          (λ p w, let (r, w') := processPackage env cfg p w in (Fulfilled r, w'))
          (CONCURRENCY cfg) sched w with
  | None => None
  | Some (results, w') =>
      let success := filter (λ r, ok r) results in
      let failed := filter (λ r, negb (ok r)) results in
      let successPath := path_join (outDir cfg) (lit "success_packages.txt") in
      let failedPath := path_join (outDir cfg) (lit "failed_packages.txt") in
      let d1 := <[successPath := File (join [LF] (successLine <$> success))]> (disk w') in
      let d2 := <[failedPath := File (join [LF] (failedLine <$> failed))]> d1 in
      Some ({| success := success; failed := failed |},
            {| disk := d2; log := log w' |})
  end.

(** The promises that settle after the winner of the race and before
    the loop resumes, in the order they settle, each taken by an index
    into what [active] holds then.  Each job has run to its end and its
    [finally] callback takes its promise off [active]; no race is
    listening any more, so the results reach nobody. *)
Fixpoint settleAlso (worker : Worker) (others : list nat) (act : list Job)
    (w : World) : list Job * World :=
  match others with
  | [] => (act, w)
  | c :: rest =>
      match act !! (c mod length act)%nat with
      | None => (act, w)
      | Some p =>
          let (_, w') := settle worker p w in
          settleAlso worker rest (remove p act) w'
      end
  end.

(** One pass of the [while] body past the emptiness test (lines
    181-186): [await Promise.race(active)] resolves with the promise that
    settles first; by the time the function resumes, those of [others]
    have settled as well.  The one result of the race is pushed and one
    item is enqueued. *)
Definition pass (items : list jsstring) (worker : Worker) (first : nat)
    (others : list nat) (q : Queue) : Queue :=
  match active q !! (first mod length (active q))%nat with
  | None => q
  | Some p =>
      let (r, w1) := settle worker p (world q) in
      let (act, w2) := settleAlso worker others (remove p (active q)) w1 in
      enqueueNext items
        {| idx := idx q;
           active := act;
           results := results q ++ [r];
           world := w2 |}
  end.

(** What the event loop does in a pass: the index of the promise that
    wins the race, and those of the promises that settle with it. *)
Abbreviation Schedule := (list (nat * list nat)) (only parsing).

(** The [while] loop (lines 179-197), bounded by [fuel] passes. *)
Fixpoint whileAny (fuel : nat) (items : list jsstring) (worker : Worker)
    (sched : Schedule) (q : Queue) : option Queue :=
  match fuel with
  | O => None
  | S fuel' =>
      if bool_decide (idx q < length items)%nat
         || bool_decide (0 < length (active q))%nat
      then
        if bool_decide (length (active q) = 0)%nat then Some q
        else
          let s := hd (0%nat, []) sched in
          whileAny fuel' items worker (tail sched)
            (pass items worker s.1 s.2 q)
      else Some q
  end.

(** [runQueue(items, worker, concurrency)] (lines 153-211). *)
Definition runQueueAny (fuel : nat) (items : list jsstring) (worker : Worker)
    (concurrency : Z) (sched : Schedule) (w : World)
    : option (list Result * World) :=
  let q0 := {| idx := 0; active := []; results := []; world := w |} in
  let kick := Z.to_nat (Z.min concurrency (Z.of_nat (length items))) in
  let q1 := Nat.iter kick (enqueueNext items) q0 in
  match whileAny fuel items worker sched q1 with
  | None => None
  | Some q2 => let q3 := drain worker q2 in Some (results q3, world q3)
  end.

(** The worker the script passes to [runQueue]. *)
Definition worker (env : Env) (cfg : Config) : Worker :=
  λ p w, let (r, w') := processPackage env cfg p w in (Fulfilled r, w').

(** [fsp.writeFile(path, content, "utf8")] *)
Definition writeLedger (env : Env) (path content : jsstring) : M unit :=
  λ w, match disk w !! path with
       | Some Dir =>
           (inl (lit "EISDIR: illegal operation on a directory, open '"
                 ++ path ++ lit "'"), w)
       | _ =>
           match writeFile env path with
           | Some e => (inl e, w)
           | None =>
               (inr tt, {| disk := <[path := File content]> (disk w);
                           log := log w |})
           end
       end.

(** How the final [async] function ends: with the ledgers written, or
    with a rejection nothing handles. *)
Inductive Outcome :=
| Done (ledgers : Ledgers) (w : World)
| Threw (message : jsstring) (w : World).

(** The script's final [async] function (lines 214-244).  Its first
    statement prints [cutoffDate.toISOString()], which throws a
    [RangeError] on an Invalid Date; the ledgers are written one after
    the other, and a write that fails ends the function. *)
Definition script (env : Env) (cfg : Config) (lines : list jsstring)
    (fuel : nat) (sched : Schedule) (w : World) : option Outcome :=
  match cutoffDate cfg with
  | None => Some (Threw (lit "Invalid time value") w)
  | Some _ =>
      match runQueueAny fuel lines (worker env cfg) (CONCURRENCY cfg) sched w with
      | None => None
      | Some (results, w') =>
          let success := filter (λ r, ok r) results in
          let failed := filter (λ r, negb (ok r)) results in
          let successPath := path_join (outDir cfg) (lit "success_packages.txt") in
          let failedPath := path_join (outDir cfg) (lit "failed_packages.txt") in
          match writeLedger env successPath
                  (join [LF] (successLine <$> success)) w' with
          | (inl e, w1) => Some (Threw e w1)
          | (inr _, w1) =>
              match writeLedger env failedPath
                      (join [LF] (failedLine <$> failed)) w1 with
              | (inl e, w2) => Some (Threw e w2)
              | (inr _, w2) =>
                  Some (Done {| success := success; failed := failed |} w2)
              end
          end
      end
  end.

End Fetch.

(* ===================================================================== *)
(** ** Sandbox executor (dynamic_c2_scan_docker.js) *)
(* ===================================================================== *)

Module Sandbox.
Import JS.

(** [name.replace(/\//g, "+")] *)
Definition safeName (name : jsstring) : jsstring := replaceAll 47%N 43%N name.

(** Lines 28-32: the package list from the text of the packages file. *)
Definition readPackages (text : jsstring) : list jsstring :=
  filter (λ l, truthy l) (trim <$> splitLines text).

(** What a path of the host holds. *)
Inductive Node := File (text : jsstring) | Dir.

(** The host's files, by path. *)
Abbreviation Files := (gmap (list N) Node) (only parsing).

(** What [spawnSync("docker", dockerArgs)] comes back with: [r.error]
    set, the container never having run, or a finished container and the
    files as it leaves them.  The output directory is mounted at [/out]
    for reading and writing (lines 82-83) and the container runs the
    package's install scripts (line 71), so any file under it may have
    changed, have gone or have become a directory; the script text
    also interpolates the safe name unquoted into its redirections
    (lines 60-74), so that a name with a space in it redirects into
    another file.  The exit status is not looked at. *)
Inductive Spawn :=
| SpawnError (message : jsstring)
| Exited (files : Files).

(** [{ pkg, domains, vt: {}, timestamp }] *)
Record Report := {
  pkg : jsstring;
  domains : list jsstring;
  timestamp : jsstring
}.

Record Env := {
  docker : nat → jsstring → Files → Spawn;   (* by loop index, package, files *)
  now : nat → jsstring;                       (* [new Date().toISOString()] *)
  stringify : Report → jsstring;              (* [JSON.stringify(record, null, 2)] *)
  readFileSync : nat → jsstring → option jsstring;
      (* by loop index and path: the message [fs.readFileSync] throws
         with for a cause other than a directory standing at the path *)
  writeFileSync : nat → jsstring → option jsstring
      (* the same for [fs.writeFileSync] *)
}.

(** The host's files after [spawnSync] has returned. *)
Definition written (r : Spawn) (d : Files) : Files :=
  match r with
  | SpawnError _ => d
  | Exited files => files
  end.

(** [`${path.join(outDir, safe)}.txt`] and [.json] (lines 41-45). *)
Definition outTxt (outDir pkg : jsstring) : jsstring :=
  path_join outDir (safeName pkg) ++ lit ".txt".
Definition outJson (outDir pkg : jsstring) : jsstring :=
  path_join outDir (safeName pkg) ++ lit ".json".

(** Lines 101-105: [parts[0] || parts[1]] of the trimmed, non-empty
    tab-separated fields; [None] is [undefined]. *)
Definition nameOf (line : jsstring) : option jsstring :=
  let parts := filter (λ x, truthy x) (trim <$> split TAB line) in
  match parts !! 0%nat with
  | Some p0 => if truthy p0 then Some p0 else parts !! 1%nat
  | None => parts !! 1%nat
  end.

(** Lines 99-110: the loop over the lines, with the set [seen] and the
    array [domains]. *)
Fixpoint collect (lines : list jsstring) (seen : gset jsstring)
    (domains : list jsstring) : list jsstring :=
  match lines with
  | [] => domains
  | line :: rest =>
      if negb (truthy (trim line)) then collect rest seen domains
      else
        match nameOf line with
        | Some name =>
            if truthy name && negb (bool_decide (name ∈ seen))
            then collect rest ({[name]} ∪ seen) (domains ++ [name])
            else collect rest seen domains
        | None => collect rest seen domains
        end
  end.

(** Lines 97-110 from the text of the capture file. *)
Definition extractDomains (text : jsstring) : list jsstring :=
  collect (splitLines text) ∅ [].

(** The files and the packages Docker was spawned for, in order. *)
Record Run := {
  dir : Files;
  spawned : list jsstring
}.

(** What a pass of the [for] loop ends with: the next pass, or an
    exception, which nothing catches and which ends the script. *)
Inductive Pass :=
| Next (st : Run)
| Uncaught (message : jsstring) (st : Run).

Definition state (p : Pass) : Run :=
  match p with
  | Next st => st
  | Uncaught _ st => st
  end.

(** Lines 95-111: no domain when nothing stands at [outTxt]
    ([fs.existsSync]), else those of the text read from it;
    [fs.readFileSync] throws on a directory. *)
Definition readDomains (env : Env) (i : nat) (path : jsstring) (d : Files)
    : jsstring + list jsstring :=
  match d !! path with
  | None => inr []
  | Some Dir => inl (lit "EISDIR: illegal operation on a directory, read")
  | Some (File text) =>
      match readFileSync env i path with
      | Some e => inl e
      | None => inr (extractDomains text)
      end
  end.

(** Line 119: [fs.writeFileSync(outJson, text, "utf8")], which throws on
    a directory. *)
Definition writeRecord (env : Env) (i : nat) (path text : jsstring) (d : Files)
    : jsstring + Files :=
  match d !! path with
  | Some Dir =>
      inl (lit "EISDIR: illegal operation on a directory, open '" ++ path ++ lit "'")
  | _ =>
      match writeFileSync env i path with
      | Some e => inl e
      | None => inr (<[path := File text]> d)
      end
  end.

(** One pass of the [for] loop (lines 39-122). *)
Definition job (env : Env) (outDir : jsstring) (i : nat) (pkg : jsstring)
    (st : Run) : Pass :=
  if bool_decide (is_Some (dir st !! outJson outDir pkg)) then Next st   (* SKIP existing *)
  else
    let r := docker env i pkg (dir st) in
    let d := written r (dir st) in
    let launched := spawned st ++ [pkg] in
    match readDomains env i (outTxt outDir pkg) d with
    | inl e => Uncaught e {| dir := d; spawned := launched |}
    | inr domains =>
        let record := {| pkg := pkg; domains := domains; timestamp := now env i |} in
        match writeRecord env i (outJson outDir pkg) (stringify env record) d with
        | inl e => Uncaught e {| dir := d; spawned := launched |}
        | inr d' => Next {| dir := d'; spawned := launched |}
        end
    end.

(** The [for] loop from index [i]. *)
Fixpoint loop (env : Env) (outDir : jsstring) (i : nat) (pkgs : list jsstring)
    (st : Run) : Pass :=
  match pkgs with
  | [] => Next st
  | pkg :: rest =>
      match job env outDir i pkg st with
      | Next st' => loop env outDir (S i) rest st'
      | Uncaught e st' => Uncaught e st'
      end
  end.

(** The script over the package list and the files it finds. *)
Definition scan (env : Env) (outDir : jsstring) (pkgs : list jsstring)
    (d : Files) : Pass :=
  loop env outDir 0 pkgs {| dir := d; spawned := [] |}.

End Sandbox.

(* ===================================================================== *)
(** ** Heuristic scanner (server.js, [isObfuscated]) *)
(* ===================================================================== *)

Module Scanner.
Import JS.

(** [code.length / lines.length] as an exact rational.  The double
    quotient compares with 200 as the exact one does while the line count
    stays below 2^46, far above any string a JavaScript engine holds. *)
Definition average (code : jsstring) : Q :=
  (inject_Z (Z.of_nat (length code))
   / inject_Z (Z.of_nat (length (split LF code))))%Q.

Definition isObfuscated (code : jsstring) : bool :=
  let lines := split LF code in
  if (length lines =? 1)%nat && (1000 <? length code)%nat then true
  else
    let avgLineLength := average code in
    if negb (Qle_bool avgLineLength 200) then true
    else false.

End Scanner.

(* ===================================================================== *)
(** ** Reputation lookup and risk score (server.js) *)
(* ===================================================================== *)

Module Server.
Import JS.

Section Reputation.
(** [response.data], passed on as it is. *)
Context {Data : Type}.

(** [{ domain, reputation }] and [{ domain, error }]. *)
Inductive Entry :=
| Verdict (domain : jsstring) (reputation : Data)
| Failed (domain error : jsstring).

(** What a query does before it answers. *)
Inductive Event :=
| Delay (ms : Z)
| Get (url : jsstring).

(** A settled promise as [Promise.allSettled] reports it; of a rejection
    the handler reads [reason?.domain] and [reason?.message]. *)
Inductive Outcome :=
| fulfilled (value : Entry)
| rejected (domain message : option jsstring).

(** [queryVirusTotal]: the one-second wait, the request, and the [catch]
    that turns a failed request into an entry; the promise fulfils either
    way. *)
Definition queryVirusTotal (axios_get : jsstring → jsstring + Data)
    (domain : jsstring) : Outcome * list Event :=
  let url := lit "https://www.virustotal.com/api/v3/domains/" ++ domain in
  match axios_get url with
  | inr data => (fulfilled (Verdict domain data), [Delay 1000; Get url])
  | inl message => (fulfilled (Failed domain message), [Delay 1000; Get url])
  end.

Definition maxQueries : Z := 5.

(** Lines 165-169: the distinct non-blank trimmed lines of tshark's
    output. *)
Definition capturedDomains (stdout : jsstring) : list jsstring :=
  dedup [] (filter (λ d, truthy d) (trim <$> split LF stdout)).

(** Lines 209-216. *)
Definition finalResult (result : Outcome) : Entry :=
  match result with
  | fulfilled value => value
  | rejected domain message =>
      Failed (default (lit "unknown") domain)
             (default (lit "Unknown error") message)
  end.

(** Lines 180-218 of [/scan/c2], for a non-empty domain list: the
    entries sent back, and what each query did. *)
Definition enrich (axios_get : jsstring → jsstring + Data)
    (domains : list jsstring) : list Entry * list (list Event) :=
  let selectedDomains := slice0 domains maxQueries in
  let settled := queryVirusTotal axios_get <$> selectedDomains in
  let results := fst <$> settled in
  (finalResult <$> results, snd <$> settled).

End Reputation.

(** The audit report as far as [/scan/score] reads it:
    [Object.values(metadata.vulnerabilities)] when both links are there,
    and the severities of [advisories] when it is. *)
Record Audit := {
  vulnerabilities : option (list Z);
  advisories : option (list jsstring)
}.

Record ScoreResult := {
  vulnerabilityCount : Z;
  c2Count : Z;
  githubHighRiskCount : Z;
  riskScore : Z
}.

(** Line 266: numbers that hold integers below 2^53 add and multiply
    exactly. *)
Definition computeRiskScore (vulnerabilityCount c2Count githubHighRiskCount : Z)
    : Z :=
  vulnerabilityCount + c2Count * 2 + githubHighRiskCount * 3.

(** Lines 235-273 of [/scan/score]. *)
Definition scanScore (auditResults : Audit) (tsharkStdout : jsstring)
    : ScoreResult :=
  let vulnerabilityCount :=
    match vulnerabilities auditResults with
    | Some counts => foldl (λ sum count, sum + count) 0 counts
    | None => 0
    end in
  let githubHighRiskCount :=
    match advisories auditResults with
    | Some advs =>
        foldl (λ n severity,
                 if bool_decide (severity = lit "high")
                    || bool_decide (severity = lit "critical")
                 then n + 1 else n) 0 advs
    | None => 0
    end in
  let domains :=
    dedup [] (filter (λ line, trim line ≠ []) (split LF tsharkStdout)) in
  let c2Count := Z.of_nat (length domains) in
  {| vulnerabilityCount := vulnerabilityCount;
     c2Count := c2Count;
     githubHighRiskCount := githubHighRiskCount;
     riskScore := computeRiskScore vulnerabilityCount c2Count githubHighRiskCount |}.

End Server.

(* ===================================================================== *)
(** ** Notions the statements use *)
(* ===================================================================== *)

(** A string of white space only. *)
Definition blank (s : JS.jsstring) : Prop := Forall (λ c, JS.is_ws c = true) s.

(** The lines of a text: one more than its line feeds. *)
Definition lineCount (code : JS.jsstring) : nat :=
  S (length (filter (λ c, c = JS.LF) code)).

(** The path of a package's result artifact. *)
Definition artifact (outDir pkg : JS.jsstring) : JS.jsstring :=
  Sandbox.outJson outDir pkg.

(** The containers an environment starts for the packages of a list
    leave the file at [k] as they find it. *)
Definition spares (env : Sandbox.Env) (pkgs : list JS.jsstring)
    (k : JS.jsstring) : Prop :=
  ∀ i Q d files, Q ∈ pkgs → Sandbox.docker env i Q d = Sandbox.Exited files →
                 files !! k = d !! k.

(** The containers an environment starts for the packages of a list
    remove no artifact of a package of the list. *)
Definition keeps_artifacts (env : Sandbox.Env) (outDir : JS.jsstring)
    (pkgs : list JS.jsstring) : Prop :=
  ∀ i Q d files P, Q ∈ pkgs → P ∈ pkgs →
    Sandbox.docker env i Q d = Sandbox.Exited files →
    is_Some (d !! artifact outDir P) → is_Some (files !! artifact outDir P).

(** The sandbox script can read the capture it finds at [path] in pass
    [i], if any: no directory stands there and the host does not
    refuse. *)
Definition can_read (env : Sandbox.Env) (i : nat) (path : JS.jsstring)
    (d : gmap JS.jsstring Sandbox.Node) : Prop :=
  d !! path ≠ Some Sandbox.Dir
  ∧ (is_Some (d !! path) → Sandbox.readFileSync env i path = None).

(** The sandbox script can write the file at [path] in pass [i]. *)
Definition can_write (env : Sandbox.Env) (i : nat) (path : JS.jsstring)
    (d : gmap JS.jsstring Sandbox.Node) : Prop :=
  d !! path ≠ Some Sandbox.Dir ∧ Sandbox.writeFileSync env i path = None.

(** An entry of the registry's time map is eligible with time value [tv]:
    it is a version, its date is valid and not after the cutoff. *)
Definition eligible (env : Fetch.Env) (cfg : Fetch.Config)
    (e : JS.jsstring * JS.jsstring) (tv : Z) : Prop :=
  e.1 ≠ JS.lit "created" ∧ e.1 ≠ JS.lit "modified"
  ∧ Fetch.newDate env e.2 = Some tv
  ∧ ∃ c, Fetch.cutoffDate cfg = Some c ∧ tv ≤ c.

(** An entry with a time value. *)
Definition dated (e : Fetch.VersionEntry) : Prop := is_Some (Fetch.time e).

(** [a] is not later than [b]. *)
Definition not_later (a b : Fetch.VersionEntry) : Prop :=
  ∃ x y, Fetch.time a = Some x ∧ Fetch.time b = Some y ∧ x ≤ y.

(** The last element is not earlier than any. *)
Definition last_is_latest (l : list Fetch.VersionEntry) : Prop :=
  ∀ m, last l = Some m → Forall (λ e, not_later e m) l.

(** The package's directory under the output directory holds something. *)
Definition populated (cfg : Fetch.Config) (pkg : JS.jsstring)
    (d : gmap JS.jsstring Fetch.Node) : Prop :=
  ∃ p n, d !! p = Some n
         ∧ (JS.path_join (Fetch.outDir cfg) (Fetch.safeName pkg) ++ JS.lit "/")
             `prefix_of` p.

(** The attempt ended with the archive on the disk. *)
Definition finished (d : Fetch.Download) : bool :=
  match d with Fetch.DlFinished _ => true | _ => false end.

(** What the download loop adds to the log when it ends with its [k]th
    attempt: the attempts, with the waits of one and of two seconds
    between them. *)
Definition tries (url dest : JS.jsstring) (k : nat) : list Fetch.Action :=
  take (2 * k - 1)
    [Fetch.ADownload url dest; Fetch.ASleep 1000; Fetch.ADownload url dest;
     Fetch.ASleep 2000; Fetch.ADownload url dest].

(** Downloads and extractions. *)
Definition refetches (a : Fetch.Action) : bool :=
  match a with
  | Fetch.ADownload _ _ | Fetch.ATar _ _ => true
  | _ => false
  end.

(** The actions a run adds to the log. *)
Definition added (w w' : Fetch.World) : list Fetch.Action :=
  drop (length (Fetch.log w)) (Fetch.log w').

(** A ledger file can be written on a disk: no directory stands at
    its path and the write does not fail otherwise. *)
Definition writable (env : Fetch.Env) (path : JS.jsstring)
    (d : gmap JS.jsstring Fetch.Node) : Prop :=
  d !! path ≠ Some Fetch.Dir ∧ Fetch.writeFile env path = None.

(** The numbers of entries in the two ledgers of a run that ended with
    them. *)
Definition tally (o : option Fetch.Outcome) : option (nat * nat) :=
  match o with
  | Some (Fetch.Done l _) =>
      Some (length (Fetch.success l), length (Fetch.failed l))
  | _ => None
  end.

(** The message of the rejection a run ended with. *)
Definition thrown (o : option Fetch.Outcome) : option JS.jsstring :=
  match o with
  | Some (Fetch.Threw message _) => Some message
  | _ => None
  end.

(** In every pass of the loop one promise settles. *)
Definition one_at_a_time (sched : list (nat * list nat)) : Prop :=
  Forall (λ s, s.2 = []) sched.

(** What holds of [runQueue]'s variables whenever the loop tests its
    condition. *)
Record queue_inv (items : list JS.jsstring) (q : Fetch.Queue) : Prop := {
  inv_idx : (Fetch.idx q ≤ length items)%nat;
  inv_busy : (Fetch.idx q < length items)%nat → Fetch.active q ≠ [];
  inv_count :
    (length (Fetch.results q) + length (Fetch.active q) = Fetch.idx q)%nat;
  inv_names :
    (Fetch.pkg_of <$> Fetch.results q) ++ (Fetch.job_item <$> Fetch.active q)
    ≡ₚ take (Fetch.idx q) items
}.

(* ===================================================================== *)
(** ** Fixtures *)
(* ===================================================================== *)

Module Demo.
Import JS.

(** Dates written as one decimal digit. *)
Definition digitDate (t : jsstring) : option Z :=
  match t with
  | [c] => if ((48 <=? c) && (c <=? 57))%N then Some (Z.of_N c - 48) else None
  | _ => None
  end.

(** Three versions published at times 1 < 2 < 3, listed out of order. *)
Definition timeMap : list (jsstring * jsstring) :=
  [(lit "created", lit "0"); (lit "2.0.0", lit "3"); (lit "1.0.0", lit "1");
   (lit "1.1.0", lit "2"); (lit "modified", lit "9")].

(** A registry that serves the same three versions of every package; the
    archive of version [v] of the package at [url] is at [url/v]. *)
Definition metaAt (url : jsstring) : Fetch.Meta :=
  {| Fetch.meta_time := timeMap;
     Fetch.meta_tarball :=
       list_to_map ((λ e, (e.1, url ++ lit "/" ++ e.1)) <$> timeMap) |}.

Definition registry (url : jsstring) : jsstring + Fetch.Meta := inr (metaAt url).

(** Archives download at once, but those of the packages [p3] and [p7],
    which fail at every attempt. *)
Definition flaky (url : jsstring) (attempt : nat) : Fetch.Download :=
  if bool_decide (url = lit "https://registry.npmjs.org/p3/1.1.0")
     || bool_decide (url = lit "https://registry.npmjs.org/p7/1.1.0")
  then Fetch.DlError (lit "ECONNRESET")
  else Fetch.DlFinished (lit "tgz").

Definition env : Fetch.Env :=
  {| Fetch.encodeURIComponent := λ s, s;
     Fetch.newDate := digitDate;
     Fetch.fetchJSON := registry;
     Fetch.mkdir := λ _, None;
     Fetch.download := flaky;
     Fetch.tar := λ _ pkgOutBase d,
       (None, <[path_join pkgOutBase (lit "package/index.js") := Fetch.File (lit "x")]> d);
     Fetch.writeFile := λ _, None |}.

Definition cfg (cutoff : Z) (concurrency : Z) : Fetch.Config :=
  {| Fetch.outDir := lit "out";
     Fetch.cutoffDate := Some cutoff;
     Fetch.CONCURRENCY := concurrency |}.

Definition empty : Fetch.World := {| Fetch.disk := ∅; Fetch.log := [] |}.

Definition tenNames : list jsstring :=
  [lit "p0"; lit "p1"; lit "p2"; lit "p3"; lit "p4";
   lit "p5"; lit "p6"; lit "p7"; lit "p8"; lit "p9"].

(** The world after one run of [processPackage] on [p0]. *)
Definition afterFirstRun : Fetch.World :=
  (Fetch.processPackage env (cfg 2 5) (lit "p0") empty).2.

(** A sandbox whose Docker never starts. *)
Definition noDocker : Sandbox.Env :=
  {| Sandbox.docker := λ _ _ _, Sandbox.SpawnError (lit "spawn docker ENOENT");
     Sandbox.now := λ _, lit "2025-08-01T00:00:00.000Z";
     Sandbox.stringify := λ r, Sandbox.pkg r ++ lit ":" ++ join (lit ",") (Sandbox.domains r);
     Sandbox.readFileSync := λ _ _, None;
     Sandbox.writeFileSync := λ _ _, None |}.

Definition capture : jsstring :=
  lit "registry.npmjs.org" ++ [TAB; LF]
  ++ [TAB] ++ lit "registry.npmjs.org" ++ [LF]
  ++ lit "evil.example" ++ [TAB] ++ lit "cdn.example" ++ [CR; LF]
  ++ [TAB; LF].

(** What the container script (lines 55-75) leaves under [out], mounted
    at [/out], for a package whose installation writes nothing there.
    With a safe name free of spaces the four redirections reach their
    files.  With a space in it, bash ends the target of the first
    redirection (line 60) at the space: the file named by what precedes
    it is truncated, [date] fails on the rest, and [set -e] ends the
    script. *)
Definition container (pkg : jsstring) (d : gmap jsstring Sandbox.Node)
    : gmap jsstring Sandbox.Node :=
  let safe := Sandbox.safeName pkg in
  match split 32%N safe with
  | target :: _ :: _ => <[lit "out/" ++ target := Sandbox.File []]> d
  | _ =>
      <[lit "out/" ++ safe ++ lit ".txt" := Sandbox.File capture]>
        (<[lit "out/" ++ safe ++ lit ".end.txt" := Sandbox.File (lit "t1")]>
           (<[lit "out/" ++ safe ++ lit ".pcap" := Sandbox.File (lit "pcap")]>
              (<[lit "out/" ++ safe ++ lit ".start.txt" := Sandbox.File (lit "t0")]> d)))
  end.

Definition withDocker : Sandbox.Env :=
  {| Sandbox.docker := λ _ pkg d, Sandbox.Exited (container pkg d);
     Sandbox.now := Sandbox.now noDocker;
     Sandbox.stringify := Sandbox.stringify noDocker;
     Sandbox.readFileSync := λ _ _, None;
     Sandbox.writeFileSync := λ _ _, None |}.

(** A sandbox in which Docker starts for the package [wiper] only, whose
    installation removes what stands under [out], mounted at [/out], and
    ends the container. *)
Definition wiping : Sandbox.Env :=
  {| Sandbox.docker := λ _ pkg d,
       if bool_decide (pkg = lit "wiper")
       then Sandbox.Exited (filter (λ kv, ¬ lit "out/" `prefix_of` kv.1) d)
       else Sandbox.SpawnError (lit "spawn docker ENOENT");
     Sandbox.now := Sandbox.now noDocker;
     Sandbox.stringify := Sandbox.stringify noDocker;
     Sandbox.readFileSync := λ _ _, None;
     Sandbox.writeFileSync := λ _ _, None |}.

(** Files under [out]: the artifacts of [@scope/done] and [left-pad]. *)
Definition resumed : gmap jsstring Sandbox.Node :=
  {[ lit "out/@scope+done.json" := Sandbox.File (lit "earlier");
     lit "out/left-pad.json" := Sandbox.File (lit "earlier") ]}.

(** A capture of [left-pad] left behind by a run that was stopped before
    it wrote the artifact. *)
Definition stale : gmap jsstring Sandbox.Node :=
  {[ lit "out/left-pad.txt" := Sandbox.File capture ]}.

(** A directory where the capture of [left-pad] is looked for. *)
Definition blocked : gmap jsstring Sandbox.Node :=
  {[ lit "out/left-pad.txt" := Sandbox.Dir ]}.

(** An invalid cutoff date, as [new Date("soon")] is. *)
Definition noCutoff : Fetch.Config :=
  {| Fetch.outDir := lit "out";
     Fetch.cutoffDate := None;
     Fetch.CONCURRENCY := 5 |}.

End Demo.

(* ===================================================================== *)
(** ** The scripts around the pipeline *)
(* ===================================================================== *)

(** The list of names the downloader, the sampler and the cutoff filter
    read from their input file (download-packages.js 30-34,
    sample_packages.js 26-30, filter_before_cutoff.js 17-21):
    [split("\n").map(trim).filter(Boolean)]. *)
Module Inputs.
Import JS.

Definition lines (text : jsstring) : list jsstring :=
  filter (λ l, truthy l) (trim <$> split LF text).

(** [s.endsWith(suffix)] *)
Definition endsWith (s suffix : jsstring) : bool :=
  bool_decide (suffix `suffix_of` s).

End Inputs.

(** filter_before_cutoff.js: keep the packages created by the cutoff. *)
Module FilterCutoff.
Import JS.

(** [meta.time?.created] when it is truthy. *)
Definition created (meta : Fetch.Meta) : option jsstring :=
  match list_find (λ e, e.1 = lit "created") (Fetch.meta_time meta) with
  | Some (_, (_, t)) => if truthy t then Some t else None
  | None => None
  end.

(** [created && created <= cutoff], [created] being a [Date] or [null]. *)
Definition before (env : Fetch.Env) (cutoff : option Z) (meta : Fetch.Meta)
    : bool :=
  match created meta with
  | Some t => Fetch.date_le (Fetch.newDate env t) cutoff
  | None => false
  end.

(** Lines 33-47: the loop over the names, with the array [results]; a
    request that fails, or a document on which the property access
    throws, is warned about and skipped. *)
Fixpoint loop (env : Fetch.Env) (cutoff : option Z) (all : list jsstring)
    (results : list jsstring) : list jsstring :=
  match all with
  | [] => results
  | name :: rest =>
      match Fetch.fetchJSON env (Fetch.metaUrl env name) with
      | inr meta =>
          if before env cutoff meta
          then loop env cutoff rest (results ++ [name])
          else loop env cutoff rest results
      | inl _ => loop env cutoff rest results
      end
  end.

(** The script from the text of its input file to the text it writes;
    line 24 prints [cutoff.toISOString()], which throws on an invalid
    date, before any request is made. *)
Definition filterBeforeCutoff (env : Fetch.Env) (cutoff : option Z)
    (input : jsstring) : option jsstring :=
  match cutoff with
  | Some _ => Some (join [LF] (loop env cutoff (Inputs.lines input) []))
  | None => None
  end.

End FilterCutoff.

(** The summary of the sandbox results (the second script of
    download-packages.js, lines 245-282). *)
Module C2Summary.
Import JS.

(** [last_analysis_stats] as far as it is read. *)
Record Stats := { malicious : option Z; suspicious : option Z }.

(** [x || 0] on a number or [undefined]. *)
Definition orZero (x : option Z) : Z :=
  match x with Some v => v | None => 0 end.

(** A parsed result file: [data.domains] when it is an array, and for a
    domain [d] the object [vt[d]?.data?.attributes?.last_analysis_stats]
    when it is there. *)
Record Data := {
  domains : option (list jsstring);
  vt : gmap jsstring Stats
}.

Record Summary := { total : nat; withDns : nat; withFlagged : nat }.

(** Lines 265-274: [flaggedHere] after the loop over the domains. *)
Definition flaggedHere (data : Data) (domains : list jsstring) : nat :=
  foldl (λ n d,
           match vt data !! d with
           | Some stats =>
               let positives :=
                 orZero (malicious stats) + orZero (suspicious stats) in
               if 0 <? positives then S n else n
           | None => n
           end) 0%nat domains.

(** Lines 260-275: one pass of the loop over the files. *)
Definition count (s : Summary) (data : Data) : Summary :=
  let domains := default [] (domains data) in
  {| total := S (total s);
     withDns := if (0 <? length domains)%nat then S (withDns s) else withDns s;
     withFlagged := if (0 <? flaggedHere data domains)%nat
                    then S (withFlagged s) else withFlagged s |}.

(** The script over the directory listing, each file with what
    [JSON.parse] makes of it. *)
Definition summarize (dir : list (jsstring * Data)) : Summary :=
  let files := filter (λ f, Inputs.endsWith f.1 (lit ".json")) dir in
  foldl count {| total := 0; withDns := 0; withFlagged := 0 |} (snd <$> files).

End C2Summary.

(** summarize_results.js: the summary of the obfuscation scans. *)
Module ScanSummary.
Import JS.

(** An element of [data.results]: [r.error] and [r.obfuscated] as far
    as [r.error] being truthy and [r.obfuscated === true] read them. *)
Record Entry := { error : option jsstring; obfuscated : option bool }.

(** A parsed file: [data.results] when it is there. *)
Record Data := { results : option (list Entry) }.

Record Summary := { total : nat; ok : nat; errors : nat; flagged : nat }.

Definition hasError (r : Entry) : bool :=
  match error r with Some e => truthy e | None => false end.

Definition isFlagged (r : Entry) : bool :=
  match obfuscated r with Some true => true | _ => false end.

(** [a.some(f)] *)
Definition some {X} (f : X → bool) (a : list X) : bool := existsb f a.

(** Lines 11-22: one pass of the loop. *)
Definition count (s : Summary) (data : Data) : Summary :=
  match results data with
  | None | Some [] =>
      {| total := S (total s); ok := ok s; errors := S (errors s);
         flagged := flagged s |}
  | Some rs =>
      let hasErr := some hasError rs in
      let hasObf := some isFlagged rs in
      {| total := S (total s);
         ok := if negb hasErr then S (ok s) else ok s;
         errors := if hasErr then S (errors s) else errors s;
         flagged := if hasObf then S (flagged s) else flagged s |}
  end.

Definition summarize (dir : list (jsstring * Data)) : Summary :=
  let files := filter (λ f, Inputs.endsWith f.1 (lit ".json")) dir in
  foldl count {| total := 0; ok := 0; errors := 0; flagged := 0 |}
        (snd <$> files).

End ScanSummary.

(** The directory walk and the route [/scan/obfuscation] of the second
    server (lines 283-342). *)
Module Walker.
Import JS.

(** What [readdir(root, { withFileTypes: true })] lists: files,
    directories with their own listing ([None] when reading it throws),
    and entries that are neither. *)
#[warnings="-register-all"] Inductive Dirent :=
| DFile (name : jsstring)
| DDir (name : jsstring) (entries : option (list Dirent))
| DOther (name : jsstring).

(** [path.join(root, e.name)] for a listed name. *)
Definition full (root name : jsstring) : jsstring := root ++ lit "/" ++ name.

(** [collectJsFiles(root, maxFiles, maxDepth, curDepth, acc)], [here]
    being the directory at [root]: [readdir(root)] gives its listing, or
    throws ([None], a rejected promise).  The array [acc] is shared by all
    the calls: each returns it as it left it. *)
Fixpoint collectJsFiles (root : jsstring) (here : Dirent)
    (maxFiles maxDepth curDepth : nat) (acc : list jsstring)
    : option (list jsstring) :=
  if (maxDepth <? curDepth)%nat || (maxFiles <=? length acc)%nat then Some acc
  else
    match here with
    | DDir _ (Some es) =>
        (fix each (es : list Dirent) (acc : list jsstring) :=
           match es with
           | [] => Some acc
           | e :: es' =>
               if (maxFiles <=? length acc)%nat then Some acc       (* break *)
               else
                 match e with
                 | DDir name _ =>
                     if bool_decide (name = lit "node_modules") then each es' acc
                     else
                       match collectJsFiles (full root name) e
                               maxFiles maxDepth (S curDepth) acc with
                       | Some acc' => each es' acc'
                       | None => None
                       end
                 | DFile name =>
                     if Inputs.endsWith name (lit ".js")
                     then each es' (acc ++ [full root name])
                     else each es' acc
                 | DOther _ => each es' acc
                 end
           end) es acc
    | _ => None
    end.

(** The same tree without the directories named [node_modules], at any
    depth. *)
Fixpoint prune (d : Dirent) : Dirent :=
  match d with
  | DDir name (Some es) =>
      DDir name
        (Some ((fix go (es : list Dirent) : list Dirent :=
                  match es with
                  | [] => []
                  | e :: es' =>
                      match e with
                      | DDir n _ =>
                          if bool_decide (n = lit "node_modules") then go es'
                          else prune e :: go es'
                      | _ => e :: go es'
                      end
                  end) es))
  | _ => d
  end.

(** [{ file, obfuscated }] and [{ file, error }]. *)
Inductive Verdict :=
| Scanned (file : jsstring) (obfuscated : bool)
| Unread (file error : jsstring).

(** [path.relative(realRoot, file)] for a file collected under
    [realRoot]. *)
Definition relative (realRoot file : jsstring) : jsstring :=
  drop (length realRoot + 1) file.

Record Payload := {
  dir : jsstring;
  fileCount : nat;
  results : list Verdict
}.

(** Lines 319-335 of the route: the walk with its defaults (200 files,
    depth 4), then one verdict for each file; [None] is the 500
    answer. *)
Definition scanObfuscation (realRoot : jsstring) (here : Dirent)
    (readFile : jsstring → jsstring + jsstring) : option Payload :=
  match collectJsFiles realRoot here 200 4 0 [] with
  | None => None
  | Some jsFiles =>
      Some {| dir := realRoot;
              fileCount := length jsFiles;
              results :=
                (λ file,
                   match readFile file with
                   | inr code => Scanned (relative realRoot file)
                                   (Scanner.isObfuscated code)
                   | inl e => Unread (relative realRoot file) e
                   end) <$> jsFiles |}
  end.

End Walker.

(** The route [/scan/c2] (server.js 153-227). *)
Module C2Route.
Import JS Server.

Inductive Response {Data : Type} :=
| NoQueries (message : jsstring)
| Domains (finalResults : list (@Entry Data)).

(** From tshark's output to the answer and what the queries did. *)
Definition scanC2 {Data : Type} (axios_get : jsstring → jsstring + Data)
    (stdout : jsstring) : @Response Data * list (list Event) :=
  let domains := capturedDomains stdout in
  if (length domains =? 0)%nat
  then (NoQueries (lit "No DNS queries captured"), [])
  else let (finalResults, events) := enrich axios_get domains in
       (Domains finalResults, events).

End C2Route.

(** The downloads started and the waits made among some actions. *)
(** The collector of package names from the registry's search
    (fetch_npm_registry_multi.js). *)
Module Search.
Import JS.

Definition QUERY_LIST : list jsstring :=
  lit <$> ["react"; "core"; "lib"; "util"; "plugin"; "a"; "e"; "i"; "o"; "u";
           "s"; "t"; "r"; "n"; "api"; "node"; "js"; "1"; "2"; "3"; "4";
           "5"]%string.

Definition PAGES_PER_QUERY : nat := 8.
Definition PAGE_SIZE : nat := 150.
Definition RATE_LIMIT_SLEEP : Z := 4000.

(** What [fetchSearch] and the reading of [data.objects] end with: the
    array [data.objects || []], each item as its [item?.package?.name]
    when it is a string, or the message of what was thrown. *)
Inductive Answer :=
| Page (objs : list (option jsstring))
| Rejected (message : jsstring).

Inductive Event :=
| ERequest (q : jsstring) (from : nat)
| ESleep (ms : Z).

(** The set [collected] in insertion order, and what the script did. *)
Record State := { collected : list jsstring; log : list Event }.

(** The requests among the events, as query and offset. *)
Definition sent (l : list Event) : list (jsstring * nat) :=
  omap (λ e, match e with ERequest q from => Some (q, from) | _ => None end) l.

Definition requests (l : list Event) : nat := length (sent l).

(** [collected.add(name)] *)
Definition add (name : jsstring) (c : list jsstring) : list jsstring :=
  if decide (name ∈ c) then c else c ++ [name].

(** Lines 89-92 *)
Definition addAll (objs : list (option jsstring)) (c : list jsstring)
    : list jsstring :=
  foldl (λ c item,
           match item with
           | Some name => if truthy name then add name c else c
           | None => c
           end) c objs.

Section Run.
(** The registry's answer to a request, by the number of requests sent
    before it; the target, [None] when [parseInt] gave [NaN]. *)
Context (fetchSearch : nat → jsstring → nat → Answer) (target : option Z).

(** [collected.size >= target] *)
Definition reached (st : State) : bool :=
  match target with
  | Some t => t <=? Z.of_nat (length (collected st))
  | None => false
  end.

(** Lines 79-108: [while (!ok && tries < 3)], entered with [left] tries
    left. *)
Fixpoint tryPage (left : nat) (q : jsstring) (from : nat) (st : State)
    : State :=
  match left with
  | O => st
  | S left' =>
      let asked := log st ++ [ERequest q from] in
      match fetchSearch (requests (log st)) q from with
      | Page objs =>
          if (length objs =? 0)%nat
          then {| collected := collected st; log := asked |}
          else {| collected := addAll objs (collected st);
                  log := asked ++ [ESleep 300] |}
      | Rejected message =>
          if bool_decide (message = lit "RATE_LIMIT_1015")
          then tryPage left' q from
                 {| collected := collected st;
                    log := asked ++ [ESleep RATE_LIMIT_SLEEP] |}
          else tryPage left' q from
                 {| collected := collected st; log := asked ++ [ESleep 800] |}
      end
  end.

(** Lines 72-109: the pages [p], [p + 1], ... of a query, [count] of
    them. *)
Fixpoint pagesFrom (count p : nat) (q : jsstring) (st : State) : State :=
  match count with
  | O => st
  | S count' =>
      if reached st then st
      else pagesFrom count' (S p) q (tryPage 3 q (p * PAGE_SIZE) st)
  end.

(** Lines 70-111 *)
Fixpoint queries (qs : list jsstring) (st : State) : State :=
  match qs with
  | [] => st
  | q :: qs' =>
      let st' := pagesFrom PAGES_PER_QUERY 0 q st in
      if reached st' then st' else queries qs' st'
  end.

Definition run : State :=
  queries QUERY_LIST {| collected := []; log := [] |}.

(** [Array.from(collected).slice(0, target)]; [NaN] slices as 0. *)
Definition finalList : list jsstring :=
  slice0 (collected run) (default 0 target).

(** What is written to the output file. *)
Definition written : jsstring := join [LF] finalList.

End Run.

(** The requests of a run in which every page comes back empty. *)
Definition allPages : list Event :=
  q ← QUERY_LIST; (λ p, ERequest q (p * PAGE_SIZE)) <$> seq 0 PAGES_PER_QUERY.

End Search.

(** A package directory: two scripts, a text, a link, and a
    [node_modules] that cannot be read. *)
Module Tree.
Import JS Walker.

Definition package : Dirent :=
  DDir (lit "package")
    (Some [DFile (lit "index.js");
           DFile (lit "README.md");
           DDir (lit "node_modules") None;
           DDir (lit "lib") (Some [DFile (lit "util.js"); DOther (lit "link.js")])]).

(** Only [index.js] can be read. *)
Definition readFile (file : jsstring) : jsstring + jsstring :=
  if bool_decide (file = lit "/pkg/index.js") then inr (lit "module.exports = 1")
  else inl (lit "EACCES").

End Tree.

(** A registry that limits the rate of the first two requests, then
    answers every query with the same three items, and one that has
    nothing. *)
Module Registry.
Import JS Search.

Definition limited (n : nat) (q : jsstring) (from : nat) : Answer :=
  if (n <? 2)%nat then Rejected (lit "RATE_LIMIT_1015")
  else if (from =? 0)%nat
       then Page [Some (lit "left-pad"); None; Some (lit "react"); Some (lit "left-pad")]
       else Page [].

Definition nothing (n : nat) (q : jsstring) (from : nat) : Answer := Page [].

End Registry.

Definition downloads (l : list Fetch.Action) : list (JS.jsstring * JS.jsstring) :=
  omap (λ a, match a with Fetch.ADownload u d => Some (u, d) | _ => None end) l.

Definition waits (l : list Fetch.Action) : list Z :=
  omap (λ a, match a with Fetch.ASleep ms => Some ms | _ => None end) l.

(** With one promise in flight the results come in the order of the
    items. *)
Definition in_order (items : list JS.jsstring) (q : Fetch.Queue) : Prop :=
  (Fetch.idx q ≤ length items)%nat
  ∧ (length (Fetch.active q) ≤ 1)%nat
  ∧ ((Fetch.idx q < length items)%nat → Fetch.active q ≠ [])
  ∧ (Fetch.pkg_of <$> Fetch.results q) ++ (Fetch.job_item <$> Fetch.active q)
    = take (Fetch.idx q) items.

(** What a walk may have done to the list [acc] when it returns [r]:
    it has only added to it, not beyond [maxFiles] entries, and only
    paths under [root] that end in [.js]. *)
Definition collected (maxFiles : nat) (root : JS.jsstring)
    (acc r : list JS.jsstring) : Prop :=
  acc `prefix_of` r
  ∧ (length r ≤ maxFiles `max` length acc)%nat
  ∧ ∀ p, p ∈ r →
      p ∈ acc ∨ (JS.lit ".js" `suffix_of` p ∧ (root ++ JS.lit "/") `prefix_of` p).

(** The cutoff filter keeps a name: the registry answered for it and the
    creation date passed the test. *)
Definition kept (env : Fetch.Env) (cutoff : option Z) (name : JS.jsstring)
    : bool :=
  match Fetch.fetchJSON env (Fetch.metaUrl env name) with
  | inr meta => FilterCutoff.before env cutoff meta
  | inl _ => false
  end.

(** The collector's set holds no name twice, and every name in it was a
    non-empty item of some answer of the registry. *)
Definition answered (fetchSearch : nat → JS.jsstring → nat → Search.Answer)
    (c : list JS.jsstring) : Prop :=
  NoDup c
  ∧ ∀ name, name ∈ c →
      name ≠ [] ∧ ∃ n q from objs,
        fetchSearch n q from = Search.Page objs ∧ Some name ∈ objs.

(** What a part of the collector's run may have added to the log: at
    most [bound] requests, each allowed by [asks], and sleeps of 300, 800
    or 4000 ms. *)
Definition extends (bound : nat) (asks : JS.jsstring → nat → Prop)
    (before after : list Search.Event) : Prop :=
  ∃ ext, after = before ++ ext
    ∧ (Search.requests ext ≤ bound)%nat
    ∧ Forall (λ e, match e with
                   | Search.ERequest q from => asks q from
                   | Search.ESleep ms => ms ∈ [300; 800; 4000]
                   end) ext.

(* ===================================================================== *)
(** * Theorems *)
(* ===================================================================== *)

(* --------------------------------------------------------------------- *)
(** ** Sampler: the shuffle permutes *)
(* --------------------------------------------------------------------- *)

Section SamplerFacts.
Import JS.
Context {A : Type}.
Implicit Types (all : array A) (names : list A).

Lemma get_lookup all i v : all !! i = Some v → get all i = v.
Proof. unfold get. by intros ->. Qed.

Lemma swap_in_range all i j :
  (i < length all)%nat → (j < length all)%nat →
  Sampler.swap all i j ≡ₚ all ∧ length (Sampler.swap all i j) = length all.
Proof.
  intros Hi Hj.
  destruct (lookup_lt_is_Some_2 all i Hi) as [y Hy].
  destruct (lookup_lt_is_Some_2 all j Hj) as [x Hx].
  unfold Sampler.swap. rewrite (get_lookup _ _ _ Hx), (get_lookup _ _ _ Hy).
  unfold set. rewrite (decide_True (P := (i < length all)%nat)) by done.
  rewrite decide_True by (by rewrite length_insert).
  split; [by apply Permutation_insert_swap | by rewrite !length_insert].
Qed.

Lemma value_floor s i :
  Qfloor (Sampler.value s * inject_Z (Z.of_nat i + 1)) =
  (Sampler.ushr s 0 * (Z.of_nat i + 1)) / 4294967295.
Proof. reflexivity. Qed.

Lemma ushr0_range s : 0 ≤ Sampler.ushr s 0 < 2 ^ 32.
Proof.
  unfold Sampler.ushr, Sampler.toUint32. rewrite Z.shiftr_0_r.
  apply Z.mod_pos_bound. lia.
Qed.

(** The index drawn at counter [i] never exceeds [i + 1]. *)
Lemma pick_le s i : (Sampler.pick s i ≤ S i)%nat.
Proof.
  unfold Sampler.pick. rewrite value_floor.
  pose proof (ushr0_range s) as Hu.
  assert ((Sampler.ushr s 0 * (Z.of_nat i + 1)) / 4294967295 ≤ Z.of_nat i + 1).
  { apply Z.div_le_upper_bound; [lia|]. nia. }
  lia.
Qed.

(** It stays within [0 .. i] unless the state reads [0xffffffff]. *)
Lemma pick_lt s i : Sampler.ushr s 0 ≠ 4294967295 → (Sampler.pick s i ≤ i)%nat.
Proof.
  intros Hne. unfold Sampler.pick. rewrite value_floor.
  pose proof (ushr0_range s) as Hu.
  assert ((Sampler.ushr s 0 * (Z.of_nat i + 1)) / 4294967295 < Z.of_nat i + 1).
  { apply Z.div_lt_upper_bound; [lia|]. nia. }
  lia.
Qed.

Lemma loop_in_range i s all :
  (S i < length all)%nat → Sampler.loop i s all ≡ₚ all.
Proof.
  revert s all. induction i as [|i IH]; intros s all Hlen; [done|].
  cbn [Sampler.loop].
  pose proof (pick_le (Sampler.step s) (S i)) as Hj.
  destruct (swap_in_range all (S i) (Sampler.pick (Sampler.step s) (S i)))
    as [Hp Hl]; [lia..|].
  rewrite IH by lia. done.
Qed.

Lemma first_draw : Sampler.ushr (Sampler.step (Sampler.makeRNG Sampler.SEED)) 0 ≠ 4294967295.
Proof. vm_compute. discriminate. Qed.

Lemma shuffle_perm all : Sampler.shuffle all ≡ₚ all.
Proof.
  unfold Sampler.shuffle.
  destruct (length all - 1)%nat as [|i] eqn:Hn; [done|].
  cbn [Sampler.loop].
  pose proof (pick_lt _ (S i) first_draw) as Hj.
  destruct (swap_in_range all (S i)
    (Sampler.pick (Sampler.step (Sampler.makeRNG Sampler.SEED)) (S i)))
    as [Hp Hl]; [lia..|].
  destruct i as [|i]; [done|].
  rewrite loop_in_range by lia. done.
Qed.

Lemma slice0_all {B} (l : list B) k : Z.of_nat (length l) ≤ k → slice0 l k = l.
Proof.
  intros Hk. unfold slice0.
  destruct (k <? 0) eqn:E; [apply Z.ltb_lt in E; lia|].
  apply take_ge. lia.
Qed.

(** C8. With a sample size of at least the number of names, the sampler
    writes a permutation of the whole input: every name once for each
    time it was listed, none left out, no slot left [undefined]; and an
    empty input gives an empty output. *)
Theorem sample_full_permutation names (k : Z) :
  Z.of_nat (length names) ≤ k →
  Sampler.sample names k ≡ₚ Some <$> names
  ∧ length (Sampler.sample names k) = length names
  ∧ (NoDup names → NoDup (Sampler.sample names k))
  ∧ (∀ x, x ∈ names ↔ Some x ∈ Sampler.sample names k)
  ∧ (names = [] → Sampler.sample names k = []).
Proof.
  intros Hk.
  assert (Hp : Sampler.sample names k ≡ₚ Some <$> names).
  { unfold Sampler.sample. rewrite slice0_all; [apply shuffle_perm|].
    rewrite (Permutation_length (shuffle_perm _)), length_fmap. done. }
  split; [done|]. split; [by rewrite Hp, length_fmap|].
  split; [|split].
  - intros Hnd. rewrite Hp. apply NoDup_fmap_2; [|done]. intros ?? [=]. done.
  - intros x. rewrite Hp. rewrite list_elem_of_fmap. split.
    + eauto.
    + intros (y & [= ->] & ?). done.
  - intros ->. by apply Permutation_nil_r in Hp.
Qed.
End SamplerFacts.


(* --------------------------------------------------------------------- *)
(** ** Fetch pipeline: version selection *)
(* --------------------------------------------------------------------- *)

Section FetchSelection.
Import JS Fetch.

Lemma insert_perm {E} (cmp : E → E → Z) x l : insert cmp x l ≡ₚ x :: l.
Proof.
  induction l as [|y l IH]; cbn; [done|].
  destruct (cmp x y <=? 0); [done|]. rewrite IH. apply Permutation_swap.
Qed.

Lemma sort_perm {E} (cmp : E → E → Z) l : sort cmp l ≡ₚ l.
Proof.
  induction l as [|x l IH]; cbn; [done|].
  unfold sort in IH. rewrite insert_perm. by rewrite IH.
Qed.

Lemma not_later_refl e : dated e → not_later e e.
Proof. intros [x Hx]. exists x, x. repeat split; [done..|lia]. Qed.

Lemma not_later_trans a b c : not_later a b → not_later b c → not_later a c.
Proof.
  intros (x & y & Hx & Hy & ?) (y' & z & Hy' & Hz & ?).
  rewrite Hy in Hy'. injection Hy' as <-. exists x, z. repeat split; [done..|lia].
Qed.

Lemma byTime_le a b : dated a → dated b → (byTime a b <=? 0) = true → not_later a b.
Proof.
  intros [x Hx] [y Hy] H. unfold byTime in H. rewrite Hx, Hy in H.
  apply Z.leb_le in H. exists x, y. repeat split; [done..|lia].
Qed.

Lemma byTime_gt a b : dated a → dated b → (byTime a b <=? 0) = false → not_later b a.
Proof.
  intros [x Hx] [y Hy] H. unfold byTime in H. rewrite Hx, Hy in H.
  apply Z.leb_gt in H. exists y, x. repeat split; [done..|lia].
Qed.

Lemma insert_last_is_latest x l :
  dated x → Forall dated l → last_is_latest l →
  last_is_latest (insert byTime x l).
Proof.
  intros Hx. induction l as [|y l IH]; intros Hl Hmax m Hm; cbn in *.
  - injection Hm as <-. constructor; [by apply not_later_refl|done].
  - apply Forall_cons in Hl as [Hy Hl].
    destruct (byTime x y <=? 0) eqn:Hc.
    + change (last (y :: l) = Some m) in Hm.
      pose proof (Hmax m Hm) as Hall. constructor; [|done].
      apply Forall_cons in Hall as [Hym _].
      apply (not_later_trans _ y); [by apply byTime_le|done].
    + assert (Hne : insert byTime x l ≠ []) by (destruct l; cbn; [done|by case_match]).
      assert (Hm' : last (insert byTime x l) = Some m).
      { destruct (insert byTime x l); [done|exact Hm]. }
      assert (Hmax' : last_is_latest l).
      { intros m' Hm'0. destruct l as [|z l']; [done|].
        specialize (Hmax m' Hm'0). by apply Forall_cons in Hmax as [_ ?]. }
      pose proof (IH Hl Hmax' m Hm') as Hall.
      constructor; [|done].
      assert (Hxm : not_later x m).
      { rewrite insert_perm in Hall. by apply Forall_cons in Hall as [? _]. }
      apply (not_later_trans _ x); [by apply byTime_gt|done].
Qed.

Lemma sort_last_is_latest l : Forall dated l → last_is_latest (sort byTime l).
Proof.
  induction l as [|x l IH]; intros Hl.
  - intros m Hm. done.
  - apply Forall_cons in Hl as [Hx Hl]. cbn.
    apply insert_last_is_latest; [done| |by apply IH].
    unfold sort. rewrite (sort_perm byTime l). done.
Qed.

Lemma last_None_nil {X} (l : list X) : last l = None ↔ l = [].
Proof. split; [|by intros ->]. destruct l using rev_ind; [done|]. by rewrite last_snoc. Qed.

Lemma sort_nil {E} (cmp : E → E → Z) l : sort cmp l = [] ↔ l = [].
Proof.
  split; [|by intros ->]. intros H. apply Permutation_nil_r.
  rewrite <- H. symmetry. apply sort_perm.
Qed.

Lemma date_le_spec a b : date_le a b = true ↔ ∃ x y, a = Some x ∧ b = Some y ∧ x ≤ y.
Proof.
  unfold date_le. destruct a as [x|], b as [y|]; split;
    try (intros (? & ? & ? & ? & ?)); try done.
  - intros H. apply Z.leb_le in H. eauto.
  - simplify_eq. by apply Z.leb_le.
Qed.

Lemma elem_of_versionEntries env cfg timeMap (m : VersionEntry) :
  m ∈ versionEntries env cfg timeMap ↔
  ∃ e tv, e ∈ timeMap ∧ eligible env cfg e tv ∧ m = {| ver := e.1; time := Some tv |}.
Proof.
  unfold versionEntries, eligible. rewrite list_elem_of_filter, list_elem_of_fmap.
  setoid_rewrite list_elem_of_filter. split.
  - intros (Hle & e & -> & Hn & He). cbn in Hle.
    apply Is_true_true, date_le_spec in Hle as (x & c & Hx & Hc & ?).
    apply andb_True in Hn as [H1 H2].
    apply bool_decide_unpack in H1, H2.
    exists e, x. rewrite Hx. eauto 10.
  - intros (e & tv & He & (H1 & H2 & Ht & c & Hc & ?) & ->). split.
    + cbn [time]. apply Is_true_true, date_le_spec. eauto.
    + exists e. rewrite Ht. split; [done|]. split; [|done].
      apply andb_True. split; by apply bool_decide_pack.
Qed.

Lemma versionEntries_dated env cfg timeMap :
  Forall dated (versionEntries env cfg timeMap).
Proof.
  apply Forall_forall. intros m Hm.
  apply elem_of_versionEntries in Hm as (e & tv & _ & _ & ->). by exists tv.
Qed.

Lemma selectedOf_Some env cfg timeMap v :
  selectedOf (versionEntries env cfg timeMap) = Some v →
  ∃ t tv, (v, t) ∈ timeMap ∧ eligible env cfg (v, t) tv
    ∧ ∀ e' tv', e' ∈ timeMap → eligible env cfg e' tv' → tv' ≤ tv.
Proof.
  unfold selectedOf. intros Hsel.
  destruct (last (sort byTime (versionEntries env cfg timeMap))) as [m|] eqn:Hlast;
    [|done].
  injection Hsel as <-.
  pose proof (sort_last_is_latest _ (versionEntries_dated env cfg timeMap) m Hlast) as Hmax.
  rewrite (sort_perm byTime) in Hmax.
  assert (Hin : m ∈ versionEntries env cfg timeMap).
  { rewrite <- (sort_perm byTime). by apply last_Some_elem_of. }
  apply elem_of_versionEntries in Hin as ([v t] & tv & Hin & Hel & ->).
  exists t, tv. split; [done|]. split; [done|].
  intros e' tv' Hin' Hel'.
  assert (Hm' : {| ver := e'.1; time := Some tv' |} ∈ versionEntries env cfg timeMap).
  { apply elem_of_versionEntries. eauto. }
  rewrite Forall_forall in Hmax. specialize (Hmax _ Hm') as (x & y & Hx & Hy & ?).
  cbn in Hx, Hy. by simplify_eq.
Qed.

Lemma selectedOf_None env cfg timeMap :
  selectedOf (versionEntries env cfg timeMap) = None ↔
  ∀ e tv, e ∈ timeMap → ¬ eligible env cfg e tv.
Proof.
  unfold selectedOf. rewrite fmap_None, last_None_nil, sort_nil. split.
  - intros Hnil e tv Hin Hel.
    assert (Hm : {| ver := e.1; time := Some tv |} ∈ versionEntries env cfg timeMap).
    { apply elem_of_versionEntries. eauto. }
    rewrite Hnil in Hm. by apply elem_of_nil in Hm.
  - intros Hno. destruct (versionEntries env cfg timeMap) as [|m l] eqn:E; [done|].
    assert (Hm : m ∈ versionEntries env cfg timeMap) by (rewrite E; left).
    apply elem_of_versionEntries in Hm as (e & tv & Hin & Hel & _).
    by destruct (Hno e tv).
Qed.

(** What [processPackage] reports once the registry has answered. *)
Lemma processPackage_selection env cfg pkgName meta w :
  fetchJSON env (metaUrl env pkgName) = inr meta →
  match (processPackage env cfg pkgName w).1 with
  | Success p v _ =>
      p = pkgName ∧ selectedOf (versionEntries env cfg (meta_time meta)) = Some v
  | Failure p e =>
      p = pkgName
      ∧ (selectedOf (versionEntries env cfg (meta_time meta)) = None →
         e = lit "NO_VERSION_BEFORE_CUTOFF")
  end.
Proof.
  intros Hfetch. unfold processPackage, processBody, bind, emit, throw, ret.
  rewrite Hfetch.
  destruct (selectedOf (versionEntries env cfg (meta_time meta))) as [sel|] eqn:Hsel.
  - destruct (meta_tarball meta !! sel) as [url|]; [|done].
    destruct (negb (truthy url)); [done|].
    destruct (store env cfg pkgName sel url _) as [[?|?] ?]; done.
  - done.
Qed.

(** C4. The version selected is an entry of the time map other than
    [created] and [modified] whose date is valid and not after the
    cutoff, and no such entry has a later date: only time values are
    compared.  No version is selected exactly when no entry is eligible,
    and then the package is reported as failed with
    [NO_VERSION_BEFORE_CUTOFF]; a success reports the selected version. *)
Theorem selection_latest_not_after_cutoff env cfg pkgName (meta : Meta) (w : World) :
  let timeMap := meta_time meta in
  let entries := versionEntries env cfg timeMap in
  (∀ v, selectedOf entries = Some v →
     ∃ t tv, (v, t) ∈ timeMap ∧ eligible env cfg (v, t) tv
       ∧ ∀ e' tv', e' ∈ timeMap → eligible env cfg e' tv' → tv' ≤ tv)
  ∧ (selectedOf entries = None ↔ ∀ e tv, e ∈ timeMap → ¬ eligible env cfg e tv)
  ∧ (fetchJSON env (metaUrl env pkgName) = inr meta →
     match (processPackage env cfg pkgName w).1 with
     | Success p v _ => p = pkgName ∧ selectedOf entries = Some v
     | Failure p e =>
         p = pkgName
         ∧ (selectedOf entries = None → e = lit "NO_VERSION_BEFORE_CUTOFF")
     end).
Proof.
  cbv zeta. split; [|split].
  - apply selectedOf_Some.
  - apply selectedOf_None.
  - apply processPackage_selection.
Qed.
End FetchSelection.


(* --------------------------------------------------------------------- *)
(** ** Fetch pipeline: what a run does again *)
(* --------------------------------------------------------------------- *)

Section FetchResume.
Import JS Fetch.

Lemma downloadFile_log env url dest attempt w :
  log (downloadFile env url dest attempt w).2 = log w ++ [ADownload url dest].
Proof.
  unfold downloadFile, bind, emit, write, throw.
  destruct (download env url attempt); done.
Qed.

Lemma downloadLoop_unfold env url dest n attempt w :
  downloadLoop env url dest (S n) attempt w =
  match downloadFile env url dest attempt w with
  | (inr _, w') => (inr tt, w')
  | (inl e, w') =>
      if (attempt <? MAX_DL_TRIES)%nat
      then downloadLoop env url dest n (S attempt)
             {| disk := disk w'; log := log w' ++ [ASleep (backoff attempt)] |}
      else (inl (lit "DOWNLOAD_FAILED: " ++ e), w')
  end.
Proof. reflexivity. Qed.

Lemma downloadLoop_extends env url dest n attempt w :
  ∃ post, log (downloadLoop env url dest n attempt w).2 = log w ++ post.
Proof.
  revert attempt w. induction n as [|n IH]; intros attempt w.
  - exists []. cbn. by rewrite app_nil_r.
  - rewrite downloadLoop_unfold.
    pose proof (downloadFile_log env url dest attempt w) as Hl.
    destruct (downloadFile env url dest attempt w) as [[e|u] w1]; cbn [snd] in *.
    + destruct (attempt <? MAX_DL_TRIES)%nat.
      * match goal with |- context [downloadLoop _ _ _ _ _ ?w2] =>
          destruct (IH (S attempt) w2) as [post Hp] end.
        cbn [log] in Hp. rewrite Hp, Hl, <- !app_assoc. eauto.
      * cbn [snd]. rewrite Hl. eauto.
    + rewrite Hl. eauto.
Qed.

Lemma downloadLoop_log env url dest n attempt w :
  ∃ post, log (downloadLoop env url dest (S n) attempt w).2
          = log w ++ ADownload url dest :: post.
Proof.
  rewrite downloadLoop_unfold.
  pose proof (downloadFile_log env url dest attempt w) as Hl.
  destruct (downloadFile env url dest attempt w) as [[e|u] w1]; cbn [snd] in *.
  - destruct (attempt <? MAX_DL_TRIES)%nat.
    + match goal with |- context [downloadLoop _ _ _ _ _ ?w2] =>
        destruct (downloadLoop_extends env url dest n (S attempt) w2) as [post Hp] end.
      cbn [log] in Hp. rewrite Hp, Hl, <- !app_assoc. eauto.
    + cbn [snd]. rewrite Hl. eauto.
  - rewrite Hl. eauto.
Qed.

Lemma extract_log env tgz dir w :
  log (extract env tgz dir w).2 = log w ++ [ATar tgz dir].
Proof.
  unfold extract, bind, emit. cbn.
  by destruct (tar env tgz dir (disk w)) as [[e|] d].
Qed.

Lemma added_log (w w' : World) (l : list Action) :
  log w' = log w ++ l → added w w' = l.
Proof. intros H. unfold added. by rewrite H, drop_app_length. Qed.

(** The download loop of lines 120-135 ends with its [k]th attempt, the
    first that finishes or else the third; what it does and how it ends
    do not depend on the disk. *)
Lemma downloadLoop_three env url dest :
  ∃ k, (1 ≤ k ≤ 3)%nat
    ∧ (∀ j, (1 ≤ j < k)%nat → finished (download env url j) = false)
    ∧ (finished (download env url k) = false → k = 3%nat)
    ∧ ∀ w, log (downloadLoop env url dest MAX_DL_TRIES 1 w).2
             = log w ++ tries url dest k
           ∧ ((downloadLoop env url dest MAX_DL_TRIES 1 w).1 = inr tt
              ↔ finished (download env url k) = true).
Proof.
  assert (Hfin : ∀ n a w, finished (download env url a) = true →
    ∃ w', downloadLoop env url dest (S n) a w = (inr tt, w')
          ∧ log w' = log w ++ [ADownload url dest]).
  { intros n a w F. rewrite downloadLoop_unfold.
    unfold downloadFile, bind, emit, write, throw.
    destruct (download env url a); [|done..]. eauto. }
  assert (Hretry : ∀ n a w, finished (download env url a) = false →
    (a <? MAX_DL_TRIES)%nat = true →
    ∃ w', downloadLoop env url dest (S n) a w = downloadLoop env url dest n (S a) w'
          ∧ log w' = log w ++ [ADownload url dest; ASleep (backoff a)]).
  { intros n a w F Ha. rewrite downloadLoop_unfold.
    unfold downloadFile, bind, emit, write, throw.
    destruct (download env url a); [done|..]; rewrite Ha; cbn [log disk];
      eexists; (split; [reflexivity|]); cbn [log]; by rewrite <- app_assoc. }
  assert (Hfail : ∀ n a w, finished (download env url a) = false →
    (a <? MAX_DL_TRIES)%nat = false →
    ∃ e w', downloadLoop env url dest (S n) a w = (inl e, w')
            ∧ log w' = log w ++ [ADownload url dest]).
  { intros n a w F Ha. rewrite downloadLoop_unfold.
    unfold downloadFile, bind, emit, write, throw.
    destruct (download env url a); [done|..]; rewrite Ha; cbn [log disk]; eauto. }
  unfold MAX_DL_TRIES in *.
  destruct (finished (download env url 1)) eqn:F1.
  { exists 1%nat. split; [lia|]. split; [intros j Hj; lia|]. split; [congruence|].
    intros w. destruct (Hfin 2%nat 1%nat w F1) as (w' & -> & Hl). rewrite F1.
    cbn [fst snd]. by rewrite Hl. }
  destruct (finished (download env url 2)) eqn:F2.
  { exists 2%nat. split; [lia|]. split.
    { intros j Hj. by replace j with 1%nat by lia. }
    split; [congruence|].
    intros w. destruct (Hretry 2%nat 1%nat w F1 eq_refl) as (w1 & -> & Hl1).
    destruct (Hfin 1%nat 2%nat w1 F2) as (w2 & -> & Hl2). rewrite F2.
    cbn [fst snd]. by rewrite Hl2, Hl1, <- app_assoc. }
  exists 3%nat. split; [lia|]. split.
  { intros j Hj. assert (j = 1 ∨ j = 2)%nat as [-> | ->] by lia; done. }
  split; [done|].
  intros w. destruct (Hretry 2%nat 1%nat w F1 eq_refl) as (w1 & -> & Hl1).
  destruct (Hretry 1%nat 2%nat w1 F2 eq_refl) as (w2 & -> & Hl2).
  destruct (finished (download env url 3)) eqn:F3.
  - destruct (Hfin 0%nat 3%nat w2 F3) as (w3 & -> & Hl3).
    cbn [fst snd]. by rewrite Hl3, Hl2, Hl1, <- !app_assoc.
  - destruct (Hfail 0%nat 3%nat w2 F3 eq_refl) as (e & w3 & -> & Hl3).
    cbn [fst snd]. rewrite Hl3, Hl2, Hl1, <- !app_assoc. done.
Qed.

Lemma tries_refetches (url dest : jsstring) (k : nat) :
  (1 ≤ k ≤ 3)%nat →
  filter (λ a, refetches a) (tries url dest k) = replicate k (ADownload url dest)
  ∧ ∃ post, tries url dest k = ADownload url dest :: post.
Proof.
  intros Hk. assert (k = 1 ∨ k = 2 ∨ k = 3)%nat as [-> | [-> | ->]] by lia;
    (split; [done|]); eexists; reflexivity.
Qed.

(** Lines 113-143: what [store] adds to the log when the directory could
    be made, whatever the disk holds. *)
Lemma store_log env cfg pkgName selected tarballUrl :
  mkdir env (path_join (outDir cfg) (safeName pkgName)) = None →
  let base := path_join (outDir cfg) (safeName pkgName) in
  let tgz := path_join base (safeName pkgName ++ lit "-" ++ selected ++ lit ".tgz") in
  ∃ k, (1 ≤ k ≤ 3)%nat
    ∧ (∀ j, (1 ≤ j < k)%nat → finished (download env tarballUrl j) = false)
    ∧ (finished (download env tarballUrl k) = false → k = 3%nat)
    ∧ ∀ w, log (store env cfg pkgName selected tarballUrl w).2 =
           log w ++ AMkdir base :: tries tarballUrl tgz k
                 ++ (if finished (download env tarballUrl k)
                     then [ATar tgz base] else []).
Proof.
  intros Hmk base tgz.
  destruct (downloadLoop_three env tarballUrl tgz) as (k & Hk & Hbefore & Hlast & Hloop).
  exists k. split; [done|]. split; [done|]. split; [done|].
  intros w. unfold store, bind. unfold emit at 1. rewrite Hmk. fold base. fold tgz.
  match goal with |- context [downloadLoop ?e ?u ?d _ _ ?w1] =>
    destruct (Hloop w1) as [Hlog Hres];
    destruct (downloadLoop e u d MAX_DL_TRIES 1 w1) as [[err|[]] w2] end;
    cbn [fst snd log] in *.
  - destruct (finished (download env tarballUrl k)).
    + pose proof (proj2 Hres eq_refl) as Hbad. discriminate Hbad.
    + rewrite Hlog, app_nil_r, <- app_assoc. done.
  - rewrite (proj1 Hres eq_refl).
    match goal with |- context [extract ?e ?t ?d ?w3] =>
      pose proof (extract_log e t d w3) as He;
      destruct (extract e t d w3) as [[err|[]] w4] end; cbn [snd] in *;
      unfold ret; cbn [snd]; rewrite He, Hlog, <- !app_assoc; done.
Qed.

End FetchResume.


(* --------------------------------------------------------------------- *)
(** ** Fetch pipeline: the queue *)
(* --------------------------------------------------------------------- *)

Section FetchQueue.
Import JS Fetch.

Variable items : list jsstring.
Variable worker : jsstring → World → Settled * World.
Hypothesis worker_names_item :
  ∀ item w r, (worker item w).1 = Fulfilled r → pkg_of r = item.

Lemma settle_names_item p w : pkg_of (settle worker p w).1 = job_item p.
Proof.
  unfold settle. pose proof (worker_names_item (job_item p) w) as H.
  destruct (worker (job_item p) w) as [[r|e] w']; cbn in *; [by apply H|done].
Qed.

Lemma remove_perm p l : p ∈ l → l ≡ₚ p :: remove p l.
Proof.
  induction l as [|x l IH]; intros Hin; [by apply elem_of_nil in Hin|].
  cbn. destruct (decide (x = p)) as [->|Hne]; [done|].
  apply elem_of_cons in Hin as [->|Hin]; [done|].
  rewrite (IH Hin) at 1. apply Permutation_swap.
Qed.

Lemma enqueueNext_inv q :
  (idx q ≤ length items)%nat →
  (length (results q) + length (active q) = idx q)%nat →
  (pkg_of <$> results q) ++ (job_item <$> active q) ≡ₚ take (idx q) items →
  (idx q < length items → 0 < idx q)%nat →
  queue_inv items (enqueueNext items q).
Proof.
  intros Hidx Hcount Hnames Hpos. unfold enqueueNext.
  destruct (items !! idx q) as [item|] eqn:Hitem.
  - pose proof (lookup_lt_Some _ _ _ Hitem) as Hlt.
    split; cbn.
    + lia.
    + intros _. by destruct (active q).
    + rewrite length_app. cbn. lia.
    + rewrite fmap_app, app_assoc, Hnames. cbn.
      by rewrite (take_S_r _ _ _ Hitem).
  - apply lookup_ge_None in Hitem. split; [done| |done|done].
    intros ?. lia.
Qed.

Lemma turn_inv choice q :
  queue_inv items q → active q ≠ [] →
  queue_inv items (turn items worker choice q)
  ∧ (length (results (turn items worker choice q)) = S (length (results q)))%nat.
Proof.
  intros [Hidx Hbusy Hcount Hnames] Hne. unfold turn.
  assert (Hlen : (0 < length (active q))%nat) by (destruct (active q); cbn; [done|lia]).
  destruct (lookup_lt_is_Some_2 (active q) (choice mod length (active q))%nat)
    as [p Hp]; [apply Nat.mod_upper_bound; lia|].
  rewrite Hp. pose proof (settle_names_item p (world q)) as Hr.
  destruct (settle worker p (world q)) as [r w'] eqn:Hs. cbn in Hr.
  assert (Hin : p ∈ active q) by (eapply list_elem_of_lookup_2; done).
  pose proof (remove_perm p _ Hin) as Hperm.
  assert (Hlen' : length (active q) = S (length (remove p (active q)))).
  { by rewrite (Permutation_length Hperm). }
  split.
  - apply enqueueNext_inv; cbn.
    + done.
    + rewrite length_app. cbn. lia.
    + rewrite <- Hnames, fmap_app. cbn. rewrite Hr, <- app_assoc. cbn.
      apply Permutation_app_head.
      change (job_item <$> p :: remove p (active q) ≡ₚ job_item <$> active q).
      by rewrite <- Hperm.
    + lia.
  - unfold enqueueNext. cbn. destruct (items !! idx q); cbn;
      rewrite length_app; cbn; lia.
Qed.

Lemma while_finishes fuel sched q :
  queue_inv items q →
  (length items - length (results q) < fuel)%nat →
  ∃ q', while fuel items worker sched q = Some q'
        ∧ queue_inv items q' ∧ active q' = [].
Proof.
  revert sched q. induction fuel as [|fuel IH]; intros sched q Hinv Hfuel; [lia|].
  cbn [while].
  destruct (decide (active q = [])) as [Hact|Hact].
  - exists q. rewrite Hact. cbn.
    destruct (bool_decide (idx q < length items)%nat); cbn; done.
  - assert (Hlen : (0 < length (active q))%nat).
    { destruct (active q); cbn; [done|lia]. }
    rewrite (bool_decide_true (0 < _)%nat) by done.
    rewrite orb_true_r, bool_decide_false by lia.
    destruct (turn_inv (hd 0%nat sched) q Hinv Hact) as [Hinv' Hres].
    apply IH; [done|].
    destruct Hinv as [Hidx _ Hcount _]. lia.
Qed.

Lemma kick_off k w :
  (k ≤ length items)%nat →
  ∃ q, Nat.iter k (enqueueNext items)
         {| idx := 0; active := []; results := []; world := w |} = q
  ∧ idx q = k ∧ length (active q) = k ∧ results q = []
  ∧ job_item <$> active q = take k items.
Proof.
  induction k as [|k IH]; intros Hk.
  - eexists. split; [reflexivity|]. done.
  - destruct IH as (q & Hq & Hi & Ha & Hr & Hn); [lia|].
    rewrite Nat.iter_succ, Hq. eexists. split; [reflexivity|].
    unfold enqueueNext.
    destruct (lookup_lt_is_Some_2 items k) as [item Hitem]; [lia|].
    rewrite Hi, Hitem. cbn. rewrite length_app, fmap_app, Ha, Hr, Hn. cbn.
    rewrite (take_S_r _ _ _ Hitem). repeat split; lia.
Qed.

Lemma runQueue_collects fuel concurrency sched w :
  1 ≤ concurrency → (length items < fuel)%nat →
  ∃ rs w', runQueue fuel items worker concurrency sched w = Some (rs, w')
           ∧ pkg_of <$> rs ≡ₚ items.
Proof.
  intros HC Hfuel. unfold runQueue.
  set (k := Z.to_nat (Z.min concurrency (Z.of_nat (length items)))).
  destruct (kick_off k w) as (q1 & -> & Hi & Ha & Hr & Hn); [lia|].
  assert (Hinv : queue_inv items q1).
  { split.
    - lia.
    - intros Hlt. assert (0 < k)%nat by lia. destruct (active q1); cbn in *; [lia|done].
    - rewrite Hr. cbn. lia.
    - rewrite Hr, Hn, Hi. done. }
  destruct (while_finishes fuel sched q1 Hinv) as (q2 & -> & Hinv2 & Hact2);
    [rewrite Hr; cbn; lia|].
  unfold drain. rewrite Hact2. cbn.
  eexists _, _. split; [done|].
  destruct Hinv2 as [Hidx Hbusy Hcount Hnames].
  rewrite Hact2 in *. cbn in *. rewrite app_nil_r in Hnames.
  assert (idx q2 = length items).
  { destruct (decide (idx q2 < length items)%nat) as [Hlt|]; [|lia].
    by destruct (Hbusy Hlt). }
  rewrite Hnames. by rewrite take_ge by lia.
Qed.
End FetchQueue.

Section FetchLedgers.
Import JS Fetch.

Lemma filter_split {X} (f : X → bool) (l : list X) :
  l ≡ₚ filter (λ x, f x) l ++ filter (λ x, negb (f x)) l.
Proof.
  induction l as [|x l IH]; [done|].
  rewrite !filter_cons. destruct (f x) eqn:E; cbn.
  - rewrite decide_True, decide_False by (rewrite ?E; cbn; tauto || done).
    cbn. by rewrite <- IH.
  - rewrite decide_False, decide_True by (rewrite ?E; cbn; tauto || done).
    rewrite <- Permutation_middle. by rewrite <- IH.
Qed.

Lemma pass_turn (items : list jsstring) (worker : jsstring → World → Settled * World)
    (choice : nat) (q : Queue) :
  pass items worker choice [] q = turn items worker choice q.
Proof.
  unfold pass, turn. destruct (active q !! _) as [p|]; [|done].
  by destruct (settle worker p (world q)).
Qed.

Lemma whileAny_while (fuel : nat) (items : list jsstring)
    (worker : jsstring → World → Settled * World)
    (sched : list (nat * list nat)) (q : Queue) :
  one_at_a_time sched →
  whileAny fuel items worker sched q = while fuel items worker (fst <$> sched) q.
Proof.
  revert sched q. induction fuel as [|fuel IH]; intros sched q Hone; [done|].
  cbn [whileAny while].
  destruct (bool_decide (idx q < length items)%nat
            || bool_decide (0 < length (active q))%nat); [|done].
  destruct (bool_decide (length (active q) = 0)%nat); [done|].
  destruct sched as [|[c o] sched].
  - cbn. rewrite pass_turn. by apply IH.
  - apply Forall_cons in Hone as [Ho Hone]. cbn in Ho. subst o. cbn.
    rewrite pass_turn. by apply IH.
Qed.

Lemma runQueueAny_runQueue (fuel : nat) (items : list jsstring)
    (worker : jsstring → World → Settled * World) (concurrency : Z)
    (sched : list (nat * list nat)) (w : World) :
  one_at_a_time sched →
  runQueueAny fuel items worker concurrency sched w
  = runQueue fuel items worker concurrency (fst <$> sched) w.
Proof. intros Hone. unfold runQueueAny, runQueue. by rewrite whileAny_while. Qed.

Lemma writeLedger_ok env (path content : jsstring) (w : World) :
  writable env path (disk w) →
  writeLedger env path content w
  = (inr tt, {| disk := <[path := File content]> (disk w); log := log w |}).
Proof.
  intros [Hdir Hfs]. unfold writeLedger. rewrite Hfs.
  by destruct (disk w !! path) as [[|bytes]|].
Qed.

End FetchLedgers.


(* --------------------------------------------------------------------- *)
(** ** Strings: trim and split *)
(* --------------------------------------------------------------------- *)

Section TrimFacts.
Import JS.

Lemma trimStart_nil s : trimStart s = [] ↔ blank s.
Proof.
  unfold blank. induction s as [|c s IH]; cbn; [by split|].
  destruct (is_ws c) eqn:E.
  - rewrite IH. split; [by constructor|by intros [_ ?]%Forall_cons].
  - split; [done|]. intros [? _]%Forall_cons. congruence.
Qed.

Lemma trimStart_head s c s' : trimStart s = c :: s' → is_ws c = false.
Proof.
  induction s as [|x s IH]; cbn; [done|].
  destruct (is_ws x) eqn:E; [done|]. by intros [= <- _].
Qed.

Lemma trim_nil s : trim s = [] ↔ blank s.
Proof.
  unfold trim, trimEnd. split.
  - intros H. apply (f_equal reverse) in H. rewrite reverse_involutive in H.
    cbn in H. apply trimStart_nil in H. unfold blank in H.
    rewrite Forall_reverse in H. apply trimStart_nil.
    destruct (trimStart s) as [|c s'] eqn:E; [done|].
    apply trimStart_head in E. apply Forall_cons in H as [? _]. congruence.
  - intros H. apply trimStart_nil in H. by rewrite H.
Qed.

Lemma truthy_spec s : truthy s = true ↔ s ≠ [].
Proof. by destruct s. Qed.

Lemma truthy_trim_false s : truthy (trim s) = false ↔ blank s.
Proof. rewrite <- trim_nil. by destruct (trim s). Qed.

End TrimFacts.

Section SplitFields.
Import JS.

Lemma split_no_sep sep s : sep ∉ s → split sep s = [s].
Proof.
  induction s as [|c s IH]; [done|]. intros Hn. cbn.
  apply not_elem_of_cons in Hn as [Hne Hn].
  destruct (N.eqb_spec c sep) as [->|_]; [done|]. by rewrite IH.
Qed.

Lemma split_app_sep sep a b :
  sep ∉ a → split sep (a ++ sep :: b) = a :: split sep b.
Proof.
  induction a as [|c a IH]; intros Hn.
  - cbn. by rewrite N.eqb_refl.
  - apply not_elem_of_cons in Hn as [Hne Hn]. cbn.
    destruct (N.eqb_spec c sep) as [->|_]; [done|]. by rewrite IH.
Qed.

Lemma split_pieces sep s p c : p ∈ split sep s → c ∈ p → c ∈ s.
Proof.
  revert p. induction s as [|x s IH]; intros p Hp Hc; cbn in Hp.
  - apply list_elem_of_singleton in Hp as ->. done.
  - destruct (x =? sep)%N.
    + apply elem_of_cons in Hp as [->|Hp]; [by apply elem_of_nil in Hc|].
      right. by apply (IH p).
    + destruct (split sep s) as [|q qs] eqn:E.
      * apply list_elem_of_singleton in Hp as ->.
        apply list_elem_of_singleton in Hc as ->. left.
      * apply elem_of_cons in Hp as [->|Hp].
        -- apply elem_of_cons in Hc as [->|Hc]; [left|].
           right. apply (IH q); [left|done].
        -- right. apply (IH p); [by right|done].
Qed.

End SplitFields.


(* --------------------------------------------------------------------- *)
(** ** Sandbox executor: domain extraction *)
(* --------------------------------------------------------------------- *)

Section DomainExtraction.
Import JS Sandbox.

(** The trimmed non-empty fields of a line. *)
Lemma parts_blank line :
  blank line → filter (λ x, truthy x) (trim <$> split TAB line) = [].
Proof.
  intros Hb.
  destruct (filter _ _) as [|x l] eqn:E; [done|].
  assert (Hx : x ∈ filter (λ x, truthy x) (trim <$> split TAB line))
    by (rewrite E; left).
  apply list_elem_of_filter in Hx as [Ht Hx].
  apply list_elem_of_fmap in Hx as (p & -> & Hp).
  assert (blank p) as Hbp.
  { apply Forall_forall. intros c Hc.
    unfold blank in Hb. rewrite Forall_forall in Hb.
    apply Hb. by apply (split_pieces TAB line p). }
  apply trim_nil in Hbp. by rewrite Hbp in Ht.
Qed.

Lemma nameOf_blank line : blank line → nameOf line = None.
Proof. intros Hb. unfold nameOf. by rewrite parts_blank. Qed.

Lemma nameOf_head line :
  nameOf line = head (filter (λ x, truthy x) (trim <$> split TAB line)).
Proof.
  unfold nameOf. destruct (filter _ _) as [|p0 ps] eqn:E; [done|]. cbn.
  assert (Hp0 : p0 ∈ filter (λ x, truthy x) (trim <$> split TAB line))
    by (rewrite E; left).
  apply list_elem_of_filter in Hp0 as [Ht _]. apply Is_true_true in Ht.
  by rewrite Ht.
Qed.

Lemma nameOf_Some line d : nameOf line = Some d → d ≠ [] ∧ ¬ blank line.
Proof.
  intros H. split.
  - rewrite nameOf_head in H. apply head_Some_elem_of in H.
    apply list_elem_of_filter in H as [Ht _]. by destruct d.
  - intros Hb. by rewrite nameOf_blank in H.
Qed.

Lemma nameOf_two_fields a b :
  TAB ∉ a → TAB ∉ b →
  nameOf (a ++ TAB :: b) =
  if truthy (trim a) then Some (trim a)
  else if truthy (trim b) then Some (trim b) else None.
Proof.
  intros Ha Hb. rewrite nameOf_head, split_app_sep, split_no_sep by done.
  change (trim <$> [a; b]) with [trim a; trim b].
  rewrite !filter_cons, filter_nil.
  destruct (truthy (trim a)) eqn:Ea, (truthy (trim b)) eqn:Eb; cbn; done.
Qed.

Lemma collect_spec (lines : list jsstring) (seen : gset jsstring) (doms : list jsstring) :
  NoDup doms → (∀ x, x ∈ seen ↔ x ∈ doms) →
  NoDup (collect lines seen doms)
  ∧ ∀ d, d ∈ collect lines seen doms ↔
         d ∈ doms ∨ ∃ line, line ∈ lines ∧ nameOf line = Some d.
Proof.
  revert seen doms. induction lines as [|line rest IH]; intros seen doms Hnd Hseen.
  - cbn. split; [done|]. intros d. split; [by left|].
    intros [?|(l & Hl & _)]; [done|]. by apply elem_of_nil in Hl.
  - cbn [collect].
    assert (Hskip : (∀ d, nameOf line = Some d → d ∈ doms) →
      NoDup (collect rest seen doms)
      ∧ ∀ d, d ∈ collect rest seen doms ↔
             d ∈ doms ∨ ∃ l, l ∈ line :: rest ∧ nameOf l = Some d).
    { intros Hold. destruct (IH seen doms Hnd Hseen) as [H1 H2]. split; [done|].
      intros d. rewrite H2. split.
      - intros [?|(l & Hl & Hn)]; [by left|]. right. exists l. split; [by right|done].
      - intros [?|(l & Hl & Hn)]; [by left|].
        apply elem_of_cons in Hl as [->|Hl]; [left; by apply Hold|].
        right. eauto. }
    destruct (truthy (trim line)) eqn:Et; cbn [negb].
    2: { apply Hskip. intros d Hd. apply truthy_trim_false in Et.
         by rewrite nameOf_blank in Hd. }
    destruct (nameOf line) as [name|] eqn:En; [|by apply Hskip].
    destruct (truthy name) eqn:Etn; cbn [andb].
    2: { apply nameOf_Some in En as [Hne _]. by destruct name. }
    destruct (bool_decide (name ∈ seen)) eqn:Es; cbn [negb].
    { apply bool_decide_eq_true in Es. apply Hskip.
      intros d [= <-]. by apply Hseen. }
    apply bool_decide_eq_false in Es.
    assert (Hfresh : name ∉ doms) by (by rewrite <- Hseen).
    destruct (IH ({[name]} ∪ seen) (doms ++ [name])) as [H1 H2].
    { apply NoDup_app. split; [done|]. split; [|apply NoDup_singleton].
      intros x Hx ->%list_elem_of_singleton. done. }
    { intros x. rewrite elem_of_union, elem_of_singleton, elem_of_app,
        list_elem_of_singleton, Hseen. tauto. }
    split; [done|]. intros d. rewrite H2, elem_of_app, list_elem_of_singleton.
    split.
    + intros [[?| ->]|(l & Hl & Hn)]; [by left| |].
      * right. exists line. split; [left|done].
      * right. exists l. split; [by right|done].
    + intros [?|(l & Hl & Hn)]; [by left; left|].
      apply elem_of_cons in Hl as [->|Hl].
      * left. right. congruence.
      * right. eauto.
Qed.

(** C5. The extracted list has no duplicate; a name is in it exactly
    when some line of the capture contributes it; a record with both a
    DNS query name and an SNI value contributes the DNS name; a blank line
    contributes nothing, and a blank field leaves the other one. *)
Theorem domains_distinct_dns_first :
  (∀ text, NoDup (extractDomains text))
  ∧ (∀ text d, d ∈ extractDomains text ↔
       ∃ line, line ∈ splitLines text ∧ nameOf line = Some d)
  ∧ (∀ dns sni, TAB ∉ dns → TAB ∉ sni → ¬ blank dns → ¬ blank sni →
       nameOf (dns ++ TAB :: sni) = Some (trim dns))
  ∧ (∀ line, blank line → nameOf line = None)
  ∧ (∀ dns sni, TAB ∉ dns → TAB ∉ sni → blank dns → ¬ blank sni →
       nameOf (dns ++ TAB :: sni) = Some (trim sni))
  ∧ (∀ dns sni, TAB ∉ dns → TAB ∉ sni → ¬ blank dns → blank sni →
       nameOf (dns ++ TAB :: sni) = Some (trim dns)).
Proof.
  assert (Hcol : ∀ text, NoDup (extractDomains text)
    ∧ ∀ d, d ∈ extractDomains text ↔
           d ∈ [] ∨ ∃ line, line ∈ splitLines text ∧ nameOf line = Some d).
  { intros text. apply collect_spec; [constructor|]. intros x.
    rewrite elem_of_empty, elem_of_nil. done. }
  assert (Hnb : ∀ s, ¬ blank s → truthy (trim s) = true).
  { intros s Hs. destruct (truthy (trim s)) eqn:E; [done|].
    by apply truthy_trim_false in E. }
  assert (Hb : ∀ s, blank s → truthy (trim s) = false).
  { intros s Hs. by apply truthy_trim_false. }
  repeat split.
  - apply Hcol.
  - intros Hd. apply Hcol in Hd as [Hd|Hd]; [by apply elem_of_nil in Hd|done].
  - intros Hd. apply Hcol. by right.
  - intros dns sni ? ? ? ?. rewrite nameOf_two_fields by done. by rewrite Hnb.
  - apply nameOf_blank.
  - intros dns sni ? ? ? ?. rewrite nameOf_two_fields by done.
    by rewrite Hb, Hnb.
  - intros dns sni ? ? ? ?. rewrite nameOf_two_fields by done. by rewrite Hnb.
Qed.
End DomainExtraction.


(* --------------------------------------------------------------------- *)
(** ** Heuristic scanner *)
(* --------------------------------------------------------------------- *)

Section SplitFacts.
Import JS.

Lemma split_nonempty sep s : split sep s ≠ [].
Proof. destruct s as [|c s]; cbn; [done|]. destruct (c =? sep)%N; [done|]. by destruct (split sep s). Qed.

Lemma split_length sep s :
  length (split sep s) = S (length (filter (λ c, c = sep) s)).
Proof.
  induction s as [|c s IH]; [done|]. cbn [split]. rewrite filter_cons.
  destruct (N.eqb_spec c sep) as [->|Hne].
  - rewrite decide_True by done. cbn. by rewrite IH.
  - rewrite decide_False by done.
    pose proof (split_nonempty sep s). destruct (split sep s); [done|]. exact IH.
Qed.

End SplitFacts.

Section ScannerFacts.
Import JS.

Lemma average_le code :
  (Scanner.average code <= 200)%Q ↔ (length code ≤ 200 * lineCount code)%nat.
Proof.
  unfold Scanner.average. rewrite split_length. fold (lineCount code).
  set (a := length code). set (b := lineCount code).
  assert (Hb : (0 < inject_Z (Z.of_nat b))%Q).
  { change 0%Q with (inject_Z 0). rewrite <- Zlt_Qlt. unfold b, lineCount. lia. }
  assert (H200 : (200 * inject_Z (Z.of_nat b) == inject_Z (Z.of_nat (200 * b)))%Q).
  { rewrite Nat2Z.inj_mul, inject_Z_mult. reflexivity. }
  split.
  - intros H.
    pose proof (Qmult_le_compat_r _ _ _ H (Qlt_le_weak _ _ Hb)) as H'.
    rewrite Qmult_comm, Qmult_div_r in H'
      by (intros E; rewrite E in Hb; by apply Qlt_irrefl in Hb).
    rewrite H200, <- Zle_Qle in H'. lia.
  - intros H. apply Qle_shift_div_r; [done|].
    rewrite H200, <- Zle_Qle. lia.
Qed.

Lemma isObfuscated_true code :
  Scanner.isObfuscated code = true ↔
  (lineCount code = 1%nat ∧ (1000 < length code)%nat)
  ∨ (200 * lineCount code < length code)%nat.
Proof.
  unfold Scanner.isObfuscated. rewrite split_length. fold (lineCount code).
  destruct (Nat.eqb_spec (lineCount code) 1) as [H1|H1];
    destruct (Nat.ltb_spec 1000 (length code)) as [H2|H2]; cbn [andb].
  1: { split; [tauto|done]. }
  all: destruct (Qle_bool (Scanner.average code) 200) eqn:E; cbn [negb];
    [apply Qle_bool_iff, average_le in E
    |assert (¬ (Scanner.average code <= 200)%Q) as E'
       by (rewrite <- Qle_bool_iff, E; done);
     rewrite average_le in E'];
    split; try done; try (intros [[? ?]|?]; lia); intros _; right; lia.
Qed.

(** C6. [isObfuscated] answers true exactly for a single line of more
    than 1000 characters or an average of more than 200 characters per
    line: 1200 characters on one line are flagged, 50 lines averaging 40
    are not, and an average of exactly 200 is not. *)
Theorem isObfuscated_long_lines :
  (∀ code, Scanner.isObfuscated code = true ↔
     (lineCount code = 1%nat ∧ (1000 < length code)%nat)
     ∨ (200 * lineCount code < length code)%nat)
  ∧ (∀ code, lineCount code = 1%nat → length code = 1200%nat →
       Scanner.isObfuscated code = true)
  ∧ (∀ code, lineCount code = 50%nat → (length code = 40 * 50)%nat →
       Scanner.isObfuscated code = false)
  ∧ (∀ code, (length code = 200 * lineCount code)%nat →
       Scanner.isObfuscated code = false).
Proof.
  split; [exact isObfuscated_true|]. split; [|split]; intros code.
  - intros H1 H2. apply isObfuscated_true. left. lia.
  - intros H1 H2. apply not_true_is_false. rewrite isObfuscated_true. lia.
  - intros H. apply not_true_is_false. rewrite isObfuscated_true. lia.
Qed.

Example isObfuscated_minified_line :
  Scanner.isObfuscated (replicate 1200 97%N) = true.
Proof. vm_compute. reflexivity. Qed.
End ScannerFacts.


(* --------------------------------------------------------------------- *)
(** ** Sandbox executor: skip and record *)
(* --------------------------------------------------------------------- *)

Section SandboxFacts.
Import JS Sandbox.

Lemma job_skip env outDir i pkg st :
  is_Some (dir st !! artifact outDir pkg) → job env outDir i pkg st = Next st.
Proof. intros H. unfold job. fold (artifact outDir pkg). by rewrite bool_decide_true. Qed.

Lemma job_run env outDir i pkg st :
  dir st !! artifact outDir pkg = None →
  job env outDir i pkg st =
  let d := written (docker env i pkg (dir st)) (dir st) in
  let launched := spawned st ++ [pkg] in
  match readDomains env i (outTxt outDir pkg) d with
  | inl e => Uncaught e {| dir := d; spawned := launched |}
  | inr domains =>
      match writeRecord env i (artifact outDir pkg)
              (stringify env
                 {| pkg := pkg; domains := domains; timestamp := now env i |}) d with
      | inl e => Uncaught e {| dir := d; spawned := launched |}
      | inr d' => Next {| dir := d'; spawned := launched |}
      end
  end.
Proof.
  intros H. unfold job. fold (artifact outDir pkg).
  rewrite bool_decide_false; [done|]. rewrite H. by intros [? ?].
Qed.

Lemma writeRecord_inr env i path text d d' :
  writeRecord env i path text d = inr d' →
  d' = <[path := File text]> d ∧ can_write env i path d.
Proof.
  unfold writeRecord, can_write. intros H.
  destruct (writeFileSync env i path) as [e|] eqn:Ew.
  - by destruct (d !! path) as [[|]|].
  - destruct (d !! path) as [[|]|] eqn:E; try done;
      by injection H as <-.
Qed.

Lemma writeRecord_ok env i path text d :
  can_write env i path d → writeRecord env i path text d = inr (<[path := File text]> d).
Proof.
  unfold writeRecord. intros [Hd ->]. by destruct (d !! path) as [[|]|].
Qed.

Lemma readDomains_ok env i path d :
  can_read env i path d →
  readDomains env i path d =
  inr match d !! path with Some (File text) => extractDomains text | _ => [] end.
Proof.
  unfold readDomains. intros [Hd Hr].
  destruct (d !! path) as [[text|]|]; [|done|done].
  by rewrite Hr.
Qed.

Lemma readDomains_inr env i path d doms :
  readDomains env i path d = inr doms → can_read env i path d.
Proof.
  unfold readDomains, can_read. intros H.
  destruct (d !! path) as [[text|]|]; [|done|].
  - split; [done|]. intros _. by destruct (readFileSync env i path).
  - split; [done|]. by intros [? ?].
Qed.

(** The files a job ends with, away from the artifact, are those the
    launch left. *)
Lemma job_dir env outDir i pkg st k :
  dir st !! artifact outDir pkg = None → k ≠ artifact outDir pkg →
  dir (state (job env outDir i pkg st)) !! k
  = written (docker env i pkg (dir st)) (dir st) !! k.
Proof.
  intros Hnone Hk. rewrite job_run by done. cbv zeta.
  destruct (readDomains _ _ _ _) as [e|doms]; [done|].
  destruct (writeRecord _ _ _ _ _) as [e|d'] eqn:Ew; [done|].
  apply writeRecord_inr in Ew as [-> _]. cbn. by rewrite lookup_insert_ne.
Qed.

(** A job leaves a file as it is when the container it may start
    does. *)
Lemma job_keeps env outDir i pkg st k c :
  (∀ files, docker env i pkg (dir st) = Exited files → files !! k = dir st !! k) →
  dir st !! k = Some c → dir (state (job env outDir i pkg st)) !! k = Some c.
Proof.
  intros Hspare Hc. destruct (dir st !! artifact outDir pkg) as [c'|] eqn:E.
  - by rewrite job_skip.
  - rewrite job_dir; [|done|congruence].
    destruct (docker env i pkg (dir st)) as [m|files] eqn:Ed; cbn; [done|].
    by rewrite (Hspare files).
Qed.

Lemma job_spawned env outDir i pkg st :
  spawned (state (job env outDir i pkg st)) =
  spawned st
  ++ (if bool_decide (is_Some (dir st !! artifact outDir pkg)) then [] else [pkg]).
Proof.
  case_bool_decide as H.
  - rewrite job_skip by done. cbn. by rewrite app_nil_r.
  - rewrite job_run by (by apply eq_None_not_Some). cbv zeta.
    destruct (readDomains _ _ _ _) as [e|doms]; [done|].
    by destruct (writeRecord _ _ _ _ _).
Qed.

Lemma job_writes env outDir i pkg st st' :
  job env outDir i pkg st = Next st' → is_Some (dir st' !! artifact outDir pkg).
Proof.
  destruct (dir st !! artifact outDir pkg) as [c'|] eqn:E.
  - rewrite job_skip by done. intros [= <-]. by rewrite E.
  - rewrite job_run by done. cbv zeta.
    destruct (readDomains _ _ _ _) as [e|doms]; [done|].
    destruct (writeRecord _ _ _ _ _) as [e|d'] eqn:Ew; [done|].
    apply writeRecord_inr in Ew as [-> _]. intros [= <-]. cbn.
    by rewrite lookup_insert_eq.
Qed.

(** An exception leaves the loop at once. *)
Lemma loop_cons env outDir i pkg rest st :
  loop env outDir i (pkg :: rest) st =
  match job env outDir i pkg st with
  | Next st' => loop env outDir (S i) rest st'
  | Uncaught e st' => Uncaught e st'
  end.
Proof. done. Qed.

Lemma spares_tail env pkg rest k : spares env (pkg :: rest) k → spares env rest k.
Proof. intros H i Q d files HQ. apply H. by right. Qed.

Lemma loop_keeps env outDir i pkgs st k c :
  spares env pkgs k →
  dir st !! k = Some c → dir (state (loop env outDir i pkgs st)) !! k = Some c.
Proof.
  revert i st. induction pkgs as [|pkg rest IH]; intros i st Hspare Hc; [done|].
  rewrite loop_cons.
  assert (Hj : dir (state (job env outDir i pkg st)) !! k = Some c).
  { apply job_keeps; [|done]. intros files Hd. eapply Hspare; [|exact Hd]. by left. }
  destruct (job env outDir i pkg st) as [st'|e st']; [|done].
  apply IH; [by eapply spares_tail|done].
Qed.

(** Docker is spawned only for packages whose artifact is missing. *)
Lemma loop_spawned env outDir i (pkgs : list jsstring) st (P : jsstring) (c : Node) :
  spares env pkgs (artifact outDir P) →
  dir st !! artifact outDir P = Some c →
  ∃ more, spawned (state (loop env outDir i pkgs st)) = spawned st ++ more ∧ P ∉ more.
Proof.
  revert i st. induction pkgs as [|pkg rest IH]; intros i st Hspare Hc.
  - exists []. split; [by rewrite app_nil_r|apply not_elem_of_nil].
  - rewrite loop_cons.
    assert (Hj : dir (state (job env outDir i pkg st)) !! artifact outDir P = Some c).
    { apply job_keeps; [|done]. intros files Hd. eapply Hspare; [|exact Hd]. by left. }
    pose proof (job_spawned env outDir i pkg st) as Hsp.
    assert (Hnew : P ∉ (if bool_decide (is_Some (dir st !! artifact outDir pkg))
                        then [] else [pkg])).
    { case_bool_decide as H; [apply not_elem_of_nil|].
      apply not_elem_of_cons. split; [|apply not_elem_of_nil]. intros ->.
      apply H. by rewrite Hc. }
    destruct (job env outDir i pkg st) as [st'|e st']; cbn in Hj, Hsp.
    + destruct (IH (S i) st') as (more & Hmore & Hnot); [by eapply spares_tail|done|].
      rewrite Hmore, Hsp, <- app_assoc. eexists. split; [done|].
      by apply not_elem_of_app.
    + cbn. rewrite Hsp. eexists. by split.
Qed.

(** The packages at the head of the list that have their artifacts are
    passed over. *)
Lemma loop_done_prefix env outDir i (pkgs rest : list jsstring) st :
  (∀ P, P ∈ pkgs → is_Some (dir st !! artifact outDir P)) →
  loop env outDir i (pkgs ++ rest) st = loop env outDir (i + length pkgs) rest st.
Proof.
  revert i. induction pkgs as [|pkg pkgs IH]; intros i Hall.
  - cbn. by rewrite Nat.add_0_r.
  - cbn [app]. rewrite loop_cons, job_skip by (apply Hall; left).
    rewrite IH by (intros P HP; apply Hall; by right). cbn [length]. f_equal. lia.
Qed.

Lemma loop_all_done env outDir i pkgs st :
  (∀ P, P ∈ pkgs → is_Some (dir st !! artifact outDir P)) →
  loop env outDir i pkgs st = Next st.
Proof.
  intros Hall. rewrite <- (app_nil_r pkgs). by rewrite loop_done_prefix.
Qed.

(** C1, as the code has it.  A package whose result artifact exists when
    the loop reaches it is skipped: Docker is not started and the job
    changes no file.  Packages at the head of the list that all have their
    artifacts are passed over, so that a run over a list whose artifacts
    all exist does nothing.  From a state in which the artifact exists,
    the rest of the run, however it ends, leaves it as it is and starts
    Docker for other packages only, when the containers it starts leave
    the artifact alone. *)
Theorem existing_artifact_is_skipped (env : Env) (outDir : jsstring) (i : nat)
    (pkgs : list jsstring) (st : Run) (P : jsstring) (c : Node) :
  dir st !! artifact outDir P = Some c →
  job env outDir i P st = Next st
  ∧ (∀ rest, (∀ Q, Q ∈ pkgs → is_Some (dir st !! artifact outDir Q)) →
       loop env outDir i (pkgs ++ rest) st
       = loop env outDir (i + length pkgs) rest st)
  ∧ ((∀ Q, Q ∈ pkgs → is_Some (dir st !! artifact outDir Q)) →
       loop env outDir i pkgs st = Next st)
  ∧ (spares env pkgs (artifact outDir P) →
       dir (state (loop env outDir i pkgs st)) !! artifact outDir P = Some c
       ∧ ∃ more, spawned (state (loop env outDir i pkgs st)) = spawned st ++ more
                 ∧ P ∉ more).
Proof.
  intros Hc. split; [|split; [|split]].
  - apply job_skip. by rewrite Hc.
  - intros rest Hall. by apply loop_done_prefix.
  - apply loop_all_done.
  - intros Hspare. split.
    + by apply loop_keeps.
    + by apply (loop_spawned env outDir i pkgs st P c).
Qed.

Lemma keeps_artifacts_job env outDir (all : list jsstring) i Q st P :
  keeps_artifacts env outDir all → Q ∈ all → P ∈ all →
  is_Some (dir st !! artifact outDir P) →
  is_Some (dir (state (job env outDir i Q st)) !! artifact outDir P).
Proof.
  intros Hkeep HQ HP Hsome.
  destruct (dir st !! artifact outDir Q) as [c'|] eqn:E.
  - by rewrite job_skip.
  - rewrite job_dir; [|done|].
    + destruct (docker env i Q (dir st)) as [m|files] eqn:Ed; cbn; [done|].
      exact (Hkeep i Q (dir st) files P HQ HP Ed Hsome).
    + intros Heq. rewrite Heq, E in Hsome. by destruct Hsome.
Qed.

Lemma keeps_artifacts_loop env outDir (all : list jsstring) :
  keeps_artifacts env outDir all →
  ∀ pkgs i st P, pkgs ⊆ all → P ∈ all →
    is_Some (dir st !! artifact outDir P) →
    is_Some (dir (state (loop env outDir i pkgs st)) !! artifact outDir P).
Proof.
  intros Hkeep pkgs. induction pkgs as [|pkg rest IH]; intros i st P Hsub HP Hsome; [done|].
  rewrite loop_cons.
  assert (Hj : is_Some (dir (state (job env outDir i pkg st)) !! artifact outDir P)).
  { apply (keeps_artifacts_job env outDir all); [done|apply Hsub; by left|done|done]. }
  destruct (job env outDir i pkg st) as [st'|e st']; [|done].
  apply IH; [intros x Hx; apply Hsub; by right|done|done].
Qed.

Lemma loop_writes env outDir (all : list jsstring) :
  keeps_artifacts env outDir all →
  ∀ pkgs i st st' P, pkgs ⊆ all → P ∈ pkgs →
    loop env outDir i pkgs st = Next st' →
    is_Some (dir st' !! artifact outDir P).
Proof.
  intros Hkeep pkgs. induction pkgs as [|pkg rest IH]; intros i st st' P Hsub Hin Hl.
  - by apply elem_of_nil in Hin.
  - rewrite loop_cons in Hl.
    destruct (job env outDir i pkg st) as [st1|e st1] eqn:Ej; [|done].
    apply elem_of_cons in Hin as [->|Hin].
    + pose proof (keeps_artifacts_loop env outDir all Hkeep rest (S i) st1 pkg) as H.
      rewrite Hl in H. apply H;
        [intros x Hx; apply Hsub; by right|apply Hsub; by left|].
      by eapply job_writes.
    + eapply IH; [intros x Hx; apply Hsub; by right|done|done].
Qed.

(** C10, as the code has it.  A job that is not skipped starts Docker
    once.  When the capture can then be read and the artifact written, it
    writes the result artifact, with the domains of the capture text it
    finds after the launch: none when there is no such file, and after a
    launch that failed those of the capture that was there before, the
    record saying nothing of the failure.  When the capture cannot be read
    or the artifact not written, the exception ends the script and no
    artifact is written.  A dispatch that follows a job that came to its
    end skips the package; and when the containers of a run remove no
    artifact of the list, as when none starts, a run that comes to its end
    leaves an artifact for every package of the list, and a second run
    over the list, whatever Docker would do, starts nothing and changes
    nothing. *)
Theorem artifact_written_whatever_happens :
  (∀ env outDir i pkg st,
     dir st !! artifact outDir pkg = None →
     ∃ doms,
       spawned (state (job env outDir i pkg st)) = spawned st ++ [pkg]
       ∧ (can_read env i (outTxt outDir pkg)
            (written (docker env i pkg (dir st)) (dir st)) →
          can_write env i (artifact outDir pkg)
            (written (docker env i pkg (dir st)) (dir st)) →
          job env outDir i pkg st =
            Next {| dir :=
                      <[artifact outDir pkg :=
                          File (stringify env
                                  {| pkg := pkg; domains := doms;
                                     timestamp := now env i |})]>
                        (written (docker env i pkg (dir st)) (dir st));
                    spawned := spawned st ++ [pkg] |})
       ∧ (∀ text, written (docker env i pkg (dir st)) (dir st) !! outTxt outDir pkg
                  = Some (File text) → doms = extractDomains text)
       ∧ (written (docker env i pkg (dir st)) (dir st) !! outTxt outDir pkg = None →
          doms = [])
       ∧ (∀ m, docker env i pkg (dir st) = SpawnError m →
            doms = match dir st !! outTxt outDir pkg with
                   | Some (File text) => extractDomains text
                   | _ => []
                   end)
       ∧ (¬ (can_read env i (outTxt outDir pkg)
               (written (docker env i pkg (dir st)) (dir st))
             ∧ can_write env i (artifact outDir pkg)
                 (written (docker env i pkg (dir st)) (dir st))) →
          ∃ e, job env outDir i pkg st =
               Uncaught e {| dir := written (docker env i pkg (dir st)) (dir st);
                             spawned := spawned st ++ [pkg] |}))
  ∧ (∀ (env env' : Env) outDir i j pkg st st',
       job env outDir i pkg st = Next st' →
       job env' outDir j pkg st' = Next st')
  ∧ (∀ (env : Env) outDir (pkgs : list jsstring) (d : gmap jsstring Node) st',
       keeps_artifacts env outDir pkgs →
       scan env outDir pkgs d = Next st' →
       (∀ P, P ∈ pkgs → is_Some (dir st' !! artifact outDir P))
       ∧ ∀ env' : Env,
           scan env' outDir pkgs (dir st') = Next {| dir := dir st'; spawned := [] |})
  ∧ (∀ (env : Env) outDir (pkgs : list jsstring),
       (∀ i Q d, ∃ m, docker env i Q d = SpawnError m) →
       keeps_artifacts env outDir pkgs).
Proof.
  split; [|split; [|split]].
  - intros env outDir i pkg st Hnone.
    set (d := written (docker env i pkg (dir st)) (dir st)).
    exists (match d !! outTxt outDir pkg with
            | Some (File text) => extractDomains text
            | _ => []
            end).
    split; [|split; [|split; [|split; [|split]]]].
    + rewrite job_spawned, bool_decide_false; [done|]. rewrite Hnone. by intros [? ?].
    + intros Hr Hw. rewrite job_run by done. cbv zeta. fold d.
      rewrite (readDomains_ok _ _ _ _ Hr). by rewrite (writeRecord_ok _ _ _ _ _ Hw).
    + by intros text ->.
    + by intros ->.
    + intros m Hm. subst d. by rewrite Hm.
    + intros Hnot. rewrite job_run by done. cbv zeta. fold d.
      destruct (readDomains env i (outTxt outDir pkg) d) as [e|doms] eqn:Er; [by eexists|].
      destruct (writeRecord _ _ _ _ _) as [e|d'] eqn:Ew; [by eexists|].
      destruct Hnot. split; [by eapply readDomains_inr|].
      by apply writeRecord_inr in Ew as [_ ?].
  - intros env env' outDir i j pkg st st' Hj. apply job_skip. by eapply job_writes.
  - intros env outDir pkgs d st' Hkeep Hscan.
    assert (Hall : ∀ P, P ∈ pkgs → is_Some (dir st' !! artifact outDir P)).
    { intros P HP. by eapply (loop_writes env outDir pkgs Hkeep pkgs). }
    split; [exact Hall|].
    intros env'. unfold scan. by apply loop_all_done.
  - intros env outDir pkgs Hfail i Q d files P _ _ Hd.
    destruct (Hfail i Q d) as [m Hm]. congruence.
Qed.
End SandboxFacts.


(* --------------------------------------------------------------------- *)
(** ** Server: reputation lookup and risk score *)
(* --------------------------------------------------------------------- *)

Section ServerFacts.
Import JS Server.

Lemma slice0_take {X} (l : list X) (k : Z) :
  0 ≤ k → slice0 l k = take (Z.to_nat k) l.
Proof.
  intros Hk. unfold slice0.
  destruct (k <? 0) eqn:E; [apply Z.ltb_lt in E; lia|].
  destruct (decide (k ≤ Z.of_nat (length l))) as [Hle|Hgt].
  - by rewrite Z.min_l.
  - rewrite Z.min_r, Nat2Z.id by lia. by rewrite !take_ge by lia.
Qed.

(** C9. The lookup answers with one entry for each of the first five
    domains, in their order: the verdict where the request succeeded, the
    domain with the error message where it failed, whatever happened to
    the other requests; each query waits a second and then sends its one
    request. *)
Theorem one_entry_per_queried_domain {Data : Type}
    (axios_get : jsstring → jsstring + Data) (domains : list jsstring) :
  let url d := lit "https://www.virustotal.com/api/v3/domains/" ++ d in
  let answer d :=
    match axios_get (url d) with
    | inr data => Verdict d data
    | inl message => Failed d message
    end in
  (enrich axios_get domains).1 = answer <$> take 5 domains
  ∧ (enrich axios_get domains).2 = (λ d, [Delay 1000; Get (url d)]) <$> take 5 domains
  ∧ length (enrich axios_get domains).1 = (5 `min` length domains)%nat
  ∧ ((length domains ≤ 5)%nat →
     length (enrich axios_get domains).1 = length domains).
Proof.
  intros url answer. unfold enrich. cbn [fst snd].
  rewrite slice0_take by (unfold maxQueries; lia).
  change (Z.to_nat maxQueries) with 5%nat.
  assert (H1 : finalResult <$> (fst <$> (queryVirusTotal axios_get <$> take 5 domains))
               = answer <$> take 5 domains).
  { rewrite <- !list_fmap_compose. apply list_fmap_ext. intros _ d _.
    unfold compose, queryVirusTotal, answer, url.
    by destruct (axios_get _). }
  rewrite H1. split; [done|]. split; [|split].
  - rewrite <- !list_fmap_compose. apply list_fmap_ext. intros _ d _.
    unfold compose, queryVirusTotal, url. by destruct (axios_get _).
  - by rewrite length_fmap, length_take.
  - intros Hle. rewrite length_fmap, length_take. lia.
Qed.

(** C7. The score sent back is the vulnerability count plus twice the
    C2 count plus three times the high-risk count; counts 3, 2 and 1 give
    10. *)
Theorem risk_score_formula :
  (∀ auditResults tsharkStdout,
     let r := scanScore auditResults tsharkStdout in
     riskScore r
     = vulnerabilityCount r + c2Count r * 2 + githubHighRiskCount r * 3
     ∧ 0 ≤ c2Count r ∧ 0 ≤ githubHighRiskCount r)
  ∧ (∀ v c h, 0 ≤ v → 0 ≤ c → 0 ≤ h →
       computeRiskScore v c h = v + c * 2 + h * 3 ∧ 0 ≤ computeRiskScore v c h)
  ∧ computeRiskScore 3 2 1 = 10
  ∧ scanScore {| vulnerabilities := Some [1; 0; 2];
                 advisories := Some [lit "high"; lit "low"; lit "moderate"] |}
              (lit "a.example" ++ [LF] ++ lit "b.example" ++ [LF]
               ++ lit "a.example" ++ [LF])
    = {| vulnerabilityCount := 3; c2Count := 2; githubHighRiskCount := 1;
         riskScore := 10 |}.
Proof.
  split; [|split; [|split]].
  - intros a t. cbn. split; [done|]. split; [lia|].
    destruct (advisories a) as [advs|]; [|done].
    assert (H : ∀ n, 0 ≤ n →
      0 ≤ foldl (λ n severity,
                   if bool_decide (severity = lit "high")
                      || bool_decide (severity = lit "critical")
                   then n + 1 else n) n advs).
    { induction advs as [|s advs IH]; intros n Hn; cbn; [done|].
      apply IH. destruct (_ || _); lia. }
    by apply H.
  - intros v c h ? ? ?. unfold computeRiskScore. lia.
  - reflexivity.
  - vm_compute. reflexivity.
Qed.
End ServerFacts.

(* ===================================================================== *)
(** ** The statements at the fixtures *)
(* ===================================================================== *)

Section Instances.
Import JS.

Lemma sample_full_permutation_witness :
  Sampler.sample [lit "a"; lit "b"; lit "c"] 5 ≡ₚ Some <$> [lit "a"; lit "b"; lit "c"]
  ∧ length (Sampler.sample [lit "a"; lit "b"; lit "c"] 5) = 3%nat.
Proof.
  destruct (sample_full_permutation [lit "a"; lit "b"; lit "c"] 5) as (H1 & H2 & _).
  - cbn. lia.
  - split; [exact H1|exact H2].
Defined.

Example sample_three_names :
  Sampler.sample [lit "a"; lit "b"; lit "c"] 1000
  = Some <$> [lit "c"; lit "a"; lit "b"].
Proof. vm_compute. reflexivity. Qed.

Lemma existing_artifact_is_skipped_witness :
  let pkgs := [lit "@scope/done"; lit "left-pad"] in
  let st := {| Sandbox.dir := Demo.resumed; Sandbox.spawned := [] |} in
  Sandbox.job Demo.withDocker (lit "out") 0 (lit "@scope/done") st = Sandbox.Next st
  ∧ Sandbox.loop Demo.withDocker (lit "out") 0 pkgs st = Sandbox.Next st.
Proof.
  destruct (existing_artifact_is_skipped Demo.withDocker (lit "out") 0
              [lit "@scope/done"; lit "left-pad"]
              {| Sandbox.dir := Demo.resumed; Sandbox.spawned := [] |}
              (lit "@scope/done") (Sandbox.File (lit "earlier"))) as (H1 & _ & H3 & _).
  - vm_compute. reflexivity.
  - split; [exact H1|]. apply H3. intros Q HQ.
    repeat (apply elem_of_cons in HQ as [->|HQ]; [vm_compute; eauto|]).
    by apply elem_of_nil in HQ.
Defined.

(** C1, as the specification has it, fails: the artifact of [left-pad]
    exists when the loop reaches the package, which is skipped, and is
    not what it was when the run ends.  In the first run the container
    started next, for [wiper], removes what the output directory holds,
    which it has for writing, and the artifact is gone.  In the second the
    container started next, for a name with a space in it, truncates
    the artifact. *)
Lemma later_container_changes_the_artifact :
  Demo.resumed !! artifact (lit "out") (lit "left-pad")
    = Some (Sandbox.File (lit "earlier"))
  ∧ (∃ st, Sandbox.scan Demo.wiping (lit "out")
             [lit "left-pad"; lit "wiper"] Demo.resumed = Sandbox.Next st
           ∧ Sandbox.spawned st = [lit "wiper"]
           ∧ Sandbox.dir st !! artifact (lit "out") (lit "left-pad") = None)
  ∧ (∃ st, Sandbox.scan Demo.withDocker (lit "out")
             [lit "left-pad"; lit "left-pad.json x"] Demo.resumed = Sandbox.Next st
           ∧ Sandbox.spawned st = [lit "left-pad.json x"]
           ∧ Sandbox.dir st !! artifact (lit "out") (lit "left-pad")
             = Some (Sandbox.File [])).
Proof.
  split; [by vm_compute|]. split; eexists; (split; [vm_compute; reflexivity|]);
    by vm_compute.
Qed.

(** C10, as the specification has it, fails.  Docker does not start, and
    the record of [left-pad] holds the two domains of a capture left by
    an earlier run.  Docker does not start and a directory stands where
    the capture is looked for: reading it throws, and the run ends
    without an artifact.  And in a run where Docker starts for [wiper]
    only, whose installation removes what the directory holds, the
    launch for [left-pad] fails, yet a second run over the list starts
    Docker for [left-pad] again. *)
Lemma failed_launch_not_as_claimed :
  (∃ st, Sandbox.scan Demo.noDocker (lit "out") [lit "left-pad"] Demo.stale
         = Sandbox.Next st
         ∧ Sandbox.dir st !! artifact (lit "out") (lit "left-pad")
           = Some (Sandbox.File (lit "left-pad:registry.npmjs.org,evil.example")))
  ∧ Sandbox.scan Demo.noDocker (lit "out") [lit "left-pad"] Demo.blocked
    = Sandbox.Uncaught (lit "EISDIR: illegal operation on a directory, read")
        {| Sandbox.dir := Demo.blocked; Sandbox.spawned := [lit "left-pad"] |}
  ∧ Demo.blocked !! artifact (lit "out") (lit "left-pad") = None
  ∧ (∃ st st', Sandbox.scan Demo.wiping (lit "out") [lit "left-pad"; lit "wiper"] ∅
               = Sandbox.Next st
               ∧ Sandbox.spawned st = [lit "left-pad"; lit "wiper"]
               ∧ Sandbox.scan Demo.wiping (lit "out") [lit "left-pad"; lit "wiper"]
                   (Sandbox.dir st) = Sandbox.Next st'
               ∧ Sandbox.spawned st' = [lit "left-pad"]).
Proof.
  split; [eexists; split; [vm_compute; reflexivity|by vm_compute]|].
  split; [by vm_compute|]. split; [by vm_compute|].
  eexists. eexists. split; [vm_compute; reflexivity|]. split; [by vm_compute|].
  split; [vm_compute; reflexivity|by vm_compute].
Qed.

Example sandbox_resumed_run :
  Sandbox.spawned
    (Sandbox.state
       (Sandbox.scan Demo.withDocker (lit "out") [lit "@scope/done"; lit "p"]
          Demo.resumed))
  = [lit "p"]
  ∧ Sandbox.extractDomains Demo.capture = [lit "registry.npmjs.org"; lit "evil.example"]
  ∧ Sandbox.dir
      (Sandbox.state (Sandbox.scan Demo.noDocker (lit "out") [lit "left-pad"] ∅))
      !! lit "out/left-pad.json"
    = Some (Sandbox.File (lit "left-pad:"))
  ∧ Sandbox.scan Demo.withDocker (lit "out") [lit "left-pad"; lit "p"]
      (Sandbox.dir
         (Sandbox.state
            (Sandbox.scan Demo.noDocker (lit "out") [lit "left-pad"; lit "p"] ∅)))
    = Sandbox.Next
        {| Sandbox.dir :=
             Sandbox.dir
               (Sandbox.state
                  (Sandbox.scan Demo.noDocker (lit "out") [lit "left-pad"; lit "p"] ∅));
           Sandbox.spawned := [] |}.
Proof. vm_compute. done. Qed.



(** Ten names of which two never download: eight successes and two
    failures, at concurrency 1, 5 and 20, and whichever job settles
    first. *)
Example eight_and_two :
  Forall (λ c,
    Forall (λ sched,
      tally (Fetch.script Demo.env (Demo.cfg 2 c) Demo.tenNames 11 sched Demo.empty)
      = Some (8%nat, 2%nat))
      [[]; (λ c, (c, [])) <$> [4; 3; 2; 1; 0; 7; 1; 1; 5; 0]%nat])
    [1; 5; 20].
Proof. repeat constructor; vm_compute; reflexivity. Qed.

(** Versions at times 1 < 2 < 3: a cutoff of 2 selects the one published
    at 2, a cutoff of 0 none. *)
Example cutoff_at_second_version :
  Fetch.selectedOf (Fetch.versionEntries Demo.env (Demo.cfg 2 5) Demo.timeMap)
  = Some (lit "1.1.0")
  ∧ (Fetch.processPackage Demo.env (Demo.cfg 0 5) (lit "p0") Demo.empty).1
    = Fetch.Failure (lit "p0") (lit "NO_VERSION_BEFORE_CUTOFF").
Proof. vm_compute. done. Qed.



End Instances.

(* --------------------------------------------------------------------- *)
(** ** Fetch pipeline: retries, failures, what a success leaves *)
(* --------------------------------------------------------------------- *)

Section FetchOutcomes.
Import JS Fetch.

Lemma added_app (d d' : gmap jsstring Node) (l l' : list Action) :
  added {| disk := d; log := l |} {| disk := d'; log := l ++ l' |} = l'.
Proof. unfold added. cbn. by rewrite drop_app_length. Qed.

(** X1. The download of an archive is tried at most three times, one
    second and then two seconds being waited between the tries; it
    succeeds exactly when one of the three tries finishes, and then the
    archive is on the disk; when all three fail the error is
    [DOWNLOAD_FAILED] with the last message, and the destination is
    absent or empty. *)
Theorem download_three_tries (env : Env) (url dest : jsstring) (w : World) :
  let r := downloadLoop env url dest MAX_DL_TRIES 1 w in
  let tries := downloads (added w r.2) in
  (1 ≤ length tries ≤ 3)%nat
  ∧ tries = replicate (length tries) (url, dest)
  ∧ waits (added w r.2) = take (length tries - 1) [1000; 2000]
  ∧ (r.1 = inr tt ↔
     ∃ k bytes, (1 ≤ k ≤ 3)%nat ∧ download env url k = DlFinished bytes)
  ∧ (r.1 = inr tt → ∃ bytes, disk r.2 !! dest = Some (File bytes))
  ∧ (∀ e, r.1 = inl e →
       (∃ m, e = lit "DOWNLOAD_FAILED: " ++ m)
       ∧ (disk r.2 !! dest = None ∨ disk r.2 !! dest = Some (File [])))
  ∧ (∀ k, k ≠ dest → disk r.2 !! k = disk w !! k).
Proof.
  assert (Hk : ∀ P : nat → Prop,
    (∃ k, (1 ≤ k ≤ 3)%nat ∧ P k) ↔ P 1%nat ∨ P 2%nat ∨ P 3%nat).
  { intros P. split.
    - intros (k & Hk & HP).
      assert (k = 1 ∨ k = 2 ∨ k = 3)%nat as [->|[->| ->]] by lia; tauto.
    - intros [?|[?|?]]; eexists; (split; [|eassumption]); lia. }
  assert (Hfin : (∃ k bytes, (1 ≤ k ≤ 3)%nat ∧ download env url k = DlFinished bytes)
    ↔ (∃ b, download env url 1 = DlFinished b)
      ∨ (∃ b, download env url 2 = DlFinished b)
      ∨ (∃ b, download env url 3 = DlFinished b)).
  { rewrite <- (Hk (λ k, ∃ b, download env url k = DlFinished b)).
    split; intros (k & ? & ?); [destruct H as [? ?]|destruct H0 as [? ?]]; eauto. }
  cbv zeta. rewrite Hfin. clear Hk Hfin. unfold MAX_DL_TRIES.
  rewrite !downloadLoop_unfold. unfold downloadFile, bind, emit, write, throw.
  destruct w as [d l]. cbn -[lit added].
  destruct (download env url 1) as [b1|s1|m1] eqn:E1;
    [|destruct (download env url 2) as [b2|s2|m2] eqn:E2;
       [|destruct (download env url 3) as [b3|s3|m3] eqn:E3..]..];
    cbn -[lit added];
    rewrite <- ?app_assoc;
    rewrite added_app;
    cbn -[lit].
  all: split; [lia|].
  all: split; [done|].
  all: split; [done|].
  all: split; [split; [intros H; try discriminate H; eauto 6
                      |intros [[? ?]|[[? ?]|[? ?]]]; done]|].
  all: split; [intros H; first [discriminate H|eexists; by simplify_map_eq]|].
  all: split; [intros e H;
               first [discriminate H
                     |injection H as <-; split; [eauto|simplify_map_eq; auto]]|].
  all: intros k Hne; by simplify_map_eq.
Qed.

Lemma downloadFile_frame env url dest attempt (w : World) (k : jsstring) :
  k ≠ dest → disk (downloadFile env url dest attempt w).2 !! k = disk w !! k.
Proof.
  intros Hne. unfold downloadFile, bind, emit, write, throw.
  destruct (download env url attempt); cbn; by simplify_map_eq.
Qed.

Lemma downloadLoop_frame env url dest n attempt (w : World) (k : jsstring) :
  k ≠ dest → disk (downloadLoop env url dest n attempt w).2 !! k = disk w !! k.
Proof.
  intros Hne. revert attempt w. induction n as [|n IH]; intros attempt w; [done|].
  rewrite downloadLoop_unfold.
  pose proof (downloadFile_frame env url dest attempt w k Hne) as Hfr.
  destruct (downloadFile env url dest attempt w) as [[e|[]] w1]; cbn [fst snd] in *;
    [|done].
  destruct (attempt <? MAX_DL_TRIES)%nat; cbn [fst snd]; [|done].
  by rewrite IH.
Qed.

(** The disk after a download that ended well: the archive holds what
    the first attempt that finished received, the rest is as it was. *)
Lemma downloadLoop_success env url dest (w w' : World) :
  downloadLoop env url dest MAX_DL_TRIES 1 w = (inr tt, w') →
  ∃ k bytes, (1 ≤ k ≤ 3)%nat
    ∧ download env url k = DlFinished bytes
    ∧ (∀ j, (1 ≤ j < k)%nat → finished (download env url j) = false)
    ∧ disk w' = <[dest := File bytes]> (disk w).
Proof.
  assert (Hstep : ∀ n a w0,
    downloadLoop env url dest (S n) a w0 =
    match download env url a with
    | DlFinished bytes =>
        (inr tt, {| disk := <[dest:=File bytes]> (disk w0);
                    log := log w0 ++ [ADownload url dest] |})
    | DlStatus status =>
        if (a <? MAX_DL_TRIES)%nat
        then downloadLoop env url dest n (S a)
               {| disk := <[dest:=File []]> (disk w0);
                  log := (log w0 ++ [ADownload url dest]) ++ [ASleep (backoff a)] |}
        else (inl (lit "DOWNLOAD_FAILED: " ++ (lit "HTTP " ++ status ++ lit " for " ++ url)),
              {| disk := <[dest:=File []]> (disk w0);
                 log := log w0 ++ [ADownload url dest] |})
    | DlError message =>
        if (a <? MAX_DL_TRIES)%nat
        then downloadLoop env url dest n (S a)
               {| disk := delete dest (disk w0);
                  log := (log w0 ++ [ADownload url dest]) ++ [ASleep (backoff a)] |}
        else (inl (lit "DOWNLOAD_FAILED: " ++ message),
              {| disk := delete dest (disk w0);
                 log := log w0 ++ [ADownload url dest] |})
    end).
  { intros n a w0. rewrite downloadLoop_unfold.
    unfold downloadFile, bind, emit, write, throw.
    by destruct (download env url a). }
  assert (Hover : ∀ (d : gmap jsstring Node) (bytes : jsstring),
    <[dest := File bytes]> (<[dest := File []]> d) = <[dest := File bytes]> d
    ∧ <[dest := File bytes]> (delete dest d) = <[dest := File bytes]> d).
  { intros d bytes. split; apply map_eq; intros i;
      destruct (decide (i = dest)) as [->|Hne]; by simplify_map_eq. }
  unfold MAX_DL_TRIES. rewrite Hstep.
  destruct (download env url 1) as [b1|s1|m1] eqn:E1.
  { intros [= <-]. exists 1%nat, b1. split; [lia|]. split; [done|].
    split; [intros j Hj; lia|done]. }
  all: change (1 <? MAX_DL_TRIES)%nat with true; cbv iota; rewrite Hstep.
  all: destruct (download env url 2) as [b2|s2|m2] eqn:E2.
  all: try (intros [= <-]; exists 2%nat, b2; split; [lia|]; split; [done|];
            split; [intros j Hj; replace j with 1%nat by lia; by rewrite E1|];
            cbn [disk]; apply Hover).
  all: change (2 <? MAX_DL_TRIES)%nat with true; cbv iota; rewrite Hstep.
  all: destruct (download env url 3) as [b3|s3|m3] eqn:E3;
    change (3 <? MAX_DL_TRIES)%nat with false; cbv iota; try done.
  all: intros [= <-]; exists 3%nat, b3; split; [lia|]; split; [done|];
    split; [intros j Hj; assert (j = 1 ∨ j = 2)%nat as [-> | ->] by lia;
            by rewrite ?E1, ?E2|];
    cbn [disk]; rewrite ?(proj1 (Hover _ _)), ?(proj2 (Hover _ _));
    rewrite ?(proj1 (Hover _ _)), ?(proj2 (Hover _ _)); done.
Qed.

(** X2. A package job changes the disk in three places only: at its
    directory, which it makes, at the archive, which it downloads, and
    where the extraction command writes.  The archive's path holds the
    version key the registry chose, and the command goes through the
    shell, so neither need lie in the directory; a path other than the
    first two that the command leaves alone is as it was. *)
Theorem job_changes_three_places (env : Env) (cfg : Config)
    (pkgName : jsstring) (w : World) (k : jsstring) :
  k ≠ path_join (outDir cfg) (safeName pkgName) →
  (∀ meta selected,
     fetchJSON env (metaUrl env pkgName) = inr meta →
     selectedOf (versionEntries env cfg (meta_time meta)) = Some selected →
     k ≠ path_join (path_join (outDir cfg) (safeName pkgName))
           (safeName pkgName ++ lit "-" ++ selected ++ lit ".tgz")) →
  (∀ tgz d,
     (tar env tgz (path_join (outDir cfg) (safeName pkgName)) d).2 !! k = d !! k) →
  disk (processPackage env cfg pkgName w).2 !! k = disk w !! k.
Proof.
  intros Hbase Htgz Htar.
  unfold processPackage, processBody, bind, emit. cbn [disk log].
  destruct (fetchJSON env (metaUrl env pkgName)) as [e|meta] eqn:Ef; [done|].
  destruct (selectedOf _) as [sel|] eqn:Es; [|done].
  specialize (Htgz meta sel eq_refl Es).
  destruct (meta_tarball meta !! sel) as [url|]; [|done].
  destruct (negb (truthy url)); [done|].
  unfold store, bind, emit. cbn [disk log].
  set (base := path_join (outDir cfg) (safeName pkgName)) in *.
  set (tgz := path_join base _) in *.
  destruct (mkdir env base) as [e|]; cbn [fst snd disk]; [done|].
  match goal with |- context [downloadLoop ?e ?u ?d ?n ?a ?w1] =>
    pose proof (downloadLoop_frame e u d n a w1 k Htgz) as Hd;
    destruct (downloadLoop e u d n a w1) as [[err|[]] w2] end;
    cbn [fst snd disk] in *.
  - by rewrite Hd, lookup_insert_ne.
  - unfold extract, bind, emit. cbn [disk log].
    pose proof (Htar tgz (disk w2)) as Ht.
    destruct (tar env tgz base (disk w2)) as [[e|] d']; cbn [fst snd disk] in *;
      unfold ret; cbn [fst snd disk]; by rewrite Ht, Hd, lookup_insert_ne.
Qed.

(** X3. A success entry names the package, the version selected and the
    directory [path.join(outDir, safeName)], and it is written only after
    an attempt of the three has finished and the extraction command has
    returned without an error: the command found the directory made and
    the archive holding what that attempt received, and the disk is as
    the command left it. *)
Theorem success_leaves_the_package (env : Env) (cfg : Config)
    (pkgName : jsstring) (w : World) (p v d : jsstring) :
  (processPackage env cfg pkgName w).1 = Success p v d →
  p = pkgName
  ∧ d = path_join (outDir cfg) (safeName pkgName)
  ∧ ∃ meta tarballUrl k bytes,
      fetchJSON env (metaUrl env pkgName) = inr meta
      ∧ selectedOf (versionEntries env cfg (meta_time meta)) = Some v
      ∧ meta_tarball meta !! v = Some tarballUrl
      ∧ mkdir env d = None
      ∧ (1 ≤ k ≤ 3)%nat
      ∧ download env tarballUrl k = DlFinished bytes
      ∧ (∀ j, (1 ≤ j < k)%nat → finished (download env tarballUrl j) = false)
      ∧ tar env (path_join d (safeName pkgName ++ lit "-" ++ v ++ lit ".tgz")) d
          (<[path_join d (safeName pkgName ++ lit "-" ++ v ++ lit ".tgz") := File bytes]>
             (<[d := Dir]> (disk w)))
        = (None, disk (processPackage env cfg pkgName w).2).
Proof.
  unfold processPackage, processBody, bind, emit. cbn [disk log].
  destruct (fetchJSON env (metaUrl env pkgName)) as [e|meta] eqn:Ef; [done|].
  destruct (selectedOf _) as [sel|] eqn:Es; [|done].
  destruct (meta_tarball meta !! sel) as [url|] eqn:Et; [|done].
  destruct (negb (truthy url)); [done|].
  unfold store, bind, emit. cbn [disk log].
  set (base := path_join (outDir cfg) (safeName pkgName)) in *.
  set (tgz := path_join base _) in *.
  destruct (mkdir env base) as [e|] eqn:Em; cbn [fst snd disk]; [done|].
  match goal with |- context [downloadLoop ?e ?u ?d ?n ?a ?w1] =>
    pose proof (downloadLoop_success e u d w1) as Hd;
    destruct (downloadLoop e u d n a w1) as [[err|[]] w2] end;
    cbn [fst snd disk] in *; [done|].
  destruct (Hd w2 eq_refl) as (k & bytes & Hk & Hfin & Hbefore & Hdisk).
  cbn [disk] in Hdisk.
  unfold extract, bind, emit. cbn [disk log].
  destruct (tar env tgz base (disk w2)) as [[e|] d'] eqn:Etar; cbn [fst snd disk];
    unfold ret; cbn [fst snd disk]; [done|].
  intros [= <- <- <-]. split; [done|]. split; [done|].
  exists meta, url, k, bytes. repeat (split; [done|]).
  unfold tgz in *. by rewrite <- Hdisk.
Qed.

Lemma success_leaves_the_package_witness :
  ∃ k bytes,
    download Demo.env (lit "https://registry.npmjs.org/p0/1.1.0") k = DlFinished bytes
    ∧ tar Demo.env (lit "out/p0/p0-1.1.0.tgz") (lit "out/p0")
        (<[lit "out/p0/p0-1.1.0.tgz" := File bytes]> (<[lit "out/p0" := Dir]> ∅))
      = (None, disk (processPackage Demo.env (Demo.cfg 2 5) (lit "p0") Demo.empty).2).
Proof.
  destruct (success_leaves_the_package Demo.env (Demo.cfg 2 5) (lit "p0") Demo.empty
              (lit "p0") (lit "1.1.0") (lit "out/p0"))
    as (_ & _ & meta & url & k & bytes & Hf & _ & Hu & _ & _ & Hfin & _ & Htar).
  - vm_compute. reflexivity.
  - vm_compute in Hf. injection Hf as <-. vm_compute in Hu. injection Hu as <-.
    exists k, bytes. split; [exact Hfin|]. exact Htar.
Defined.

Lemma job_changes_three_places_witness :
  disk (processPackage Demo.env (Demo.cfg 2 5) (lit "p0") Demo.afterFirstRun).2
    !! lit "out/p1/package/index.js"
  = disk Demo.afterFirstRun !! lit "out/p1/package/index.js".
Proof.
  apply (job_changes_three_places Demo.env (Demo.cfg 2 5) (lit "p0")
           Demo.afterFirstRun (lit "out/p1/package/index.js")).
  - vm_compute. discriminate.
  - intros meta selected Hf Hs. vm_compute in Hf. injection Hf as <-.
    vm_compute in Hs. injection Hs as <-. vm_compute. discriminate.
  - intros tgz d. cbn [tar Demo.env snd]. apply lookup_insert_ne.
    vm_compute. discriminate.
Defined.
End FetchOutcomes.

(* --------------------------------------------------------------------- *)
(** ** Names, ties and the queue at its edges *)
(* --------------------------------------------------------------------- *)

Section SafeNames.
Import JS.

Lemma replaceAll_absent (c d : N) (s : jsstring) :
  c ≠ d → c ∉ replaceAll c d s.
Proof.
  intros Hcd. unfold replaceAll. induction s as [|x s IH]; cbn; [apply not_elem_of_nil|].
  apply not_elem_of_cons. split; [|done].
  destruct (N.eqb_spec x c); congruence.
Qed.

Lemma replaceAll_id (c d : N) (s : jsstring) : c ∉ s → replaceAll c d s = s.
Proof.
  unfold replaceAll. induction s as [|x s IH]; cbn; [done|].
  intros [Hx Hs]%not_elem_of_cons. rewrite IH by done.
  destruct (N.eqb_spec x c); congruence.
Qed.

Lemma replaceAll_inj (c d : N) (p q : jsstring) :
  d ∉ p → d ∉ q → replaceAll c d p = replaceAll c d q → p = q.
Proof.
  unfold replaceAll. revert q. induction p as [|x p IH]; intros [|y q]; cbn; try done.
  intros [Hx Hp]%not_elem_of_cons [Hy Hq]%not_elem_of_cons [= Hxy Hpq].
  f_equal; [|by apply IH].
  destruct (N.eqb_spec x c), (N.eqb_spec y c); congruence.
Qed.

(** X4. The directory name of a package holds no ["/"] and is as long
    as the name; names without ["/"] are kept; the downloader and the
    sandbox driver compute the same name; and two names that hold no
    ["+"] get the same directory only when they are equal. *)
Theorem safeName_is_flat (p : jsstring) :
  (47%N ∉ Fetch.safeName p)
  ∧ length (Fetch.safeName p) = length p
  ∧ (47%N ∉ p → Fetch.safeName p = p)
  ∧ Fetch.safeName (Fetch.safeName p) = Fetch.safeName p
  ∧ Sandbox.safeName p = Fetch.safeName p
  ∧ (∀ q, 43%N ∉ p → 43%N ∉ q → Fetch.safeName p = Fetch.safeName q → p = q).
Proof.
  unfold Fetch.safeName, Sandbox.safeName.
  split; [by apply replaceAll_absent|].
  split; [by unfold replaceAll; rewrite length_fmap|].
  split; [apply replaceAll_id|].
  split; [by apply replaceAll_id, replaceAll_absent|].
  split; [done|]. intros q. apply replaceAll_inj.
Qed.

(** A scoped name and a name with a plus sign in its place share a
    directory. *)
Example safeName_collision :
  Fetch.safeName (lit "@s/x") = Fetch.safeName (lit "@s+x").
Proof. reflexivity. Qed.
End SafeNames.

Section Ties.
Import JS Fetch.

Lemma last_insert (x : VersionEntry) (s : list VersionEntry) :
  dated x → Forall dated s → last_is_latest s →
  last (insert byTime x s) =
  match last s with
  | None => Some x
  | Some m => if byTime x m <=? 0 then Some m else Some x
  end.
Proof.
  intros Hx. induction s as [|y s IH]; intros Hs Hmax; [done|].
  apply Forall_cons in Hs as [Hy Hs]. cbn [insert].
  assert (Hmax' : last_is_latest s).
  { intros m' Hm'. destruct s as [|z s']; [done|].
    specialize (Hmax m' Hm'). by apply Forall_cons in Hmax as [_ ?]. }
  destruct (last (y :: s)) as [m|] eqn:Hm; [|by apply last_None_nil in Hm].
  pose proof (Hmax m Hm) as Hall. apply Forall_cons in Hall as [Hym _].
  destruct (byTime x y <=? 0) eqn:Hc.
  - change (last (x :: y :: s)) with (last (y :: s)). rewrite Hm.
    pose proof (byTime_le _ _ Hx Hy Hc) as Hxy.
    pose proof (not_later_trans _ _ _ Hxy Hym) as (a & b & Ha & Hb & Hab).
    unfold byTime. rewrite Ha, Hb.
    destruct (Z.leb_spec (a - b) 0); [done|lia].
  - assert (Hne : insert byTime x s ≠ []).
    { intros H. pose proof (insert_perm byTime x s) as HP. rewrite H in HP.
      by apply Permutation_nil_cons in HP. }
    assert (Hl : last (y :: insert byTime x s) = last (insert byTime x s)).
    { by destruct (insert byTime x s). }
    rewrite Hl, (IH Hs Hmax').
    destruct s as [|z s']; cbn [last] in *.
    + injection Hm as <-. by rewrite Hc.
    + by rewrite Hm.
Qed.

(** X5. Among the versions that share the latest time value not after
    the cutoff, the one listed last in the time map is selected: every
    entry before it is not later, every entry after it is earlier. *)
Theorem selected_is_listed_last_among_latest (env : Env) (cfg : Config)
    (timeMap : list (jsstring * jsstring)) (v : jsstring) :
  selectedOf (versionEntries env cfg timeMap) = Some v →
  ∃ pre post tv,
    versionEntries env cfg timeMap = pre ++ {| ver := v; time := Some tv |} :: post
    ∧ Forall (λ e, ∃ x, time e = Some x ∧ x ≤ tv) pre
    ∧ Forall (λ e, ∃ x, time e = Some x ∧ x < tv) post.
Proof.
  pose proof (versionEntries_dated env cfg timeMap) as Hd.
  generalize dependent (versionEntries env cfg timeMap). intros l Hd.
  unfold selectedOf. revert v. induction l as [|x l IH]; intros v Hsel; [done|].
  apply Forall_cons in Hd as [Hx Hl].
  change (sort byTime (x :: l)) with (insert byTime x (sort byTime l)) in Hsel.
  rewrite last_insert in Hsel; [|done| |by apply sort_last_is_latest].
  2: { by rewrite (sort_perm byTime l). }
  destruct (last (sort byTime l)) as [m|] eqn:Hm.
  - destruct (IH Hl (ver m)) as (pre & post & tv & -> & Hpre & Hpost); [done|].
    assert (Hmt : time m = Some tv).
    { pose proof (sort_last_is_latest _ Hl m Hm) as Hall.
      assert (Hin : m ∈ sort byTime (pre ++ {| ver := ver m; time := Some tv |} :: post))
        by (by apply last_Some_elem_of).
      rewrite (sort_perm byTime) in Hin, Hall.
      rewrite Forall_forall in Hall.
      assert (Hmid : {| ver := ver m; time := Some tv |}
                     ∈ pre ++ {| ver := ver m; time := Some tv |} :: post)
        by (apply elem_of_app; right; left).
      destruct (Hall _ Hmid) as (a & b & Ha & Hb & Hab). cbn in Ha.
      injection Ha as <-.
      apply elem_of_app in Hin as [Hin|Hin].
      - rewrite Forall_forall in Hpre. destruct (Hpre _ Hin) as (c & Hc & ?).
        rewrite Hb in Hc. injection Hc as <-. rewrite Hb. f_equal. lia.
      - apply elem_of_cons in Hin as [->|Hin]; [done|].
        rewrite Forall_forall in Hpost. destruct (Hpost _ Hin) as (c & Hc & ?).
        rewrite Hb in Hc. injection Hc as <-. lia. }
    destruct Hx as [tx Htx].
    unfold byTime in Hsel. rewrite Htx, Hmt in Hsel.
    destruct (Z.leb_spec (tx - tv) 0) as [Hle|Hgt]; cbn in Hsel; injection Hsel as <-.
    + exists (x :: pre), post, tv. split; [done|]. split; [|done].
      constructor; [|done]. exists tx. split; [done|lia].
    + exists [], (pre ++ {| ver := ver m; time := Some tv |} :: post), tx.
      split; [by destruct x; cbn in *; subst|]. split; [done|].
      apply Forall_app. split; [|constructor].
      * eapply Forall_impl; [exact Hpre|]. intros e (c & ? & ?). exists c. split; [done|lia].
      * exists tv. split; [done|lia].
      * eapply Forall_impl; [exact Hpost|]. intros e (c & ? & ?). exists c. split; [done|lia].
  - cbn in Hsel. injection Hsel as <-.
    apply last_None_nil, sort_nil in Hm. subst l.
    destruct Hx as [tx Htx]. exists [], [], tx.
    split; [by destruct x; cbn in *; subst|]. split; constructor.
Qed.

Lemma selected_is_listed_last_among_latest_witness :
  ∃ pre post tv,
    versionEntries Demo.env (Demo.cfg 3 5)
      [(lit "1.0.0", lit "2"); (lit "2.0.0", lit "3"); (lit "1.5.1", lit "3");
       (lit "1.0.1", lit "2")]
    = pre ++ {| ver := lit "1.5.1"; time := Some tv |} :: post
    ∧ Forall (λ e, ∃ x, time e = Some x ∧ x ≤ tv) pre
    ∧ Forall (λ e, ∃ x, time e = Some x ∧ x < tv) post.
Proof.
  apply (selected_is_listed_last_among_latest Demo.env (Demo.cfg 3 5)).
  vm_compute. reflexivity.
Defined.
End Ties.

Section QueueEdges.
Import JS Fetch.

Lemma remove_length (p : Job) (l : list Job) :
  p ∈ l → length l = S (length (remove p l)).
Proof. intros Hin. by rewrite (Permutation_length (remove_perm p l Hin)). Qed.

Lemma enqueueNext_active (items : list jsstring) (q : Queue) :
  (length (active (enqueueNext items q)) ≤ S (length (active q)))%nat.
Proof.
  unfold enqueueNext. destruct (items !! idx q); cbn; [|lia].
  rewrite length_app. cbn. lia.
Qed.

Lemma turn_active (items : list jsstring) (worker : jsstring → World → Settled * World)
    (choice : nat) (q : Queue) :
  (length (active (turn items worker choice q)) ≤ length (active q))%nat.
Proof.
  unfold turn.
  destruct (active q !! (choice mod length (active q))%nat) as [p|] eqn:Hp; [|done].
  destruct (settle worker p (world q)) as [r w'].
  assert (Hin : p ∈ active q) by (by eapply list_elem_of_lookup_2).
  rewrite (remove_length p (active q) Hin).
  etrans; [apply enqueueNext_active|]. done.
Qed.

(** X6. However the jobs settle, there are never more promises in
    flight than the concurrency (nor than there are items): after the
    kick-off and any number of passes of the loop, [active] holds at most
    [min(concurrency, items.length)] of them. *)
Theorem never_more_in_flight_than_concurrency (items : list jsstring)
    (worker : jsstring → World → Settled * World) (concurrency : Z)
    (w : World) (choices : list nat) :
  let kick := Z.to_nat (Z.min concurrency (Z.of_nat (length items))) in
  let q1 := Nat.iter kick (enqueueNext items)
              {| idx := 0; active := []; results := []; world := w |} in
  let q := foldl (λ q choice, turn items worker choice q) q1 choices in
  (length (active q) ≤ kick)%nat
  ∧ (0 ≤ concurrency → Z.of_nat (length (active q)) ≤ concurrency).
Proof.
  cbv zeta.
  set (kick := Z.to_nat (Z.min concurrency (Z.of_nat (length items)))).
  destruct (kick_off items kick w) as (q1 & -> & _ & Ha & _); [lia|].
  assert (H : (length (active (foldl (λ q choice, turn items worker choice q) q1 choices))
               ≤ kick)%nat).
  { rewrite <- Ha. clear Ha. revert q1.
    induction choices as [|c cs IH]; intros q1; cbn [foldl]; [done|].
    etrans; [apply IH|]. apply turn_active. }
  split; [done|]. intros HC. lia.
Qed.


End QueueEdges.

Section QueueInOrder.
Import JS Fetch.

Variable items : list jsstring.
Variable worker : jsstring → World → Settled * World.
Hypothesis worker_names_its_item :
  ∀ item w r, (worker item w).1 = Fulfilled r → pkg_of r = item.

Lemma in_order_turn (choice : nat) (q : Queue) :
  in_order items q → active q ≠ [] →
  in_order items (turn items worker choice q)
  ∧ length (results (turn items worker choice q)) = S (length (results q)).
Proof.
  intros (Hidx & Hone & Hbusy & Hnames) Hne. unfold turn.
  destruct (active q) as [|p [|p' l]] eqn:Hact; [done| |cbn in Hone; lia].
  cbn [length]. rewrite Nat.mod_1_r. cbn [lookup list_lookup].
  pose proof (settle_names_item worker worker_names_its_item p (world q)) as Hr.
  destruct (settle worker p (world q)) as [r w']. cbn in Hr.
  cbn [remove]. rewrite decide_True by done.
  unfold enqueueNext. cbn [idx active results world].
  cbn in Hnames.
  destruct (items !! idx q) as [item|] eqn:Hitem;
    unfold in_order; cbn [idx active results world].
  - pose proof (lookup_lt_Some _ _ _ Hitem). split; [|by rewrite length_app; cbn; lia].
    split; [lia|]. split; [cbn; lia|]. split; [done|].
    rewrite fmap_app. cbn. rewrite Hr, (take_S_r _ _ _ Hitem), <- Hnames.
    by rewrite <- app_assoc.
  - apply lookup_ge_None in Hitem. split; [|by rewrite length_app; cbn; lia].
    split; [done|]. split; [cbn; lia|]. split; [intros; lia|].
    rewrite fmap_app. cbn. rewrite Hr, app_nil_r. done.
Qed.

Lemma in_order_while (fuel : nat) (sched : list nat) (q : Queue) :
  in_order items q → (length items - length (results q) < fuel)%nat →
  ∃ q', while fuel items worker sched q = Some q'
        ∧ in_order items q' ∧ active q' = [].
Proof.
  revert sched q. induction fuel as [|fuel IH]; intros sched q Hinv Hfuel; [lia|].
  cbn [while].
  destruct (decide (active q = [])) as [Hact|Hact].
  - exists q. rewrite Hact. cbn.
    destruct (bool_decide (idx q < length items)%nat); cbn; done.
  - assert (Hlen : (0 < length (active q))%nat).
    { destruct (active q); cbn; [done|lia]. }
    rewrite (bool_decide_true (0 < _)%nat) by done.
    rewrite orb_true_r, bool_decide_false by lia.
    destruct (in_order_turn (hd 0%nat sched) q Hinv Hact) as [Hinv' Hres].
    apply IH; [done|].
    destruct Hinv as (Hidx & _ & _ & Hnames).
    apply (f_equal length) in Hnames.
    rewrite length_app, !length_fmap, length_take in Hnames. lia.
Qed.

Lemma runQueue_in_order (fuel : nat) (sched : list nat) (w : World) :
  (length items < fuel)%nat →
  ∃ rs w', runQueue fuel items worker 1 sched w = Some (rs, w')
           ∧ pkg_of <$> rs = items.
Proof.
  intros Hfuel. unfold runQueue.
  set (k := Z.to_nat (Z.min 1 (Z.of_nat (length items)))).
  destruct (kick_off items k w) as (q1 & -> & Hi & Ha & Hr & Hn); [lia|].
  assert (Hinv : in_order items q1).
  { split; [lia|]. split; [lia|]. split.
    - intros Hlt. assert (0 < k)%nat by lia. destruct (active q1); cbn in *; [lia|done].
    - rewrite Hr, Hn, Hi. done. }
  destruct (in_order_while fuel sched q1 Hinv) as (q2 & -> & Hinv2 & Hact2);
    [rewrite Hr; cbn; lia|].
  unfold drain. rewrite Hact2. cbn.
  eexists _, _. split; [done|].
  destruct Hinv2 as (Hidx & _ & Hbusy & Hnames).
  rewrite Hact2 in *. cbn in *. rewrite app_nil_r in Hnames.
  assert (idx q2 = length items).
  { destruct (decide (idx q2 < length items)%nat) as [Hlt|]; [|lia].
    by destruct (Hbusy Hlt). }
  rewrite Hnames. by rewrite take_ge by lia.
Qed.
End QueueInOrder.

Section SerialRun.
Import JS Fetch.


End SerialRun.

(* --------------------------------------------------------------------- *)
(** ** Reading the package list *)
(* --------------------------------------------------------------------- *)

Section Readers.
Import JS.

Lemma trimStart_fixed (s : jsstring) :
  match s with [] => True | c :: _ => is_ws c = false end → trimStart s = s.
Proof. destruct s as [|c s]; [done|]. cbn. by intros ->. Qed.

Lemma trimStart_idem (s : jsstring) : trimStart (trimStart s) = trimStart s.
Proof.
  apply trimStart_fixed. destruct (trimStart s) as [|c s'] eqn:E; [done|].
  by apply trimStart_head in E.
Qed.

Lemma trimStart_suffix (s : jsstring) : trimStart s `suffix_of` s.
Proof.
  induction s as [|c s IH]; cbn; [done|].
  destruct (is_ws c); [by apply suffix_cons_r|done].
Qed.

Lemma trimStart_snoc (l : jsstring) (c : N) :
  is_ws c = false → ∃ v, trimStart (l ++ [c]) = v ++ [c].
Proof.
  intros Hc. induction l as [|x l IH]; cbn.
  - rewrite Hc. by exists [].
  - destruct (is_ws x); [done|]. by exists (x :: l).
Qed.

Lemma trimStart_app (q r : jsstring) :
  ¬ blank q → trimStart (q ++ r) = trimStart q ++ r.
Proof.
  induction q as [|c q IH]; intros Hq; [by destruct Hq; constructor|].
  cbn. destruct (is_ws c) eqn:E; [|done].
  apply IH. intros Hb. apply Hq. by constructor.
Qed.

Lemma trimStart_blank_app (q r : jsstring) :
  blank q → trimStart (q ++ r) = trimStart r.
Proof.
  induction q as [|c q IH]; [done|]. intros [Hc Hq]%Forall_cons. cbn.
  rewrite Hc. by apply IH.
Qed.

Lemma trim_trimStart (s : jsstring) : trimStart (trim s) = trim s.
Proof.
  unfold trim, trimEnd. apply trimStart_fixed.
  destruct (trimStart s) as [|c t] eqn:E; [done|].
  pose proof (trimStart_head _ _ _ E) as Hc.
  rewrite reverse_cons.
  destruct (trimStart_snoc (reverse t) c Hc) as [v ->].
  by rewrite reverse_app.
Qed.

Lemma trim_idem (s : jsstring) : trim (trim s) = trim s.
Proof.
  unfold trim at 1. rewrite trim_trimStart.
  unfold trim, trimEnd. by rewrite reverse_involutive, trimStart_idem.
Qed.

Lemma trim_sub (s : jsstring) (c : N) : c ∈ trim s → c ∈ s.
Proof.
  unfold trim, trimEnd. rewrite elem_of_reverse. intros H.
  apply (elem_of_suffix _ (reverse (trimStart s))) in H; [|apply trimStart_suffix].
  rewrite elem_of_reverse in H.
  by apply (elem_of_suffix _ _ _ H), trimStart_suffix.
Qed.

Lemma trim_snoc_ws (q : jsstring) (c : N) :
  is_ws c = true → trim (q ++ [c]) = trim q.
Proof.
  intros Hc. unfold trim.
  destruct (decide (blank q)) as [Hb|Hnb].
  - rewrite trimStart_blank_app by done. cbn. rewrite Hc.
    apply trimStart_nil in Hb. by rewrite Hb.
  - rewrite trimStart_app by done. unfold trimEnd.
    rewrite reverse_app. cbn. by rewrite Hc.
Qed.

Lemma trim_dropCR (p : jsstring) : trim (dropCR p) = trim p.
Proof.
  unfold dropCR. destruct (reverse p) as [|c r] eqn:E; [done|].
  destruct (N.eqb_spec c CR) as [->|]; [|done].
  apply (f_equal reverse) in E. rewrite reverse_involutive, reverse_cons in E.
  rewrite E. by rewrite trim_snoc_ws.
Qed.

Lemma trim_dropCRs (ps : list jsstring) : trim <$> dropCRs ps = trim <$> ps.
Proof.
  induction ps as [|p [|p' ps] IH]; [done..|].
  change (dropCRs (p :: p' :: ps)) with (dropCR p :: dropCRs (p' :: ps)).
  rewrite !fmap_cons, trim_dropCR. f_equal. exact IH.
Qed.

Lemma split_free (sep : N) (s p : jsstring) : p ∈ split sep s → sep ∉ p.
Proof.
  revert p. induction s as [|x s IH]; intros p Hp; cbn in Hp.
  - apply list_elem_of_singleton in Hp as ->. apply not_elem_of_nil.
  - destruct (N.eqb_spec x sep) as [->|Hne].
    + apply elem_of_cons in Hp as [->|Hp]; [apply not_elem_of_nil|by apply IH].
    + destruct (split sep s) as [|q qs] eqn:E.
      * apply list_elem_of_singleton in Hp as ->.
        apply not_elem_of_cons. split; [done|apply not_elem_of_nil].
      * apply elem_of_cons in Hp as [->|Hp].
        -- apply not_elem_of_cons. split; [done|]. apply IH. left.
        -- apply IH. by right.
Qed.

(** X9. Every name read from a package list is non-empty, has no white
    space at either end (trimming it again changes nothing) and holds no
    line feed; and the driver that splits at [\r?\n] reads the same list
    as the scripts that split at [\n]. *)
Theorem package_names_are_trimmed (text : jsstring) :
  Sandbox.readPackages text = Inputs.lines text
  ∧ ∀ p, p ∈ Inputs.lines text →
      p ≠ [] ∧ trim p = p ∧ (LF ∉ p)
      ∧ (∃ c, head p = Some c ∧ is_ws c = false)
      ∧ (∃ c, last p = Some c ∧ is_ws c = false).
Proof.
  split.
  { unfold Sandbox.readPackages, Inputs.lines, splitLines. by rewrite trim_dropCRs. }
  intros p Hp. unfold Inputs.lines in Hp.
  apply list_elem_of_filter in Hp as [Ht Hp].
  apply list_elem_of_fmap in Hp as (l & -> & Hl).
  assert (Hne : trim l ≠ []) by (by destruct (trim l)).
  split; [done|]. split; [apply trim_idem|]. split.
  { intros H. apply trim_sub in H. by apply (split_free LF text l). }
  split.
  - pose proof (trim_trimStart l) as H.
    destruct (trim l) as [|c s] eqn:E; [done|].
    exists c. split; [done|]. by apply (trimStart_head _ _ _ H).
  - unfold trim, trimEnd in *.
    destruct (trimStart (reverse (trimStart l))) as [|c s] eqn:E; [done|].
    exists c. split; [by rewrite reverse_cons, last_snoc|].
    by apply (trimStart_head _ _ _ E).
Qed.
End Readers.

(* --------------------------------------------------------------------- *)
(** ** Sandbox executor: order of the domains, reach of a job *)
(* --------------------------------------------------------------------- *)

Section SandboxReach.
Import JS Sandbox.

Lemma collect_dedup (lines : list jsstring) (seen : gset jsstring)
    (sl doms : list jsstring) :
  (∀ x, x ∈ seen ↔ x ∈ sl) →
  collect lines seen doms = doms ++ dedup sl (omap nameOf lines).
Proof.
  revert seen sl doms. induction lines as [|line rest IH]; intros seen sl doms Hs.
  - cbn. by rewrite app_nil_r.
  - cbn [collect omap list_omap].
    destruct (truthy (trim line)) eqn:Et; cbn [negb].
    2: { apply truthy_trim_false in Et. rewrite (nameOf_blank _ Et). by apply IH. }
    destruct (nameOf line) as [name|] eqn:En; [|by apply IH].
    pose proof (nameOf_Some _ _ En) as [Hne _].
    assert (Htn : truthy name = true) by (by destruct name).
    rewrite Htn. cbn [andb dedup].
    destruct (decide (name ∈ sl)) as [Hin|Hnin].
    + rewrite bool_decide_true by (by apply Hs). cbn [negb]. by apply IH.
    + rewrite bool_decide_false by (by rewrite Hs). cbn [negb].
      rewrite (IH ({[name]} ∪ seen) (name :: sl)).
      * by rewrite <- app_assoc.
      * intros x. rewrite elem_of_union, elem_of_singleton, elem_of_cons, Hs. done.
Qed.

(** X10. The domains come out in the order of their first appearance in
    the capture, each once; each is non-empty, trimmed, and holds neither
    a tab nor a line feed. *)
Theorem domains_in_order_of_first_appearance (text : jsstring) :
  extractDomains text = dedup [] (omap nameOf (splitLines text))
  ∧ ∀ d, d ∈ extractDomains text →
      d ≠ [] ∧ trim d = d ∧ (TAB ∉ d) ∧ (LF ∉ d).
Proof.
  split.
  { unfold extractDomains. rewrite (collect_dedup _ ∅ [] []); [done|].
    intros x. by rewrite elem_of_empty, elem_of_nil. }
  intros d Hd.
  destruct (collect_spec (splitLines text) ∅ []) as [_ Hspec];
    [constructor|intros x; by rewrite elem_of_empty, elem_of_nil|].
  apply Hspec in Hd as [Hd|(line & Hline & Hn)]; [by apply elem_of_nil in Hd|].
  pose proof (nameOf_Some _ _ Hn) as [Hne _]. split; [done|].
  rewrite nameOf_head in Hn. apply head_Some_elem_of in Hn.
  apply list_elem_of_filter in Hn as [_ Hn].
  apply list_elem_of_fmap in Hn as (piece & -> & Hpiece).
  split; [apply trim_idem|]. split.
  - intros H. apply trim_sub in H. by apply (split_free TAB line piece).
  - intros H. apply trim_sub in H.
    apply (split_pieces TAB line piece LF Hpiece) in H.
    assert (Hfree : ∀ ps, (∀ p, p ∈ ps → LF ∉ p) → ∀ p, p ∈ dropCRs ps → LF ∉ p).
    { clear. intros ps. induction ps as [|p [|p' ps] IH]; intros Hps q Hq;
        [by apply elem_of_nil in Hq|by apply Hps|].
      change (dropCRs (p :: p' :: ps)) with (dropCR p :: dropCRs (p' :: ps)) in Hq.
      apply elem_of_cons in Hq as [->|Hq].
      - assert (Hp : LF ∉ p) by (apply Hps; left).
        unfold dropCR. destruct (reverse p) as [|c r] eqn:E; [done|].
        destruct (c =? CR)%N; [|done].
        intros Hin. apply Hp. rewrite <- (reverse_involutive p), E.
        rewrite reverse_cons, elem_of_app. by left.
      - apply IH; [|done]. intros p0 Hp0. apply Hps. by right. }
    revert H. apply (Hfree (split LF text)); [|done].
    intros p Hp. by apply (split_free LF text p).
Qed.

Lemma loop_sublist env outDir i (pkgs : list jsstring) (st : Run) :
  ∃ more, spawned (state (loop env outDir i pkgs st)) = spawned st ++ more
          ∧ more `sublist_of` pkgs.
Proof.
  revert i st. induction pkgs as [|pkg rest IH]; intros i st.
  - exists []. by rewrite app_nil_r.
  - rewrite loop_cons. pose proof (job_spawned env outDir i pkg st) as Hsp.
    destruct (job env outDir i pkg st) as [st'|e st']; cbn in Hsp.
    + destruct (IH (S i) st') as (more & -> & Hsub). rewrite Hsp.
      case_bool_decide.
      * rewrite app_nil_r. exists more. split; [done|]. by apply sublist_cons.
      * rewrite <- app_assoc. exists (pkg :: more). split; [done|]. by apply sublist_skip.
    + cbn. rewrite Hsp. eexists. split; [done|].
      case_bool_decide; [apply sublist_nil_l|].
      apply sublist_skip, sublist_nil_l.
Qed.

Lemma job_frame env outDir i pkg st k :
  k ≠ artifact outDir pkg →
  (∀ files, docker env i pkg (dir st) = Exited files → files !! k = dir st !! k) →
  dir (state (job env outDir i pkg st)) !! k = dir st !! k.
Proof.
  intros Hk Hspare.
  destruct (dir st !! artifact outDir pkg) as [c|] eqn:E.
  - rewrite job_skip; [done|]. by rewrite E.
  - rewrite job_dir by done.
    destruct (docker env i pkg (dir st)) as [m|files] eqn:Ed; [done|].
    by apply Hspare.
Qed.

Lemma loop_frame env outDir (pkgs : list jsstring) i (st : Run) (k : jsstring) :
  spares env pkgs k →
  (∀ P, P ∈ spawned (state (loop env outDir i pkgs st)) → k ≠ artifact outDir P) →
  dir (state (loop env outDir i pkgs st)) !! k = dir st !! k.
Proof.
  revert i st. induction pkgs as [|pkg rest IH]; intros i st Hspare Hk; [done|].
  rewrite loop_cons in Hk |- *.
  pose proof (job_spawned env outDir i pkg st) as Hsp.
  assert (Hpkg : dir st !! artifact outDir pkg = None →
                 pkg ∈ spawned (state (job env outDir i pkg st))).
  { intros Hnone. rewrite Hsp, bool_decide_false by (rewrite Hnone; by intros [? ?]).
    apply elem_of_app. right. by left. }
  assert (Hjob : (∀ P, P ∈ spawned (state (job env outDir i pkg st)) →
                       k ≠ artifact outDir P) →
                 dir (state (job env outDir i pkg st)) !! k = dir st !! k).
  { intros Hk'. destruct (dir st !! artifact outDir pkg) as [c|] eqn:E.
    - rewrite job_skip; [done|]. by rewrite E.
    - apply job_frame; [by apply Hk', Hpkg|].
      intros files Hd. eapply Hspare; [|exact Hd]. by left. }
  destruct (job env outDir i pkg st) as [st1|e st1] eqn:Ej; cbn in Hjob, Hpkg.
  - rewrite IH; [|by eapply spares_tail|done].
    apply Hjob. intros P HP. apply Hk.
    destruct (loop_sublist env outDir (S i) rest st1) as (more & -> & _).
    apply elem_of_app. by left.
  - cbn in Hk |- *. by apply Hjob.
Qed.

(** X11. The script itself writes no file but the artifacts: however a
    run ends, a path that the containers it starts leave alone and that
    is not the artifact of a package Docker was started for holds at the
    end what it held at the start. *)
Theorem run_writes_the_artifacts_only (env : Env) (outDir : jsstring)
    (pkgs : list jsstring) (d : gmap jsstring Node) (k : jsstring) :
  spares env pkgs k →
  (∀ P, P ∈ spawned (state (scan env outDir pkgs d)) → k ≠ artifact outDir P) →
  dir (state (scan env outDir pkgs d)) !! k = d !! k.
Proof.
  intros Hspare Hk. unfold scan in *.
  by rewrite (loop_frame env outDir pkgs 0 _ k Hspare Hk).
Qed.

Lemma run_writes_the_artifacts_only_witness :
  dir (state (scan Demo.withDocker (lit "out") [lit "left-pad"; lit "p"] Demo.resumed))
    !! lit "out/@scope+done.json"
  = Some (File (lit "earlier")).
Proof.
  rewrite (run_writes_the_artifacts_only Demo.withDocker (lit "out")
             [lit "left-pad"; lit "p"] Demo.resumed (lit "out/@scope+done.json")).
  - vm_compute. reflexivity.
  - intros i Q dd files HQ Hd.
    cbn [docker Demo.withDocker] in Hd. injection Hd as <-.
    unfold Demo.container.
    repeat (apply elem_of_cons in HQ as [->|HQ];
            [match goal with |- context [split ?c ?x] =>
               let t := eval vm_compute in (split c x) in
               change (split c x) with t
             end; cbv iota zeta;
             rewrite !lookup_insert_ne by (vm_compute; discriminate); reflexivity|]).
    by apply elem_of_nil in HQ.
  - intros P HP. vm_compute in HP.
    apply list_elem_of_singleton in HP as ->. vm_compute. discriminate.
Defined.

Lemma loop_once env outDir (all : list jsstring) :
  keeps_artifacts env outDir all →
  ∀ (pkgs : list jsstring) i (st : Run),
    pkgs ⊆ all →
    (∀ P, P ∈ spawned st → P ∈ all ∧ is_Some (dir st !! artifact outDir P)) →
    NoDup (artifact outDir <$> spawned st) →
    (∀ st', loop env outDir i pkgs st = Next st' →
       ∀ P, P ∈ spawned st' → is_Some (dir st' !! artifact outDir P))
    ∧ NoDup (artifact outDir <$> spawned (state (loop env outDir i pkgs st)))
    ∧ ∃ more, spawned (state (loop env outDir i pkgs st)) = spawned st ++ more
              ∧ ∀ P, P ∈ more → P ∈ pkgs ∧ dir st !! artifact outDir P = None.
Proof.
  intros Hall pkgs. induction pkgs as [|pkg rest IH]; intros i st Hsub Hinv Hnd.
  - cbn. split; [intros st' [= <-] P HP; by apply Hinv|]. split; [done|]. exists [].
    rewrite app_nil_r. split; [done|]. intros P HP. by apply elem_of_nil in HP.
  - rewrite loop_cons.
    assert (Hpkg : pkg ∈ all) by (apply Hsub; by left).
    assert (Hkeep : ∀ P, P ∈ all → is_Some (dir st !! artifact outDir P) →
              is_Some (dir (state (job env outDir i pkg st)) !! artifact outDir P)).
    { intros P HP. by apply (keeps_artifacts_job env outDir all). }
    pose proof (job_spawned env outDir i pkg st) as Hsp.
    assert (Hnd' : NoDup (artifact outDir <$> spawned (state (job env outDir i pkg st)))).
    { rewrite Hsp. case_bool_decide as Hex; [by rewrite app_nil_r|].
      rewrite fmap_app. apply NoDup_app. split; [done|]. split; [|apply NoDup_singleton].
      intros s Hs Hs'. apply list_elem_of_singleton in Hs' as ->.
      apply list_elem_of_fmap in Hs as (Q & HQ & HQin).
      apply Hex. rewrite HQ. by apply Hinv. }
    assert (Hnew : ∀ P, P ∈ (if bool_decide (is_Some (dir st !! artifact outDir pkg))
                             then [] else [pkg]) →
                        P ∈ pkg :: rest ∧ dir st !! artifact outDir P = None).
    { intros P. case_bool_decide as Hex; [by intros ?%elem_of_nil|].
      intros ->%list_elem_of_singleton. split; [by left|]. by apply eq_None_not_Some. }
    destruct (job env outDir i pkg st) as [st1|e st1] eqn:Ej; cbn in Hkeep, Hsp, Hnd'.
    + destruct (IH (S i) st1) as (H1 & H2 & more & Hmore & Hnone).
      * intros x Hx. apply Hsub. by right.
      * intros P. rewrite Hsp, elem_of_app. intros [HP|HP].
        -- destruct (Hinv P HP). split; [done|]. by apply Hkeep.
        -- case_bool_decide as Hex; [by apply elem_of_nil in HP|].
           apply list_elem_of_singleton in HP as ->. split; [done|].
           by eapply job_writes.
      * done.
      * split; [done|]. split; [done|].
        rewrite Hmore, Hsp, <- app_assoc. eexists. split; [done|].
        intros P [HP|HP]%elem_of_app; [by apply Hnew|].
        destruct (Hnone P HP) as [Hin Hno]. split; [by right|].
        destruct (dir st !! artifact outDir P) as [c|] eqn:E; [|done].
        destruct (Hkeep P) as [c' Hc']; [apply Hsub; by right|by rewrite E|congruence].
    + cbn. split; [done|]. split; [done|]. rewrite Hsp. eexists. split; [done|].
      exact Hnew.
Qed.

(** X12. In one run Docker is started at most once for an entry of the
    list, in the order of the list; and when the containers of the run
    remove no artifact of the list, it is started at most once for an
    artifact: the artifacts of the packages it was started for are
    pairwise distinct, none was there at the start, and each is there
    at the end of a run that comes to its end. *)
Theorem docker_is_spawned_once_for_an_artifact (env : Env) (outDir : jsstring)
    (pkgs : list jsstring) (d : gmap jsstring Node) :
  spawned (state (scan env outDir pkgs d)) `sublist_of` pkgs
  ∧ (keeps_artifacts env outDir pkgs →
       NoDup (artifact outDir <$> spawned (state (scan env outDir pkgs d)))
       ∧ (∀ P, P ∈ spawned (state (scan env outDir pkgs d)) →
            d !! artifact outDir P = None)
       ∧ ∀ st, scan env outDir pkgs d = Next st →
           ∀ P, P ∈ spawned st → is_Some (dir st !! artifact outDir P)).
Proof.
  unfold scan. split.
  - destruct (loop_sublist env outDir 0 pkgs {| dir := d; spawned := [] |})
      as (more & -> & Hsub). done.
  - intros Hkeep.
    destruct (loop_once env outDir pkgs Hkeep pkgs 0 {| dir := d; spawned := [] |})
      as (H1 & H2 & more & Hmore & Hnone).
    + done.
    + intros P HP. by apply elem_of_nil in HP.
    + constructor.
    + cbn in Hmore. split; [done|]. split; [|done].
      intros P HP. rewrite Hmore in HP. by apply Hnone.
Qed.
End SandboxReach.

(* --------------------------------------------------------------------- *)
(** ** Server: the heuristic on its own, the captured domains *)
(* --------------------------------------------------------------------- *)

Section ServerEdges.
Import JS Server.

(** X13. The rule for a single long line never decides anything: a text
    is flagged exactly when it has more than 200 characters for each of
    its lines, so a single line is flagged from 201 characters on, and a
    text of at most 200 characters, the empty one among them, never. *)
Theorem single_line_rule_is_subsumed (code : jsstring) :
  (Scanner.isObfuscated code = true ↔ (200 * lineCount code < length code)%nat)
  ∧ (lineCount code = 1%nat →
     (Scanner.isObfuscated code = true ↔ (200 < length code)%nat))
  ∧ ((length code ≤ 200)%nat → Scanner.isObfuscated code = false).
Proof.
  assert (H : Scanner.isObfuscated code = true
              ↔ (200 * lineCount code < length code)%nat).
  { rewrite isObfuscated_true. split; [|by right].
    intros [[H1 H2]|H]; [|done]. rewrite H1. lia. }
  split; [done|]. split.
  - intros H1. rewrite H, H1. lia.
  - intros Hle. apply not_true_is_false. rewrite H. unfold lineCount. lia.
Qed.

Lemma dedup_spec {X} `{EqDecision X} (seen a : list X) :
  NoDup (dedup seen a) ∧ ∀ x, x ∈ dedup seen a ↔ x ∈ a ∧ x ∉ seen.
Proof.
  revert seen. induction a as [|y a IH]; intros seen; cbn.
  - split; [constructor|]. intros x. rewrite elem_of_nil. tauto.
  - destruct (decide (y ∈ seen)) as [Hin|Hnin].
    + destruct (IH seen) as [H1 H2]. split; [done|]. intros x.
      rewrite H2, elem_of_cons. split; [tauto|]. intros [[->|?] ?]; tauto.
    + destruct (IH (y :: seen)) as [H1 H2]. split.
      * constructor; [|done]. rewrite H2, elem_of_cons. tauto.
      * intros x. rewrite !elem_of_cons, H2, elem_of_cons.
        destruct (decide (x = y)) as [->|]; tauto.
Qed.

Lemma capturedDomains_spec (stdout : jsstring) :
  NoDup (capturedDomains stdout)
  ∧ ∀ d, d ∈ capturedDomains stdout ↔
         d ≠ [] ∧ ∃ line, line ∈ split LF stdout ∧ d = trim line.
Proof.
  unfold capturedDomains.
  destruct (dedup_spec [] (filter (λ d, truthy d) (trim <$> split LF stdout)))
    as [H1 H2].
  split; [done|]. intros d. rewrite H2, list_elem_of_filter, list_elem_of_fmap.
  rewrite elem_of_nil. split.
  - intros [[Ht (l & -> & Hl)] _]. split; [by destruct (trim l)|eauto].
  - intros [Hne (l & Hl & ->)]. split; [|tauto]. split; [by destruct (trim l)|eauto].
Qed.

(** X14. The domains [/scan/c2] looks up are distinct, non-empty and
    trimmed; and [/scan/score], which removes duplicates before trimming,
    counts at least as many. *)
Theorem score_counts_at_least_the_looked_up (auditResults : Audit)
    (stdout : jsstring) :
  NoDup (capturedDomains stdout)
  ∧ (∀ d, d ∈ capturedDomains stdout → d ≠ [] ∧ trim d = d ∧ (LF ∉ d))
  ∧ Z.of_nat (length (capturedDomains stdout))
    ≤ c2Count (scanScore auditResults stdout).
Proof.
  destruct (capturedDomains_spec stdout) as [Hnd Hin].
  split; [done|]. split.
  - intros d Hd. apply Hin in Hd as [Hne (l & Hl & ->)].
    split; [done|]. split; [apply trim_idem|].
    intros H. apply trim_sub in H. by apply (split_free LF stdout l).
  - cbn [scanScore c2Count]. apply inj_le.
    set (raw := dedup [] (filter (λ line, trim line ≠ []) (split LF stdout))).
    rewrite <- (length_fmap trim raw).
    apply submseteq_length, NoDup_submseteq; [done|].
    intros d Hd. apply Hin in Hd as [Hne (l & Hl & ->)].
    apply list_elem_of_fmap. exists l. split; [done|].
    apply dedup_spec. split; [|apply not_elem_of_nil].
    apply list_elem_of_filter. by split.
Qed.

(** X15. [/scan/c2] sends no request when the capture holds blank lines
    only; otherwise it sends one request for each of the first five
    distinct domains and no other, and answers with as many entries. *)
Theorem c2_route_queries {Data : Type} (axios_get : jsstring → jsstring + Data)
    (stdout : jsstring) :
  let r := C2Route.scanC2 axios_get stdout in
  let url d := lit "https://www.virustotal.com/api/v3/domains/" ++ d in
  r.2 = (λ d, [Delay 1000; Get (url d)]) <$> take 5 (capturedDomains stdout)
  ∧ (length r.2 ≤ 5)%nat
  ∧ ((∀ line, line ∈ split LF stdout → blank line) ↔
     r.1 = C2Route.NoQueries (lit "No DNS queries captured"))
  ∧ (∀ entries, r.1 = C2Route.Domains entries →
       length entries = length r.2 ∧ (1 ≤ length entries)%nat).
Proof.
  cbv zeta. unfold C2Route.scanC2.
  destruct (capturedDomains_spec stdout) as [Hnd Hin].
  assert (Hblank : (∀ line, line ∈ split LF stdout → blank line)
                   ↔ capturedDomains stdout = []).
  { split.
    - intros Hall.
      destruct (decide (capturedDomains stdout = [])) as [|Hne]; [done|].
      assert (∃ d, d ∈ capturedDomains stdout) as [d Hd].
      { clear -Hne. destruct (capturedDomains stdout); [done|eexists; left]. }
      apply Hin in Hd as [Hd (l & Hl & ->)]. by apply Hall, trim_nil in Hl.
    - intros Hnil line Hl. apply trim_nil.
      destruct (trim line) as [|c s] eqn:E; [done|].
      assert (Hd : c :: s ∈ capturedDomains stdout).
      { apply Hin. split; [done|]. exists line. by rewrite E. }
      rewrite Hnil in Hd. by apply elem_of_nil in Hd. }
  rewrite Hblank.
  destruct (capturedDomains stdout) as [|d ds] eqn:E.
  - cbn. repeat split; try done. lia.
  - change (length (d :: ds) =? 0)%nat with false. cbv iota.
    unfold enrich. cbn [fst snd].
    rewrite slice0_take by (unfold maxQueries; lia).
    change (Z.to_nat maxQueries) with 5%nat.
    set (settled := queryVirusTotal axios_get <$> take 5 (d :: ds)).
    assert (Hlen : length settled = (5 `min` S (length ds))%nat).
    { unfold settled. by rewrite length_fmap, length_take. }
    split; [|split; [|split]].
    + unfold settled. rewrite <- !list_fmap_compose. apply list_fmap_ext. intros _ x _.
      unfold compose, queryVirusTotal. by destruct (axios_get _).
    + clearbody settled. rewrite length_fmap. lia.
    + split; [done|]. intros H. discriminate H.
    + clearbody settled. intros entries H. injection H as <-.
      rewrite !length_fmap. split; lia.
Qed.
End ServerEdges.

(* --------------------------------------------------------------------- *)
(** ** The directory walk *)
(* --------------------------------------------------------------------- *)

Section Walk.
Import JS Walker.

Lemma Dirent_nested_ind (P : Dirent → Prop) :
  (∀ n, P (DFile n)) → (∀ n, P (DOther n)) → (∀ n, P (DDir n None)) →
  (∀ n es, Forall P es → P (DDir n (Some es))) →
  ∀ d, P d.
Proof.
  intros HF HO HN HD. fix IH 1. intros [n|n [es|]|n].
  - apply HF.
  - apply HD. induction es as [|e es IHes]; constructor; [apply IH|apply IHes].
  - apply HN.
  - apply HO.
Qed.

Lemma collected_trans (maxFiles : nat) (root sub : jsstring)
    (acc acc' r : list jsstring) :
  (root ++ lit "/") `prefix_of` (sub ++ lit "/") →
  collected maxFiles root acc acc' → collected maxFiles sub acc' r →
  collected maxFiles root acc r.
Proof.
  intros Hsub (H1 & H2 & H3) (K1 & K2 & K3). split; [by etrans|]. split; [lia|].
  intros p Hp. destruct (K3 p Hp) as [Hacc'|[Hjs Hpre]].
  - by apply H3.
  - right. split; [done|]. by etrans.
Qed.

Lemma collected_refl (maxFiles : nat) (root : jsstring) (acc : list jsstring) :
  collected maxFiles root acc acc.
Proof. split; [done|]. split; [lia|]. intros p Hp. by left. Qed.

Lemma collected_push (maxFiles : nat) (root name : jsstring) (acc : list jsstring) :
  (length acc < maxFiles)%nat → Inputs.endsWith name (lit ".js") = true →
  collected maxFiles root acc (acc ++ [full root name]).
Proof.
  intros Hlen Hjs. split; [by eexists|]. split; [rewrite length_app; cbn; lia|].
  intros p [Hp| ->%list_elem_of_singleton]%elem_of_app; [by left|]. right.
  unfold Inputs.endsWith in Hjs. apply bool_decide_eq_true in Hjs as [pre Hname].
  split.
  - exists (root ++ lit "/" ++ pre). unfold full. rewrite Hname.
    by rewrite <- !app_assoc.
  - exists name. unfold full. by rewrite <- app_assoc.
Qed.

Lemma collectJsFiles_collected (here : Dirent) :
  ∀ root maxFiles maxDepth curDepth acc r,
    collectJsFiles root here maxFiles maxDepth curDepth acc = Some r →
    collected maxFiles root acc r.
Proof.
  induction here as [n|n|n|n es IH] using Dirent_nested_ind;
    intros root maxFiles maxDepth curDepth acc r; cbn [collectJsFiles];
    destruct ((maxDepth <? curDepth)%nat || (maxFiles <=? length acc)%nat) eqn:Hg;
    try (intros [= <-]; apply collected_refl); try done.
  clear Hg. revert acc. induction es as [|e es IHes]; intros acc.
  - intros [= <-]. apply collected_refl.
  - apply Forall_cons in IH as [IHe IH]. specialize (IHes IH).
    destruct (Nat.leb_spec maxFiles (length acc)) as [Hfull|Hroom].
    { intros [= <-]. apply collected_refl. }
    destruct e as [name|name sub|name].
    + destruct (Inputs.endsWith name (lit ".js")) eqn:Hjs; [|by apply IHes].
      intros H. apply IHes in H.
      eapply (collected_trans _ root root); [done| |exact H].
      by apply collected_push.
    + destruct (bool_decide (name = lit "node_modules")); [by apply IHes|].
      destruct (collectJsFiles (full root name) (DDir name sub) maxFiles maxDepth
                  (S curDepth) acc) as [acc'|] eqn:Hsub; [|done].
      intros H. apply IHes in H. apply IHe in Hsub.
      eapply (collected_trans _ root root); [done| |exact H].
      eapply (collected_trans _ root (full root name)); [|apply collected_refl|exact Hsub].
      exists (name ++ lit "/"). unfold full. by rewrite <- !app_assoc.
    + by apply IHes.
Qed.

(** X16. The walk only adds to the list it is given, never lets it grow
    beyond [maxFiles], and adds nothing but paths under the root it was
    called on whose names end in [.js]. *)
Theorem walk_is_bounded (root : jsstring) (here : Dirent)
    (maxFiles maxDepth curDepth : nat) (acc r : list jsstring) :
  collectJsFiles root here maxFiles maxDepth curDepth acc = Some r →
  acc `prefix_of` r
  ∧ (length r ≤ maxFiles `max` length acc)%nat
  ∧ ∀ p, p ∈ r →
      p ∈ acc ∨ (lit ".js" `suffix_of` p ∧ (root ++ lit "/") `prefix_of` p).
Proof. apply collectJsFiles_collected. Qed.

(** X17. The route answers with one verdict for each collected file, at
    most 200 of them, each about a file whose name ends in [.js], whether
    or not it could be read. *)
Theorem one_verdict_per_file (realRoot : jsstring) (here : Dirent)
    (readFile : jsstring → jsstring + jsstring) (payload : Payload) :
  scanObfuscation realRoot here readFile = Some payload →
  length (results payload) = fileCount payload
  ∧ (fileCount payload ≤ 200)%nat
  ∧ ∀ v, v ∈ results payload →
      ∃ file, lit ".js" `suffix_of` file ∧ (realRoot ++ lit "/") `prefix_of` file
        ∧ match readFile file with
          | inr code => v = Scanned (relative realRoot file) (Scanner.isObfuscated code)
          | inl e => v = Unread (relative realRoot file) e
          end.
Proof.
  unfold scanObfuscation.
  destruct (collectJsFiles realRoot here 200 4 0 []) as [files|] eqn:E; [|done].
  intros [= <-]. cbn [results fileCount].
  apply collectJsFiles_collected in E as (_ & Hlen & Hall).
  split; [by rewrite length_fmap|]. split; [cbn in Hlen; lia|].
  intros v Hv. apply list_elem_of_fmap in Hv as (file & -> & Hfile).
  destruct (Hall file Hfile) as [Hnil|[H1 H2]]; [by apply elem_of_nil in Hnil|].
  exists file. split; [done|]. split; [done|]. by destruct (readFile file).
Qed.
Lemma each_unfold (root n : jsstring) (es : list Dirent)
    (maxFiles maxDepth curDepth : nat) (acc : list jsstring) :
  (curDepth ≤ maxDepth)%nat → (length acc < maxFiles)%nat →
  collectJsFiles root (DDir n (Some es)) maxFiles maxDepth curDepth acc =
  match es with
  | [] => Some acc
  | e :: es' =>
      match e with
      | DDir name _ =>
          if bool_decide (name = lit "node_modules")
          then collectJsFiles root (DDir n (Some es')) maxFiles maxDepth curDepth acc
          else
            match collectJsFiles (full root name) e maxFiles maxDepth
                    (S curDepth) acc with
            | Some acc' =>
                if (maxFiles <=? length acc')%nat then Some acc'
                else collectJsFiles root (DDir n (Some es')) maxFiles maxDepth
                       curDepth acc'
            | None => None
            end
      | DFile name =>
          if Inputs.endsWith name (lit ".js")
          then if (maxFiles <=? S (length acc))%nat then Some (acc ++ [full root name])
               else collectJsFiles root (DDir n (Some es')) maxFiles maxDepth
                      curDepth (acc ++ [full root name])
          else collectJsFiles root (DDir n (Some es')) maxFiles maxDepth curDepth acc
      | DOther _ =>
          collectJsFiles root (DDir n (Some es')) maxFiles maxDepth curDepth acc
      end
  end.
Proof.
  intros Hd Hroom.
  assert (Hg : ∀ a : list jsstring,
    (length a < maxFiles)%nat →
    (maxDepth <? curDepth)%nat || (maxFiles <=? length a)%nat = false).
  { intros a Ha. apply orb_false_iff. split.
    - apply Nat.ltb_ge. lia.
    - apply Nat.leb_gt. lia. }
  assert (Hstop : ∀ (a : list jsstring) es',
    (maxFiles ≤ length a)%nat →
    (fix each (es0 : list Dirent) (acc0 : list jsstring) {struct es0} :=
       match es0 with
       | [] => Some acc0
       | e0 :: es'0 =>
           if (maxFiles <=? length acc0)%nat then Some acc0
           else
             match e0 with
             | DFile name =>
                 if Inputs.endsWith name (lit ".js")
                 then each es'0 (acc0 ++ [full root name])
                 else each es'0 acc0
             | DDir name _ =>
                 if bool_decide (name = lit "node_modules") then each es'0 acc0
                 else
                   match collectJsFiles (full root name) e0 maxFiles maxDepth
                           (S curDepth) acc0 with
                   | Some acc' => each es'0 acc'
                   | None => None
                   end
             | DOther _ => each es'0 acc0
             end
       end) es' a = Some a).
  { intros a [|e0 es'] Ha; [done|]. by rewrite (proj2 (Nat.leb_le _ _) Ha). }
  cbn [collectJsFiles].
  rewrite !(proj2 (Nat.ltb_ge maxDepth curDepth) Hd). cbn [orb].
  rewrite !(proj2 (Nat.leb_gt _ _) Hroom).
  destruct es as [|e es']; [done|].
  rewrite ?(proj2 (Nat.leb_gt _ _) Hroom).
  destruct e as [name|name sub|name]; try done.
  - destruct (Inputs.endsWith name (lit ".js")); [|done].
    rewrite length_app, Nat.add_1_r. cbn [length].
    destruct (Nat.leb_spec maxFiles (S (length acc))) as [Hfull|Hroom']; [|done].
    apply Hstop. rewrite length_app. cbn. lia.
  - destruct (bool_decide (name = lit "node_modules")); [done|].
    destruct (collectJsFiles (full root name) (DDir name sub) maxFiles maxDepth
                (S curDepth) acc) as [acc'|]; [|done].
    destruct (Nat.leb_spec maxFiles (length acc')) as [Hfull|Hroom']; [|done].
    by apply Hstop.
Qed.

Lemma collectJsFiles_stop (root : jsstring) (here : Dirent)
    (maxFiles maxDepth curDepth : nat) (acc : list jsstring) :
  (maxDepth < curDepth)%nat ∨ (maxFiles ≤ length acc)%nat →
  collectJsFiles root here maxFiles maxDepth curDepth acc = Some acc.
Proof.
  intros H.
  assert ((maxDepth <? curDepth)%nat || (maxFiles <=? length acc)%nat = true) as Hg.
  { apply orb_true_iff. destruct H; [left; by apply Nat.ltb_lt|right; by apply Nat.leb_le]. }
  destruct here as [?|? [?|]|?]; cbn [collectJsFiles]; by rewrite Hg.
Qed.

Lemma take_of_prefix (m : nat) (acc l : list jsstring) :
  acc `prefix_of` l → (m ≤ length acc)%nat → take m l = take m acc.
Proof. intros [k ->] Hm. by rewrite take_app_le. Qed.

Lemma smaller_cap (here : Dirent) :
  ∀ root m M maxDepth curDepth acc l,
    (m ≤ M)%nat → (length acc ≤ m)%nat →
    collectJsFiles root here M maxDepth curDepth acc = Some l →
    collectJsFiles root here m maxDepth curDepth acc = Some (take m l).
Proof.
  assert (Hfull : ∀ root h m M maxDepth curDepth acc l,
    (length acc ≤ m)%nat →
    (maxDepth < curDepth)%nat ∨ (m ≤ length acc)%nat →
    collectJsFiles root h M maxDepth curDepth acc = Some l →
    collectJsFiles root h m maxDepth curDepth acc = Some (take m l)).
  { intros root h m M maxDepth curDepth acc l Hacc Hstop Hbig.
    rewrite collectJsFiles_stop by done. f_equal.
    destruct Hstop as [Hd|Hm].
    - rewrite collectJsFiles_stop in Hbig by (by left).
      injection Hbig as <-. by rewrite take_ge.
    - apply collectJsFiles_collected in Hbig as [Hpre _].
      rewrite (take_of_prefix _ acc) by done. by rewrite take_ge. }
  induction here as [n|n|n|n es IH] using Dirent_nested_ind;
    intros root m M maxDepth curDepth acc l HmM Hacc Hbig;
    (destruct (decide ((maxDepth < curDepth)%nat ∨ (m ≤ length acc)%nat)) as [Hstop|Hgo];
     [by eapply Hfull|]);
    try (cbn [collectJsFiles] in Hbig;
         destruct ((maxDepth <? curDepth)%nat || (M <=? length acc)%nat) eqn:Hg;
         [|done]; apply orb_true_iff in Hg as [Hg%Nat.ltb_lt|Hg%Nat.leb_le]; lia).
  assert (Hd : (curDepth ≤ maxDepth)%nat) by lia.
  clear Hacc. assert (Hacc : (length acc < m)%nat) by lia. clear Hgo.
  revert acc l Hacc Hbig. induction es as [|e es IHes]; intros acc l Hacc Hbig.
  - rewrite each_unfold in Hbig by lia. rewrite each_unfold by lia.
    injection Hbig as <-. by rewrite take_ge by lia.
  - apply Forall_cons in IH as [IHe IH]. specialize (IHes IH).
    rewrite each_unfold in Hbig by lia. rewrite each_unfold by lia.
    destruct e as [name|name sub|name].
    + destruct (Inputs.endsWith name (lit ".js")); [|by apply IHes].
      assert (Hlen : length (acc ++ [full root name]) = S (length acc)).
      { rewrite length_app. cbn. lia. }
      destruct (Nat.leb_spec m (S (length acc))) as [Hm|Hm].
      * f_equal. symmetry.
        assert (Hpre : (acc ++ [full root name]) `prefix_of` l).
        { destruct (M <=? S (length acc))%nat; [by injection Hbig as <-|].
          by apply collectJsFiles_collected in Hbig as [? _]. }
        rewrite (take_of_prefix _ _ _ Hpre) by lia. apply take_ge. lia.
      * destruct (Nat.leb_spec M (S (length acc))) as [HM|HM]; [lia|].
        apply IHes; [lia|done].
    + destruct (bool_decide (name = lit "node_modules")); [by apply IHes|].
      destruct (collectJsFiles (full root name) (DDir name sub) M maxDepth
                  (S curDepth) acc) as [acc'|] eqn:Hsub; [|done].
      rewrite (IHe _ m M _ _ _ _ HmM (Nat.lt_le_incl _ _ Hacc) Hsub).
      assert (Hpre : acc' `prefix_of` l).
      { destruct (M <=? length acc')%nat; [by injection Hbig as <-|].
        by apply collectJsFiles_collected in Hbig as [? _]. }
      destruct (Nat.leb_spec m (length (take m acc'))) as [Hm|Hm].
      * f_equal. symmetry. rewrite length_take in Hm.
        apply take_of_prefix; [done|lia].
      * rewrite length_take in Hm.
        destruct (Nat.leb_spec M (length acc')) as [HM|HM]; [lia|].
        rewrite take_ge by lia. apply IHes; [lia|done].
    + by apply IHes.
Qed.

(** X18. The cap on the number of files only cuts the walk short: with
    a smaller cap the walk returns the first files of what it returns with
    a larger one, and succeeds wherever the larger walk does. *)
Theorem smaller_cap_gives_the_first_files (root : jsstring) (here : Dirent)
    (m M maxDepth curDepth : nat) (l : list jsstring) :
  (m ≤ M)%nat →
  collectJsFiles root here M maxDepth curDepth [] = Some l →
  collectJsFiles root here m maxDepth curDepth [] = Some (take m l).
Proof. intros HmM. apply smaller_cap; [done|cbn; lia]. Qed.
Lemma prune_cons (n : jsstring) (e : Dirent) (es : list Dirent) :
  prune (DDir n (Some (e :: es))) =
  match prune (DDir n (Some es)) with
  | DDir _ (Some es') =>
      match e with
      | DDir name _ =>
          if bool_decide (name = lit "node_modules") then DDir n (Some es')
          else DDir n (Some (prune e :: es'))
      | _ => DDir n (Some (e :: es'))
      end
  | d => d
  end.
Proof.
  cbn [prune]. destruct e as [name|name sub|name]; try done.
  by destruct (bool_decide (name = lit "node_modules")).
Qed.

(** X19. The walk never looks into a directory named [node_modules]:
    whatever such directories hold, at any depth, and whether or not they
    can be read, the walk returns what it returns on the tree without
    them. *)
Theorem walk_ignores_node_modules (root : jsstring) (here : Dirent)
    (maxFiles maxDepth curDepth : nat) (acc : list jsstring) :
  collectJsFiles root (prune here) maxFiles maxDepth curDepth acc
  = collectJsFiles root here maxFiles maxDepth curDepth acc.
Proof.
  revert root maxFiles maxDepth curDepth acc.
  induction here as [n|n|n|n es IH] using Dirent_nested_ind; try done.
  induction es as [|e es IHes]; [done|].
  apply Forall_cons in IH as [IHe IH]. specialize (IHes IH).
  intros root maxFiles maxDepth curDepth acc.
  destruct (decide ((maxDepth < curDepth)%nat ∨ (maxFiles ≤ length acc)%nat))
    as [Hstop|Hgo].
  { by rewrite !collectJsFiles_stop. }
  rewrite prune_cons. rewrite (each_unfold _ _ (e :: es)) by lia.
  assert (Hes : ∃ es', prune (DDir n (Some es)) = DDir n (Some es')).
  { cbn [prune]. eauto. }
  destruct Hes as [es' Hes]. rewrite Hes in IHes |- *. cbv match beta.
  destruct e as [name|name sub|name].
  - rewrite (each_unfold _ _ (DFile name :: es')) by lia. by rewrite !IHes.
  - destruct (bool_decide (name = lit "node_modules")) eqn:Hnm; [apply IHes|].
    assert (Hsub : ∃ sub', prune (DDir name sub) = DDir name sub').
    { destruct sub; cbn [prune]; eauto. }
    destruct Hsub as [sub' Hsub]. rewrite Hsub in IHe |- *.
    rewrite (each_unfold _ _ (DDir name sub' :: es')) by lia.
    rewrite Hnm, IHe.
    destruct (collectJsFiles (full root name) (DDir name sub) maxFiles maxDepth
                (S curDepth) acc) as [acc'|]; [|done].
    by rewrite IHes.
  - rewrite (each_unfold _ _ (DOther name :: es')) by lia. by rewrite !IHes.
Qed.

Lemma walk_is_bounded_witness :
  collectJsFiles (lit "/pkg") Tree.package 200 4 0 []
  = Some [lit "/pkg/index.js"; lit "/pkg/lib/util.js"]
  ∧ (length [lit "/pkg/index.js"; lit "/pkg/lib/util.js"] ≤ 200 `max` 0)%nat.
Proof.
  assert (H : collectJsFiles (lit "/pkg") Tree.package 200 4 0 []
              = Some [lit "/pkg/index.js"; lit "/pkg/lib/util.js"])
    by (vm_compute; reflexivity).
  split; [exact H|].
  exact (proj1 (proj2 (walk_is_bounded _ _ _ _ _ _ _ H))).
Defined.

Lemma one_verdict_per_file_witness :
  ∃ payload,
    scanObfuscation (lit "/pkg") Tree.package Tree.readFile = Some payload
    ∧ results payload
      = [Scanned (lit "index.js") false; Unread (lit "lib/util.js") (lit "EACCES")]
    ∧ length (results payload) = fileCount payload.
Proof.
  eexists. split; [vm_compute; reflexivity|]. split; [vm_compute; reflexivity|].
  refine (proj1 (one_verdict_per_file (lit "/pkg") Tree.package Tree.readFile _ _)).
  vm_compute; reflexivity.
Defined.

Lemma smaller_cap_gives_the_first_files_witness :
  collectJsFiles (lit "/pkg") Tree.package 1 4 0 [] = Some [lit "/pkg/index.js"].
Proof.
  apply (smaller_cap_gives_the_first_files (lit "/pkg") Tree.package 1 200 4 0
           [lit "/pkg/index.js"; lit "/pkg/lib/util.js"]).
  - lia.
  - vm_compute; reflexivity.
Defined.
End Walk.

(* --------------------------------------------------------------------- *)
(** ** The summaries, the cutoff filter, the sample *)
(* --------------------------------------------------------------------- *)

Section Summaries.
Import JS.

Lemma flaggedHere_empty (data : C2Summary.Data) (domains : list jsstring) :
  C2Summary.vt data = ∅ → C2Summary.flaggedHere data domains = 0%nat.
Proof.
  intros Hvt. unfold C2Summary.flaggedHere.
  induction domains as [|d ds IH] using rev_ind; [done|].
  rewrite foldl_app. cbn. by rewrite IH, Hvt, lookup_empty.
Qed.

Lemma c2_count_fold (files : list C2Summary.Data) (s : C2Summary.Summary) :
  let s' := foldl C2Summary.count s files in
  (C2Summary.withFlagged s ≤ C2Summary.withDns s ≤ C2Summary.total s →
   C2Summary.withFlagged s' ≤ C2Summary.withDns s' ≤ C2Summary.total s')%nat
  ∧ C2Summary.total s' = (C2Summary.total s + length files)%nat
  ∧ (Forall (λ data, C2Summary.vt data = ∅) files →
     C2Summary.withFlagged s' = C2Summary.withFlagged s).
Proof.
  cbv zeta. revert s. induction files as [|data files IH]; intros s; cbn [foldl].
  - repeat split; try lia; done.
  - destruct (IH (C2Summary.count s data)) as (H1 & H2 & H3).
    split; [|split].
    + intros Hs. apply H1. unfold C2Summary.count. cbn.
      destruct (default [] (C2Summary.domains data)) as [|d ds]; cbn -[C2Summary.flaggedHere].
      * change (C2Summary.flaggedHere data []) with 0%nat. cbn. lia.
      * destruct (C2Summary.flaggedHere data (d :: ds)); lia.
    + rewrite H2. cbn. lia.
    + intros [Hd Hf]%Forall_cons. rewrite (H3 Hf). unfold C2Summary.count.
      cbn [C2Summary.withFlagged]. by rewrite (flaggedHere_empty _ _ Hd).
Qed.

(** X20. In the summary of the sandbox results the flagged packages are
    among those with a domain, and these among the result files, which
    are the directory entries that end in [.json]; results that carry no
    reputation data, as the sandbox driver writes them, give no flagged
    package. *)
Theorem c2_summary_counts (dir : list (jsstring * C2Summary.Data)) :
  let s := C2Summary.summarize dir in
  (C2Summary.withFlagged s ≤ C2Summary.withDns s ≤ C2Summary.total s)%nat
  ∧ C2Summary.total s
    = length (filter (λ f, lit ".json" `suffix_of` f.1) dir)
  ∧ ((∀ f, f ∈ dir → C2Summary.vt f.2 = ∅) → C2Summary.withFlagged s = 0%nat).
Proof.
  cbv zeta. unfold C2Summary.summarize.
  set (files := filter (λ f, Inputs.endsWith f.1 (lit ".json")) dir).
  destruct (c2_count_fold (snd <$> files)
              {| C2Summary.total := 0; C2Summary.withDns := 0;
                 C2Summary.withFlagged := 0 |}) as (H1 & H2 & H3).
  split; [apply H1; cbn; lia|]. split.
  - rewrite H2, length_fmap. cbn. unfold files. f_equal.
    apply list_filter_iff. intros f. unfold Inputs.endsWith.
    by rewrite bool_decide_spec.
  - intros Hall. rewrite H3; [done|]. apply Forall_fmap, Forall_forall.
    intros f Hf. apply Hall. unfold files in Hf.
    by apply list_elem_of_filter in Hf as [_ ?].
Qed.

Lemma scan_count_fold (files : list ScanSummary.Data) (s : ScanSummary.Summary) :
  let s' := foldl ScanSummary.count s files in
  ((ScanSummary.ok s + ScanSummary.errors s = ScanSummary.total s →
    ScanSummary.ok s' + ScanSummary.errors s' = ScanSummary.total s')
   ∧ (ScanSummary.flagged s ≤ ScanSummary.total s →
      ScanSummary.flagged s' ≤ ScanSummary.total s')
   ∧ ScanSummary.total s' = ScanSummary.total s + length files
   ∧ (Forall (λ data, ScanSummary.results data = None) files →
      ScanSummary.ok s' = ScanSummary.ok s
      ∧ ScanSummary.errors s' = ScanSummary.errors s + length files))%nat.
Proof.
  cbv zeta. revert s. induction files as [|data files IH]; intros s; cbn [foldl].
  - repeat split; try lia; done.
  - destruct (IH (ScanSummary.count s data)) as (H1 & H2 & H3 & H4).
    assert (Hstep : (ScanSummary.total (ScanSummary.count s data)
                     = S (ScanSummary.total s))%nat).
    { unfold ScanSummary.count. by destruct (ScanSummary.results data) as [[|r rs]|]. }
    split; [|split; [|split]].
    + intros Hs. apply H1. unfold ScanSummary.count.
      destruct (ScanSummary.results data) as [[|r rs]|]; cbn -[ScanSummary.some]; try lia.
      destruct (ScanSummary.some ScanSummary.hasError (r :: rs)); cbn; lia.
    + intros Hs. apply H2. unfold ScanSummary.count.
      destruct (ScanSummary.results data) as [[|r rs]|]; cbn -[ScanSummary.some]; try lia.
      destruct (ScanSummary.some ScanSummary.isFlagged (r :: rs)); cbn; lia.
    + rewrite H3, Hstep. cbn. lia.
    + intros [Hd Hf]%Forall_cons. destruct (H4 Hf) as [-> ->].
      unfold ScanSummary.count. rewrite Hd. cbn. lia.
Qed.

(** X21. In the summary of the obfuscation scans every result file is
    counted as ok or as an error, never as both; the flagged ones are
    among the files; and a file without results, as the scan driver's
    error files are, counts as an error. *)
Theorem scan_summary_counts (dir : list (jsstring * ScanSummary.Data)) :
  let s := ScanSummary.summarize dir in
  (ScanSummary.ok s + ScanSummary.errors s = ScanSummary.total s)%nat
  ∧ (ScanSummary.flagged s ≤ ScanSummary.total s)%nat
  ∧ ScanSummary.total s
    = length (filter (λ f, lit ".json" `suffix_of` f.1) dir)
  ∧ ((∀ f, f ∈ dir → ScanSummary.results f.2 = None) →
     ScanSummary.ok s = 0%nat ∧ ScanSummary.errors s = ScanSummary.total s).
Proof.
  cbv zeta. unfold ScanSummary.summarize.
  set (files := filter (λ f, Inputs.endsWith f.1 (lit ".json")) dir).
  destruct (scan_count_fold (snd <$> files)
              {| ScanSummary.total := 0; ScanSummary.ok := 0;
                 ScanSummary.errors := 0; ScanSummary.flagged := 0 |})
    as (H1 & H2 & H3 & H4).
  split; [by apply H1|]. split; [apply H2; cbn; lia|]. split.
  - rewrite H3, length_fmap. cbn. unfold files. f_equal.
    apply list_filter_iff. intros f. unfold Inputs.endsWith.
    by rewrite bool_decide_spec.
  - intros Hall. destruct H4 as [-> ->].
    + apply Forall_fmap, Forall_forall. intros f Hf. apply Hall. unfold files in Hf.
      by apply list_elem_of_filter in Hf as [_ ?].
    + rewrite H3. cbn. done.
Qed.
End Summaries.

Section CutoffFilter.
Import JS FilterCutoff.

Lemma loop_filter (env : Fetch.Env) (cutoff : option Z)
    (all results : list jsstring) :
  loop env cutoff all results =
  results ++ filter (λ name, kept env cutoff name) all.
Proof.
  revert results. induction all as [|name rest IH]; intros results; cbn [loop].
  - by rewrite app_nil_r.
  - rewrite filter_cons.
    destruct (decide (kept env cutoff name)) as [Hk|Hk]; unfold kept in Hk;
      destruct (Fetch.fetchJSON env (Fetch.metaUrl env name)) as [e|meta];
      try done; try apply IH.
    + apply Is_true_true in Hk. rewrite Hk. by rewrite IH, <- app_assoc.
    + apply Is_true_false in Hk. rewrite Hk. apply IH.
Qed.

(** X22. The cutoff filter only drops names and keeps the others in
    their order: a name is written exactly when the registry answered for
    it with a creation date that is valid and not after the cutoff; a
    failed request drops that name and no other. *)
Theorem cutoff_filter_only_drops (env : Fetch.Env) (c : Z)
    (input : jsstring) :
  ∃ results,
    filterBeforeCutoff env (Some c) input = Some (join [LF] results)
    ∧ results `sublist_of` Inputs.lines input
    ∧ ∀ name, name ∈ results ↔
        name ∈ Inputs.lines input
        ∧ ∃ meta t tv,
            Fetch.fetchJSON env (Fetch.metaUrl env name) = inr meta
            ∧ created meta = Some t ∧ Fetch.newDate env t = Some tv
            ∧ tv ≤ c.
Proof.
  exists (loop env (Some c) (Inputs.lines input) []). split; [done|].
  rewrite loop_filter. cbn [app].
  assert (Hkept : ∀ name, kept env (Some c) name ↔
    ∃ meta t tv,
      Fetch.fetchJSON env (Fetch.metaUrl env name) = inr meta
      ∧ created meta = Some t ∧ Fetch.newDate env t = Some tv ∧ tv ≤ c).
  { intros name. unfold kept, before.
    destruct (Fetch.fetchJSON env (Fetch.metaUrl env name)) as [e|meta].
    { split; [done|]. by intros (? & ? & ? & ? & _). }
    destruct (created meta) as [t|] eqn:Hc.
    2: { split; [done|]. intros (m & t2 & tv2 & [= <-] & Ht & _). congruence. }
    unfold Fetch.date_le. destruct (Fetch.newDate env t) as [tv|] eqn:Hd.
    2: { split; [done|]. intros (m & t2 & tv2 & [= <-] & Ht & Htv & _).
         congruence. }
    rewrite Is_true_true, Z.leb_le. split.
    - intros Hle. eauto 10.
    - intros (m & t2 & tv2 & [= <-] & Ht & Htv & Hle).
      assert (t2 = t) as -> by congruence.
      assert (tv2 = tv) as -> by congruence. done. }
  split; [apply sublist_filter|].
  intros name. by rewrite list_elem_of_filter, Hkept, (and_comm (name ∈ _)).
Qed.
End CutoffFilter.

Section SampleSizes.
Import JS.

(** X23. For any sample size the sampler writes the first names of the
    shuffled list: [k] of them when [0 <= k <= N], all [N] beyond, and for
    a negative [k] all but the last [-k]; every name written is a name of
    the input, no more often than it was listed. *)
Theorem sample_is_a_part_of_the_input {A : Type} (names : list A) (k : Z) :
  let n := Z.of_nat (length names) in
  Z.of_nat (length (Sampler.sample names k))
  = (if k <? 0 then Z.max (n + k) 0 else Z.min k n)
  ∧ Sampler.sample names k ⊆+ Some <$> names
  ∧ Sampler.sample names k `prefix_of` Sampler.sample names n
  ∧ (NoDup names → NoDup (Sampler.sample names k)).
Proof.
  cbv zeta. unfold Sampler.sample.
  pose proof (shuffle_perm (Some <$> names)) as Hperm.
  pose proof (Permutation_length Hperm) as Hlen. rewrite length_fmap in Hlen.
  set (l := Sampler.shuffle (Some <$> names)) in *.
  rewrite (slice0_all l (Z.of_nat (length names))) by lia.
  assert (Htake : ∃ m, slice0 l k = take m l
                       ∧ Z.of_nat m = if k <? 0 then Z.max (Z.of_nat (length names) + k) 0
                                      else Z.min k (Z.of_nat (length names))).
  { unfold slice0. rewrite Hlen. destruct (k <? 0) eqn:E; eexists; split; try done.
    - lia.
    - apply Z.ltb_ge in E. lia. }
  destruct Htake as (m & -> & Hm).
  split; [rewrite length_take; destruct (k <? 0) eqn:E; [apply Z.ltb_lt in E|]; lia|].
  split; [rewrite <- Hperm; apply submseteq_take|].
  split; [apply prefix_take|].
  intros Hnd. eapply sublist_NoDup; [|apply (sublist_take l m)].
  rewrite Hperm. apply NoDup_fmap_2; [|done]. by intros ?? [=].
Qed.

(** X24. The index drawn for the swap at position [i] lies between 0
    and [i + 1], and is [i + 1], one past the part still to be shuffled,
    exactly when the generator's state reads [0xffffffff]. *)
Theorem drawn_index_range (s : Z) (i : nat) :
  (Sampler.pick s i ≤ S i)%nat
  ∧ (Sampler.pick s i = S i ↔ Sampler.ushr s 0 = 4294967295)
  ∧ 0 ≤ Sampler.ushr (Sampler.step s) 0 < 2 ^ 32.
Proof.
  split; [apply pick_le|]. split; [|apply ushr0_range].
  split.
  - intros H. destruct (decide (Sampler.ushr s 0 = 4294967295)) as [|Hne]; [done|].
    pose proof (pick_lt s i Hne). lia.
  - intros H. unfold Sampler.pick. rewrite value_floor, H.
    rewrite Z.mul_comm, Z.div_mul by done. lia.
Qed.
End SampleSizes.

(* --------------------------------------------------------------------- *)
(** ** The search collector *)
(* --------------------------------------------------------------------- *)

Section SearchFacts.
Import JS Search.
Variable fetchSearch : nat → jsstring → nat → Answer.
Variable target : option Z.

Lemma add_answered (name : jsstring) (c : list jsstring) n q from objs :
  answered fetchSearch c → name ≠ [] →
  fetchSearch n q from = Page objs → Some name ∈ objs →
  answered fetchSearch (add name c).
Proof.
  intros [Hnd Hall] Hne Hans Hin. unfold add.
  destruct (decide (name ∈ c)) as [Hc|Hc]; [done|]. split.
  - apply NoDup_app. split; [done|]. split; [|apply NoDup_singleton].
    intros x Hx ->%list_elem_of_singleton. done.
  - intros x [Hx| ->%list_elem_of_singleton]%elem_of_app; [by apply Hall|].
    split; [done|]. eauto 10.
Qed.

Lemma addAll_answered (objs items : list (option jsstring)) (c : list jsstring)
    n q from :
  fetchSearch n q from = Page objs → items ⊆ objs →
  answered fetchSearch c → answered fetchSearch (addAll items c).
Proof.
  intros Hans. revert c. induction items as [|item items IH]; intros c Hsub Hc; [done|].
  unfold addAll. cbn [foldl]. apply IH.
  - intros x Hx. apply Hsub. by right.
  - destruct item as [name|]; [|done].
    destruct name as [|ch name']; [done|]. cbn [truthy].
    eapply add_answered; [done|done|exact Hans|]. apply Hsub. by left.
Qed.

Lemma tryPage_answered (left : nat) (q : jsstring) (from : nat) (st : State) :
  answered fetchSearch (collected st) →
  answered fetchSearch (collected (tryPage fetchSearch left q from st)).
Proof.
  revert st. induction left as [|left IH]; intros st Hst; [done|].
  cbn [tryPage].
  destruct (fetchSearch (requests (log st)) q from) as [objs|message] eqn:Hans.
  - destruct (length objs =? 0)%nat; [done|]. cbn [collected].
    by eapply addAll_answered.
  - destruct (bool_decide (message = lit "RATE_LIMIT_1015")); by apply IH.
Qed.

Lemma pagesFrom_answered (count p : nat) (q : jsstring) (st : State) :
  answered fetchSearch (collected st) →
  answered fetchSearch (collected (pagesFrom fetchSearch target count p q st)).
Proof.
  revert p st. induction count as [|count IH]; intros p st Hst; [done|].
  cbn [pagesFrom]. destruct (reached target st); [done|].
  by apply IH, tryPage_answered.
Qed.

Lemma queries_answered (qs : list jsstring) (st : State) :
  answered fetchSearch (collected st) →
  answered fetchSearch (collected (queries fetchSearch target qs st)).
Proof.
  revert st. induction qs as [|q qs IH]; intros st Hst; [done|].
  cbn [queries]. cbv zeta.
  pose proof (pagesFrom_answered PAGES_PER_QUERY 0 q st Hst) as Hp.
  destruct (reached target (pagesFrom fetchSearch target PAGES_PER_QUERY 0 q st));
    [done|by apply IH].
Qed.

Lemma extends_refl (bound : nat) (asks : jsstring → nat → Prop) (l : list Event) :
  extends bound asks l l.
Proof.
  exists []. split; [by rewrite app_nil_r|]. split; [cbn; lia|constructor].
Qed.

Lemma extends_trans (b1 b2 b : nat) (asks1 asks2 asks : jsstring → nat → Prop)
    (l1 l2 l3 : list Event) :
  extends b1 asks1 l1 l2 → extends b2 asks2 l2 l3 →
  (b1 + b2 ≤ b)%nat →
  (∀ q from, asks1 q from → asks q from) →
  (∀ q from, asks2 q from → asks q from) →
  extends b asks l1 l3.
Proof.
  intros (e1 & -> & Hn1 & Hf1) (e2 & -> & Hn2 & Hf2) Hb H1 H2.
  exists (e1 ++ e2). split; [by rewrite app_assoc|]. split.
  - unfold requests, sent in *. rewrite omap_app, length_app. lia.
  - apply Forall_app. split.
    + eapply Forall_impl; [exact Hf1|]. intros [q from|ms]; [apply H1|done].
    + eapply Forall_impl; [exact Hf2|]. intros [q from|ms]; [apply H2|done].
Qed.

Lemma extends_weaken (b b' : nat) (asks asks' : jsstring → nat → Prop)
    (l l' : list Event) :
  extends b asks l l' → (b ≤ b')%nat → (∀ q from, asks q from → asks' q from) →
  extends b' asks' l l'.
Proof.
  intros H Hb Hasks.
  apply (extends_trans b 0 b' asks asks asks' l l' l' H (extends_refl _ _ _));
    [lia|done|done].
Qed.

Lemma extends_step (q : jsstring) (from : nat) (ms : list Z) (l : list Event) :
  ms ⊆ [300; 800; 4000] →
  extends 1 (λ q' from', q' = q ∧ from' = from) l
    ((l ++ [ERequest q from]) ++ (ESleep <$> ms)).
Proof.
  intros Hms. exists ([ERequest q from] ++ (ESleep <$> ms)).
  split; [by rewrite app_assoc|]. split.
  - unfold requests, sent. rewrite omap_app, length_app. cbn.
    assert (omap (λ e, match e with ERequest q0 f => Some (q0, f) | ESleep _ => None end)
              (ESleep <$> ms) = []) as ->; [|cbn; lia].
    clear Hms. induction ms as [|m ms IH]; [done|]. cbn. exact IH.
  - apply Forall_app. split; [by constructor|].
    apply Forall_fmap, Forall_forall. intros m Hm. cbn. by apply Hms.
Qed.

Lemma tryPage_extends (left : nat) (q : jsstring) (from : nat) (st : State) :
  extends left (λ q' from', q' = q ∧ from' = from)
    (log st) (log (tryPage fetchSearch left q from st)).
Proof.
  revert st. induction left as [|left IH]; intros st; [apply extends_refl|].
  cbn [tryPage].
  destruct (fetchSearch (requests (log st)) q from) as [objs|message].
  - destruct (length objs =? 0)%nat; cbn [log].
    + rewrite <- (app_nil_r (log st ++ _)).
      eapply extends_weaken; [apply (extends_step q from [] (log st))|..];
        [by intros ms Hms%elem_of_nil|lia|done].
    + eapply extends_weaken; [apply (extends_step q from [300] (log st))|..];
        [|lia|done].
      intros ms ->%list_elem_of_singleton. by left.
  - destruct (bool_decide (message = lit "RATE_LIMIT_1015")).
    + eapply extends_trans;
        [apply (extends_step q from [RATE_LIMIT_SLEEP] (log st))|apply IH|..];
        [|lia|done|done].
      intros ms ->%list_elem_of_singleton. by do 2 right; left.
    + eapply extends_trans;
        [apply (extends_step q from [800] (log st))|apply IH|..];
        [|lia|done|done].
      intros ms ->%list_elem_of_singleton. by right; left.
Qed.

Lemma pagesFrom_extends (count p : nat) (q : jsstring) (st : State) :
  extends (3 * count)
    (λ q' from', q' = q ∧ ∃ p', (p ≤ p' < p + count)%nat ∧ from' = (p' * PAGE_SIZE)%nat)
    (log st) (log (pagesFrom fetchSearch target count p q st)).
Proof.
  revert p st. induction count as [|count IH]; intros p st; [apply extends_refl|].
  cbn [pagesFrom]. destruct (reached target st); [apply extends_refl|].
  eapply extends_trans; [apply tryPage_extends|apply IH|lia|..].
  - intros q' from' [-> ->]. split; [done|]. exists p. split; [lia|done].
  - intros q' from' [-> (p' & Hp' & ->)]. split; [done|]. exists p'. split; [lia|done].
Qed.

Lemma queries_extends (qs : list jsstring) (st : State) :
  extends (3 * PAGES_PER_QUERY * length qs)
    (λ q from, q ∈ qs ∧ ∃ p, (p < PAGES_PER_QUERY)%nat ∧ from = (p * PAGE_SIZE)%nat)
    (log st) (log (queries fetchSearch target qs st)).
Proof.
  revert st. induction qs as [|q qs IH]; intros st; [apply extends_refl|].
  cbn [queries]. cbv zeta.
  destruct (reached target (pagesFrom fetchSearch target PAGES_PER_QUERY 0 q st)).
  - eapply extends_weaken; [apply pagesFrom_extends|..].
    + cbn [length]. lia.
    + intros q' from' [-> (p' & Hp' & ->)]. split; [by left|]. exists p'.
      split; [lia|done].
  - eapply extends_trans; [apply pagesFrom_extends|apply IH|..].
    + cbn [length]. lia.
    + intros q' from' [-> (p' & Hp' & ->)]. split; [by left|]. exists p'.
      split; [lia|done].
    + intros q' from' [Hq Hp']. split; [by right|done].
Qed.

Lemma tryPage_nothing (q : jsstring) (from : nat) (st : State) :
  (∀ n q from, fetchSearch n q from = Page []) →
  tryPage fetchSearch 3 q from st
  = {| collected := collected st; log := log st ++ [ERequest q from] |}.
Proof. intros Hnone. cbn [tryPage]. by rewrite Hnone. Qed.

Lemma pagesFrom_nothing (count p : nat) (q : jsstring) (l : list Event) :
  (∀ n q from, fetchSearch n q from = Page []) →
  reached target {| collected := []; log := [] |} = false →
  pagesFrom fetchSearch target count p q {| collected := []; log := l |}
  = {| collected := [];
       log := l ++ ((λ p, ERequest q (p * PAGE_SIZE)) <$> seq p count) |}.
Proof.
  intros Hnone Hgo. revert p l. induction count as [|count IH]; intros p l.
  - cbn. by rewrite app_nil_r.
  - cbn [pagesFrom]. change (reached target {| collected := []; log := l |})
      with (reached target {| collected := []; log := [] |}).
    rewrite Hgo, tryPage_nothing by done. cbn [collected log].
    rewrite IH. cbn [seq fmap list_fmap]. by rewrite <- app_assoc.
Qed.

Lemma queries_nothing (qs : list jsstring) (l : list Event) :
  (∀ n q from, fetchSearch n q from = Page []) →
  reached target {| collected := []; log := [] |} = false →
  queries fetchSearch target qs {| collected := []; log := l |}
  = {| collected := [];
       log := l ++ (q ← qs; (λ p, ERequest q (p * PAGE_SIZE)) <$> seq 0 PAGES_PER_QUERY) |}.
Proof.
  intros Hnone Hgo. revert l. induction qs as [|q qs IH]; intros l.
  - cbn. by rewrite app_nil_r.
  - cbn [queries]. cbv zeta. rewrite pagesFrom_nothing by done.
    change (reached target {| collected := []; log := ?x |})
      with (reached target {| collected := []; log := [] |}).
    rewrite Hgo, IH. by rewrite bind_cons, <- app_assoc.
Qed.
End SearchFacts.

Section SearchEdges.
Import JS Search.

Lemma queries_reached (fetchSearch : nat → jsstring → nat → Answer)
    (target : option Z) (qs : list jsstring) (st : State) :
  reached target st = true → queries fetchSearch target qs st = st.
Proof.
  intros Hst. destruct qs as [|q qs]; [done|].
  cbn [queries]. unfold PAGES_PER_QUERY. cbn [pagesFrom]. by rewrite !Hst.
Qed.

Lemma run_nonpositive (fetchSearch : nat → jsstring → nat → Answer) (t : Z) :
  t ≤ 0 → run fetchSearch (Some t) = {| collected := []; log := [] |}.
Proof.
  intros Ht. unfold run. apply queries_reached. cbn. apply Z.leb_le. lia.
Qed.

(** X25. The list of names the collector writes holds no name twice and
    no more names than the target (none when the target is not a
    number); every name in it is a non-empty name that the registry gave
    in one of its answers. *)
Theorem collected_names_are_distinct_and_answered
    (fetchSearch : nat → jsstring → nat → Answer) (target : option Z) :
  let l := finalList fetchSearch target in
  NoDup l
  ∧ match target with
    | Some t => Z.of_nat (length l) ≤ Z.max t 0
    | None => l = []
    end
  ∧ ∀ name, name ∈ l →
      name ≠ [] ∧ ∃ n q from objs,
        fetchSearch n q from = Page objs ∧ Some name ∈ objs.
Proof.
  cbv zeta. unfold finalList.
  assert (Hrun : answered fetchSearch (collected (run fetchSearch target))).
  { apply queries_answered. split; [constructor|]. by intros name Hin%elem_of_nil. }
  destruct Hrun as [Hnd Hall].
  assert (Htake : ∃ m, slice0 (collected (run fetchSearch target)) (default 0 target)
                       = take m (collected (run fetchSearch target))).
  { unfold slice0. destruct (default 0 target <? 0); eauto. }
  destruct Htake as [m Htake]. split; [|split].
  - rewrite Htake. eapply sublist_NoDup; [|apply sublist_take]. done.
  - destruct target as [t|].
    2: { change (default 0 None) with 0. unfold slice0.
         change (0 <? 0) with false. cbv iota. by rewrite Z.min_l by lia. }
    change (default 0 (Some t)) with t.
    destruct (decide (t ≤ 0)) as [Ht|Ht].
    + rewrite run_nonpositive by done. cbn [collected].
      unfold slice0. destruct (t <? 0); rewrite length_take; cbn [length]; lia.
    + unfold slice0. destruct (t <? 0) eqn:E; [apply Z.ltb_lt in E; lia|].
      rewrite length_take. lia.
  - intros name Hin. apply Hall. rewrite Htake in Hin.
    eapply elem_of_prefix; [exact Hin|apply prefix_take].
Qed.

(** X26. Whatever the registry answers, the collector sends at most
    three requests for a page, 528 in all; each asks for one of the
    listed queries at an offset of 0, 150, ..., 1050; and it sleeps for
    300, 800 or 4000 ms only. *)
Theorem collector_requests_are_bounded
    (fetchSearch : nat → jsstring → nat → Answer) (target : option Z) :
  let l := log (run fetchSearch target) in
  (requests l ≤ 528)%nat
  ∧ (∀ q from, ERequest q from ∈ l →
       q ∈ QUERY_LIST ∧ ∃ p, (p < 8)%nat ∧ from = (p * 150)%nat)
  ∧ (∀ ms, ESleep ms ∈ l → ms = 300 ∨ ms = 800 ∨ ms = 4000).
Proof.
  cbv zeta. unfold run.
  destruct (queries_extends fetchSearch target QUERY_LIST {| collected := []; log := [] |})
    as (ext & Hext & Hn & Hall).
  cbn [log app] in Hext. rewrite Hext. split; [exact Hn|].
  rewrite Forall_forall in Hall. split.
  - intros q from Hin. exact (Hall _ Hin).
  - intros ms Hin. specialize (Hall _ Hin). cbn beta iota in Hall.
    repeat (apply elem_of_cons in Hall as [Hall|Hall]; [by eauto|]).
    by apply elem_of_nil in Hall.
Qed.


(** X27. An empty page does not end a query: when the registry has
    nothing to give, all eight pages of every query are still asked for,
    176 requests, each once and without a sleep, and nothing is
    written. *)
Theorem empty_pages_do_not_end_a_query
    (fetchSearch : nat → jsstring → nat → Answer) (target : option Z) :
  (∀ n q from, fetchSearch n q from = Page []) →
  match target with Some t => 0 < t | None => True end →
  log (run fetchSearch target) = allPages
  ∧ requests (log (run fetchSearch target)) = 176%nat
  ∧ written fetchSearch target = [].
Proof.
  intros Hnone Htarget.
  assert (Hgo : reached target {| collected := []; log := [] |} = false).
  { unfold reached. destruct target as [t|]; [|done]. cbn. apply Z.leb_gt. lia. }
  assert (Hrun : run fetchSearch target = {| collected := []; log := allPages |}).
  { unfold run. rewrite (queries_nothing _ _ _ _ Hnone Hgo). reflexivity. }
  unfold written, finalList. rewrite Hrun. cbn [log collected].
  split; [done|]. split; [by vm_compute|].
  unfold slice0. by destruct (default 0 target <? 0); rewrite take_nil.
Qed.

Lemma empty_pages_do_not_end_a_query_witness :
  log (run Registry.nothing (Some 5)) = allPages
  ∧ requests (log (run Registry.nothing (Some 5))) = 176%nat
  ∧ written Registry.nothing (Some 5) = [].
Proof.
  apply (empty_pages_do_not_end_a_query Registry.nothing (Some 5)).
  - reflexivity.
  - cbn. lia.
Defined.

(** X28. With a target of zero or less the collector sends no request
    and writes an empty file. *)
Theorem no_target_no_request
    (fetchSearch : nat → jsstring → nat → Answer) (t : Z) :
  t ≤ 0 →
  log (run fetchSearch (Some t)) = [] ∧ written fetchSearch (Some t) = [].
Proof.
  intros Ht.
  pose proof (run_nonpositive fetchSearch t Ht) as Hrun.
  unfold written, finalList. rewrite Hrun. cbn [log collected].
  split; [done|]. unfold slice0.
  by destruct (default 0 (Some t) <? 0); rewrite take_nil.
Qed.

Lemma no_target_no_request_witness :
  log (run Registry.limited (Some 0)) = [] ∧ written Registry.limited (Some 0) = [].
Proof. apply (no_target_no_request Registry.limited 0). lia. Defined.
End SearchEdges.
